(** * HTMLyoutubeMusic: the playlist controller (overlay.js) and the
      WebSocket display (the script that follows the style sheet in
      overlay.css), embedded as Rocq functions.

    JavaScript strings are sequences of 16-bit code units, numbers are
    exact decimals or NaN, values read from JSON are a
    tagged union, and every handler is a function on an explicit page
    state. *)

From Stdlib Require Import ZArith NArith QArith Qminmax Bool Ascii String List Lia.
Import ListNotations.

Set Warnings "-register-all".

(* ================================================================== *)
(** * JavaScript strings, numbers and JSON values                      *)
(* ================================================================== *)

Module JS.

(** A string is its sequence of UTF-16 code units; [length] is the
    JavaScript [.length]. *)
Definition jsstring := list N.

Definition ch (a : ascii) : N := N_of_ascii a.

(** A literal of the source, written with ASCII characters only. *)
Definition str (s : string) : jsstring := map N_of_ascii (list_ascii_of_string s).

Fixpoint str_eqb (a b : jsstring) : bool :=
  match a, b with
  | [], [] => true
  | x :: a', y :: b' => (x =? y)%N && str_eqb a' b'
  | _, _ => false
  end.

(** WhiteSpace and LineTerminator of ECMAScript, as used by
    [String.prototype.trim] and by [parseInt]. *)
Definition isLineTerminator (c : N) : bool :=
  ((c =? 10) || (c =? 13) || (c =? 8232) || (c =? 8233))%N.

Definition isWhiteSpace (c : N) : bool :=
  ((c =? 9) || (c =? 11) || (c =? 12) || (c =? 32) || (c =? 160)
   || (c =? 5760) || ((8192 <=? c) && (c <=? 8202)) || (c =? 8239)
   || (c =? 8287) || (c =? 12288) || (c =? 65279))%N.

Definition isStrWhiteSpace (c : N) : bool := isWhiteSpace c || isLineTerminator c.

Fixpoint trimStart (s : jsstring) : jsstring :=
  match s with
  | c :: s' => if isStrWhiteSpace c then trimStart s' else s
  | [] => []
  end.

Definition trimEnd (s : jsstring) : jsstring := rev (trimStart (rev s)).

(** [s.trim()] *)
Definition trim (s : jsstring) : jsstring := trimEnd (trimStart s).

(** Numbers.  [Num m d] is the decimal [m / 10^d]; it is kept normalised
    ([d = 0], or [m] not a multiple of ten), so an integer [z] is
    [Num z 0].  Rounding to IEEE doubles is not modelled, nor is the
    overflow to Infinity: the value is kept exactly. *)
Inductive number : Type :=
| NaN
| Num (m : Z) (d : N).

Abbreviation Int z := (Num z 0).

Fixpoint normalise_fuel (fuel : nat) (m : Z) (d : N) : number :=
  match fuel with
  | O => Num m d
  | S fuel' =>
      if (d =? 0)%N then Num m 0
      else if (m mod 10 =? 0)%Z then normalise_fuel fuel' (m / 10) (N.pred d)
      else Num m d
  end.

Definition normalise (m : Z) (d : N) : number := normalise_fuel (N.to_nat d) m d.

(** JavaScript values that the scripts handle: what [JSON.parse] produces,
    and [undefined] for a missing property. *)
Inductive value : Type :=
| VUndefined
| VNull
| VBool (b : bool)
| VNum (n : number)
| VStr (s : jsstring)
| VArr (items : list value)
| VObj (props : list (jsstring * value)).

(** ToBoolean *)
Definition truthy (v : value) : bool :=
  match v with
  | VUndefined | VNull => false
  | VBool b => b
  | VNum NaN => false
  | VNum (Num m _) => negb (m =? 0)%Z
  | VStr s => match s with [] => false | _ => true end
  | VArr _ | VObj _ => true
  end.

(** Own property of an object, in the order the properties were created. *)
Fixpoint lookup (k : jsstring) (props : list (jsstring * value)) : option value :=
  match props with
  | [] => None
  | (k', v) :: rest => if str_eqb k k' then Some v else lookup k rest
  end.

Definition hasOwn (k : jsstring) (props : list (jsstring * value)) : bool :=
  match lookup k props with Some _ => true | None => false end.

(** Errors a script can raise. *)
Inductive error : Type :=
| SyntaxError
| TypeError
| InvalidStateError.

(** [v.k] for the property names the scripts read ([command], [params],
    [value], [title], [author], [playlist], [currentIndex], [id]): none of
    them is defined on a built-in prototype, so only an own property of an
    object yields a value; reading from [null] or [undefined] raises. *)
Definition get (v : value) (k : string) : error + value :=
  match v with
  | VUndefined | VNull => inl TypeError
  | VObj props =>
      match lookup (str k) props with
      | Some x => inr x
      | None => inr VUndefined
      end
  | _ => inr VUndefined
  end.

(** ** Arithmetic on numbers

    Exact on decimals; [NaN] is absorbing. *)

Definition rescale (m : Z) (d d' : N) : Z := (m * 10 ^ Z.of_N (d' - d))%Z.

(** [a + b] *)
Definition num_add (a b : number) : number :=
  match a, b with
  | Num m1 d1, Num m2 d2 =>
      let d := N.max d1 d2 in
      normalise (rescale m1 d1 d + rescale m2 d2 d) d
  | _, _ => NaN
  end.

(** [a - b] *)
Definition num_sub (a b : number) : number :=
  match a, b with
  | Num m1 d1, Num m2 d2 =>
      let d := N.max d1 d2 in
      normalise (rescale m1 d1 d - rescale m2 d2 d) d
  | _, _ => NaN
  end.

(** [a % b]: the remainder has the sign of the dividend; [NaN] when [b]
    is zero. *)
Definition num_rem (a b : number) : number :=
  match a, b with
  | Num m1 d1, Num m2 d2 =>
      let d := N.max d1 d2 in
      if (rescale m2 d2 d =? 0)%Z then NaN
      else normalise (Z.rem (rescale m1 d1 d) (rescale m2 d2 d)) d
  | _, _ => NaN
  end.

(** [a < b] and [a >= b]; both are false when an operand is [NaN]. *)
Definition num_lt (a b : number) : bool :=
  match a, b with
  | Num m1 d1, Num m2 d2 =>
      let d := N.max d1 d2 in (rescale m1 d1 d <? rescale m2 d2 d)%Z
  | _, _ => false
  end.

Definition num_ge (a b : number) : bool :=
  match a, b with
  | Num m1 d1, Num m2 d2 =>
      let d := N.max d1 d2 in (rescale m2 d2 d <=? rescale m1 d1 d)%Z
  | _, _ => false
  end.

(** [a === b] on numbers. *)
Definition num_eqb (a b : number) : bool :=
  match a, b with
  | Num m1 d1, Num m2 d2 => (m1 =? m2)%Z && (d1 =? d2)%N
  | _, _ => false
  end.

(** [items[i]]: an element when [i] is an integer within the array,
    [undefined] otherwise. *)
Definition elementAt (items : list value) (i : number) : value :=
  match i with
  | Num z 0%N => if (z <? 0)%Z then VUndefined else nth (Z.to_nat z) items VUndefined
  | _ => VUndefined
  end.

(** ** [parseInt] *)

Definition digitVal (radix : Z) (c : N) : option Z :=
  let v :=
    if ((48 <=? c) && (c <=? 57))%N then Some (Z.of_N c - 48)%Z
    else if ((97 <=? c) && (c <=? 122))%N then Some (Z.of_N c - 87)%Z
    else if ((65 <=? c) && (c <=? 90))%N then Some (Z.of_N c - 55)%Z
    else None in
  match v with
  | Some d => if (d <? radix)%Z then Some d else None
  | None => None
  end.

(** Value of the longest prefix of radix digits; [acc] is [None] until a
    digit has been read. *)
Fixpoint digitsValue (radix : Z) (s : jsstring) (acc : option Z) : option Z :=
  match s with
  | c :: s' =>
      match digitVal radix c with
      | Some d =>
          digitsValue radix s'
            (Some (match acc with Some a => a * radix + d | None => d end)%Z)
      | None => acc
      end
  | [] => acc
  end.

(** [parseInt(s)] with no radix argument: leading white space, a sign, an
    optional [0x], then the longest run of digits; [NaN] when that run is
    empty. *)
Definition parseInt (s : jsstring) : number :=
  let s1 := trimStart s in
  let '(sign, s2) :=
    match s1 with
    | c :: r =>
        if (c =? 45)%N then ((-1)%Z, r)
        else if (c =? 43)%N then (1%Z, r)
        else (1%Z, s1)
    | [] => (1%Z, s1)
    end in
  let '(radix, s3) :=
    match s2 with
    | z :: x :: r =>
        if ((z =? 48) && ((x =? 120) || (x =? 88)))%N then (16%Z, r) else (10%Z, s2)
    | _ => (10%Z, s2)
    end in
  match digitsValue radix s3 None with
  | None => NaN
  | Some v => Int (sign * v)
  end.

(** ** Number to string *)

Fixpoint digits_fuel (fuel : nat) (p : Z) (acc : jsstring) : jsstring :=
  match fuel with
  | O => acc
  | S fuel' =>
      if (p <? 10)%Z then (48 + Z.to_N p)%N :: acc
      else digits_fuel fuel' (p / 10)%Z ((48 + Z.to_N (p mod 10))%N :: acc)
  end.

(** Decimal digits of a non-negative integer. *)
Definition digits (p : Z) : jsstring :=
  digits_fuel (S (Z.to_nat (Z.log2 p))) p [].

Fixpoint dropZeros (s : jsstring) : jsstring :=
  match s with
  | c :: s' => if (c =? 48)%N then dropZeros s' else s
  | [] => s
  end.

Definition zeros (n : Z) : jsstring := repeat 48%N (Z.to_nat n).

(** Number::toString in radix 10: with [s] the significant digits, [k]
    their count and [n] the position of the decimal point. *)
Definition numberToString (x : number) : jsstring :=
  match x with
  | NaN => str "NaN"
  | Num m d =>
      if (m =? 0)%Z then str "0"
      else
        let sign := if (m <? 0)%Z then str "-" else [] in
        let all := digits (Z.abs m) in
        let s := rev (dropZeros (rev all)) in
        let k := Z.of_nat (length s) in
        let n := (Z.of_nat (length all) - Z.of_N d)%Z in
        sign ++
        (if ((k <=? n) && (n <=? 21))%Z then s ++ zeros (n - k)
         else if ((0 <? n) && (n <=? 21))%Z then
           firstn (Z.to_nat n) s ++ str "." ++ skipn (Z.to_nat n) s
         else if ((-6 <? n) && (n <=? 0))%Z then
           str "0." ++ zeros (- n) ++ s
         else
           let e := (n - 1)%Z in
           let es := (if (e <? 0)%Z then str "e-" else str "e+") ++ digits (Z.abs e) in
           match s with
           | [] => []
           | [c] => c :: es
           | c :: rest => c :: str "." ++ rest ++ es
           end)
  end.

(** ToString, as a template literal and [x.toString()] apply it to a
    value read from JSON.  An object that carries its own (non-callable)
    [toString] property has no primitive value: TypeError. *)
Fixpoint toString (v : value) : error + jsstring :=
  match v with
  | VUndefined => inr (str "undefined")
  | VNull => inr (str "null")
  | VBool true => inr (str "true")
  | VBool false => inr (str "false")
  | VNum n => inr (numberToString n)
  | VStr s => inr s
  | VArr items =>
      (fix join (first : bool) (l : list value) : error + jsstring :=
         match l with
         | [] => inr []
         | x :: l' =>
             let sep := if first then [] else str "," in
             let piece :=
               match x with
               | VUndefined | VNull => inr []
               | _ => toString x
               end in
             match piece, join false l' with
             | inr a, inr b => inr (sep ++ a ++ b)
             | inl e, _ => inl e
             | _, inl e => inl e
             end
         end) true items
  | VObj props =>
      if hasOwn (str "toString") props then inl TypeError
      else inr (str "[object Object]")
  end.

End JS.
Export JS.

(* ================================================================== *)
(** * Regular expressions: a backtracking matcher                      *)
(* ================================================================== *)

Module Regex.

(** Character sets of the pattern in [extractVideoId]. *)
Inductive cset : Type :=
| Any                       (* .   : anything but a line terminator *)
| Word                      (* \w  : [A-Za-z0-9_] *)
| Lit (c : N)               (* a literal character *)
| NoneOf (cs : list N).     (* [^...] *)

Definition isWordChar (c : N) : bool :=
  (((65 <=? c) && (c <=? 90)) || ((97 <=? c) && (c <=? 122))
   || ((48 <=? c) && (c <=? 57)) || (c =? 95))%N.

Definition mem (cs : cset) (c : N) : bool :=
  match cs with
  | Any => negb (isLineTerminator c)
  | Word => isWordChar c
  | Lit c' => (c =? c')%N
  | NoneOf l => negb (existsb (N.eqb c) l)
  end.

Inductive re : Type :=
| Eps
| Chr (cs : cset)
| Star (cs : cset)            (* greedy [cs*] *)
| Seq (r1 r2 : re)
| Alt (r1 r2 : re)
| Group (i : nat) (r : re).   (* capturing group number [i] *)

(** Captures: group number to captured substring. *)
Definition captures := list (nat * jsstring).

Fixpoint capture (i : nat) (caps : captures) : option jsstring :=
  match caps with
  | [] => None
  | (j, s) :: rest => if Nat.eqb i j then Some s else capture i rest
  end.

(** Greedy star over one character set: take as many characters as
    possible, then give them back one at a time until the continuation
    succeeds. *)
Fixpoint star {R : Type} (cs : cset) (s : jsstring) (k : jsstring -> option R) : option R :=
  match s with
  | c :: s' =>
      if mem cs c then
        match star cs s' k with
        | Some r => Some r
        | None => k s
        end
      else k s
  | [] => k s
  end.

(** Backtracking match of [r] at the head of [s], continuation [k] is
    what must match afterwards. *)
Fixpoint m (r : re) (s : jsstring) (caps : captures)
    (k : jsstring -> captures -> option captures) : option captures :=
  match r with
  | Eps => k s caps
  | Chr cs =>
      match s with
      | c :: s' => if mem cs c then k s' caps else None
      | [] => None
      end
  | Star cs => star cs s (fun s' => k s' caps)
  | Seq r1 r2 => m r1 s caps (fun s' caps' => m r2 s' caps' k)
  | Alt r1 r2 =>
      match m r1 s caps k with
      | Some c => Some c
      | None => m r2 s caps k
      end
  | Group i r1 =>
      m r1 s caps
        (fun s' caps' => k s' ((i, firstn (length s - length s') s) :: caps'))
  end.

(** [s.match(/^r/)]: the pattern starts with [^] and has no flags, so the
    only candidate position is the start of [s]; nothing anchors the end. *)
Definition exec (r : re) (s : jsstring) : option captures :=
  m r s [] (fun _ caps => Some caps).

(** A run of literal characters. *)
Definition lits (w : jsstring) : re :=
  fold_right (fun c r => Seq (Chr (Lit c)) r) Eps w.

Definition chars (s : string) : re := lits (str s).

(** [w] at the head of [s]: what follows it. *)
Fixpoint stripPrefix (w s : jsstring) : option jsstring :=
  match w, s with
  | [], _ => Some s
  | c :: w', x :: s' => if (x =? c)%N then stripPrefix w' s' else None
  | _ :: _, [] => None
  end.

(** A syntactic check: every string that [r] matches contains one of the
    characters [cs]. *)
Fixpoint requires (cs : list N) (r : re) : bool :=
  match r with
  | Eps => false
  | Chr (Lit c) => existsb (N.eqb c) cs
  | Chr _ => false
  | Star _ => false
  | Seq r1 r2 => requires cs r1 || requires cs r2
  | Alt r1 r2 => requires cs r1 && requires cs r2
  | Group _ r1 => requires cs r1
  end.

(** [s'] is what is left of [s] after some prefix. *)
Definition Suffix (s' s : jsstring) : Prop := exists p, s = p ++ s'.

(** None of the characters [cs] occurs in [s]. *)
Definition avoids (cs : list N) (s : jsstring) : Prop :=
  forall c, In c cs -> ~ In c s.

(** The positions a greedy star gives back over a prefix [a] it has
    consumed, last one first. *)
Fixpoint backtrack {R : Type} (a b : jsstring) (k : jsstring -> option R) : option R :=
  match a with
  | [] => None
  | c :: a' =>
      match backtrack a' b k with
      | Some r => Some r
      | None => k (c :: a' ++ b)
      end
  end.

End Regex.

(* ================================================================== *)
(** * JSON.parse and JSON.stringify                                    *)
(* ================================================================== *)

Module JSON.

(** Result of a parsing step: the value read and the rest of the text, a
    syntax error, or recursion budget exhausted (never with the budget
    [JSON_parse] gives, see [parse_value_fuel]). *)
Inductive parsed (A : Type) : Type :=
| POk (a : A) (rest : jsstring)
| PErr
| PFuel.
Arguments POk {A} a rest.
Arguments PErr {A}.
Arguments PFuel {A}.

(** JSON white space: tab, line feed, carriage return, space. *)
Definition isJSONSpace (c : N) : bool :=
  ((c =? 9) || (c =? 10) || (c =? 13) || (c =? 32))%N.

Fixpoint skip_ws (s : jsstring) : jsstring :=
  match s with
  | c :: s' => if isJSONSpace c then skip_ws s' else s
  | [] => []
  end.

Definition hexVal (c : N) : option N :=
  if ((48 <=? c) && (c <=? 57))%N then Some (c - 48)%N
  else if ((97 <=? c) && (c <=? 102))%N then Some (c - 87)%N
  else if ((65 <=? c) && (c <=? 70))%N then Some (c - 55)%N
  else None.

(** The character an escape letter stands for. *)
Definition unescape (e : N) : option N :=
  if (e =? 34)%N then Some 34%N          (* quotation mark *)
  else if (e =? 92)%N then Some 92%N     (* backslash *)
  else if (e =? 47)%N then Some 47%N     (* solidus *)
  else if (e =? 98)%N then Some 8%N      (* b: backspace *)
  else if (e =? 102)%N then Some 12%N    (* f: form feed *)
  else if (e =? 110)%N then Some 10%N    (* n: line feed *)
  else if (e =? 114)%N then Some 13%N    (* r: carriage return *)
  else if (e =? 116)%N then Some 9%N     (* t: tab *)
  else None.

(** The characters of a string after its opening quote, up to and
    including the closing quote: a backslash starts an escape (u and four
    hexadecimal digits, or one escape letter), a control character is an
    error. *)
Fixpoint parse_chars (s : jsstring) (acc : jsstring) : parsed jsstring :=
  match s with
  | [] => PErr
  | c :: rest =>
      if (c =? 34)%N then POk (rev acc) rest
      else if (c =? 92)%N then
        match rest with
        | [] => PErr
        | e :: rest1 =>
            if (e =? 117)%N then
              match rest1 with
              | a :: b :: c :: d :: rest2 =>
                  match hexVal a, hexVal b, hexVal c, hexVal d with
                  | Some x3, Some x2, Some x1, Some x0 =>
                      parse_chars rest2
                        ((x3 * 4096 + x2 * 256 + x1 * 16 + x0)%N :: acc)
                  | _, _, _, _ => PErr
                  end
              | _ => PErr
              end
            else
              match unescape e with
              | Some x => parse_chars rest1 (x :: acc)
              | None => PErr
              end
        end
      else if (c <? 32)%N then PErr
      else parse_chars rest (c :: acc)
  end.

Definition isDigit (c : N) : bool := ((48 <=? c) && (c <=? 57))%N.

(** A run of decimal digits: their value, their count, the rest. *)
Fixpoint parse_digits (s : jsstring) (acc : Z) (count : N) : Z * N * jsstring :=
  match s with
  | c :: s' =>
      if isDigit c then parse_digits s' (acc * 10 + (Z.of_N c - 48))%Z (count + 1)%N
      else (acc, count, s)
  | [] => (acc, count, s)
  end.

(** An optional minus sign. *)
Definition parse_minus (s : jsstring) : bool * jsstring :=
  match s with
  | c :: r => if (c =? 45)%N then (true, r) else (false, s)
  | [] => (false, s)
  end.

(** The integer part: zero alone, or a digit run that does not start
    with zero. *)
Definition parse_int (s : jsstring) : option (Z * jsstring) :=
  match s with
  | c :: r =>
      if (c =? 48)%N then Some (0%Z, r)
      else if isDigit c then
        let '(v, _, r') := parse_digits s 0%Z 0%N in Some (v, r')
      else None
  | [] => None
  end.

(** The optional fraction: the digits extend the mantissa [iv]; the
    result carries the number of fraction digits. *)
Definition parse_frac (iv : Z) (s : jsstring) : option (Z * N * jsstring) :=
  match s with
  | c :: r =>
      if (c =? 46)%N then
        let '(v, n, r') := parse_digits r iv 0%N in
        if (n =? 0)%N then None else Some (v, n, r')
      else Some (iv, 0%N, s)
  | [] => Some (iv, 0%N, s)
  end.

(** The optional exponent. *)
Definition parse_exp (s : jsstring) : option (Z * jsstring) :=
  match s with
  | c :: r =>
      if ((c =? 101) || (c =? 69))%N then
        let '(eneg, r1) :=
          match r with
          | d :: r' =>
              if (d =? 45)%N then (true, r')
              else if (d =? 43)%N then (false, r')
              else (false, r)
          | [] => (false, r)
          end in
        let '(v, n, r2) := parse_digits r1 0%Z 0%N in
        if (n =? 0)%N then None
        else Some ((if eneg then - v else v)%Z, r2)
      else Some (0%Z, s)
  | [] => Some (0%Z, s)
  end.

(** A JSON number: an optional minus sign; zero, or a non-zero digit and
    more digits; an optional fraction (a point and at least one digit); an
    optional exponent (e or E, an optional sign, at least one digit). *)
Definition parse_number (s : jsstring) : parsed number :=
  let '(neg, s1) := parse_minus s in
  match parse_int s1 with
  | None => PErr
  | Some (iv, s2) =>
      match parse_frac iv s2 with
      | None => PErr
      | Some (mant, scale, s3) =>
          match parse_exp s3 with
          | None => PErr
          | Some (e, s4) =>
              let m := (if neg then - mant else mant)%Z in
              let p := (e - Z.of_N scale)%Z in
              POk (if (0 <=? p)%Z then Int (m * 10 ^ p)
                   else normalise m (Z.to_N (- p))) s4
          end
      end
  end.

Definition nonEmptyList {A} (l : list A) : bool :=
  match l with [] => false | _ => true end.

(** Array index keys (0, 1, ... below 2^32 - 1, in canonical decimal form) are enumerated first,
    in ascending order; other keys follow in creation order. *)
Definition arrayIndex (k : jsstring) : option Z :=
  match k with
  | [] => None
  | c :: rest =>
      if (c =? 48)%N && nonEmptyList rest then None
      else if forallb isDigit k then
        let '(v, _, _) := parse_digits k 0%Z 0%N in
        if (v <? 4294967295)%Z then Some v else None
      else None
  end.

Fixpoint insertIndex (i : Z) (k : jsstring) (v : value)
    (props : list (jsstring * value)) : list (jsstring * value) :=
  match props with
  | [] => [(k, v)]
  | (k', v') :: rest =>
      match arrayIndex k' with
      | Some j => if (j <? i)%Z then (k', v') :: insertIndex i k v rest
                  else (k, v) :: props
      | None => (k, v) :: props
      end
  end.

Fixpoint replace (k : jsstring) (v : value)
    (props : list (jsstring * value)) : list (jsstring * value) :=
  match props with
  | [] => []
  | (k', v') :: rest =>
      if str_eqb k k' then (k', v) :: rest else (k', v') :: replace k v rest
  end.

(** CreateDataProperty: a repeated key overwrites in place. *)
Definition define (props : list (jsstring * value)) (k : jsstring) (v : value)
    : list (jsstring * value) :=
  if hasOwn k props then replace k v props
  else match arrayIndex k with
       | Some i => insertIndex i k v props
       | None => props ++ [(k, v)]
       end.

Definition startsWith (p s : jsstring) : option jsstring :=
  if str_eqb (firstn (length p) s) p then Some (skipn (length p) s) else None.

(** The elements of an array after its opening bracket, [pv] reading one
    value; [n] bounds the number of elements. *)
Fixpoint parse_elements (pv : jsstring -> parsed value) (n : nat) (s : jsstring)
    (acc : list value) : parsed value :=
  match n with
  | O => PFuel
  | S n' =>
      match pv s with
      | POk v rest =>
          match skip_ws rest with
          | c :: rest' =>
              if (c =? 44)%N then parse_elements pv n' rest' (v :: acc)
              else if (c =? 93)%N then POk (VArr (rev (v :: acc))) rest'
              else PErr
          | [] => PErr
          end
      | PErr => PErr
      | PFuel => PFuel
      end
  end.

(** The members of an object after its opening brace: a string, a
    colon, a value; then a comma and more, or the closing brace. *)
Fixpoint parse_members (pv : jsstring -> parsed value) (n : nat) (s : jsstring)
    (acc : list (jsstring * value)) : parsed value :=
  match n with
  | O => PFuel
  | S n' =>
      match skip_ws s with
      | q :: s1 =>
          if (q =? 34)%N then
            match parse_chars s1 [] with
            | POk k s2 =>
                match skip_ws s2 with
                | colon :: s3 =>
                    if (colon =? 58)%N then
                      match pv s3 with
                      | POk v rest =>
                          match skip_ws rest with
                          | c :: rest' =>
                              if (c =? 44)%N then
                                parse_members pv n' rest' (define acc k v)
                              else if (c =? 125)%N then
                                POk (VObj (define acc k v)) rest'
                              else PErr
                          | [] => PErr
                          end
                      | PErr => PErr
                      | PFuel => PFuel
                      end
                    else PErr
                | [] => PErr
                end
            | PErr => PErr
            | PFuel => PFuel
            end
          else PErr
      | [] => PErr
      end
  end.

(** The literals null, true and false. *)
Definition parse_literal (s : jsstring) : parsed value :=
  match startsWith (str "null") s, startsWith (str "true") s,
        startsWith (str "false") s with
  | Some rest, _, _ => POk VNull rest
  | _, Some rest, _ => POk (VBool true) rest
  | _, _, Some rest => POk (VBool false) rest
  | _, _, _ => PErr
  end.

(** Whether the text starts, after white space, with the character [c]. *)
Definition closes (c : N) (s : jsstring) : option jsstring :=
  match skip_ws s with
  | x :: rest => if (x =? c)%N then Some rest else None
  | [] => None
  end.

(** One JSON value at the head of [s], after optional white space.
    [fuel] bounds the nesting depth. *)
Fixpoint parse_value (fuel : nat) (s : jsstring) : parsed value :=
  match fuel with
  | O => PFuel
  | S fuel' =>
      match skip_ws s with
      | [] => PErr
      | c :: r =>
          if (c =? 34)%N then                          (* a string *)
            match parse_chars r [] with
            | POk x rest => POk (VStr x) rest
            | PErr => PErr
            | PFuel => PFuel
            end
          else if (c =? 91)%N then                     (* an array *)
            match closes 93 r with
            | Some rest => POk (VArr []) rest
            | None => parse_elements (parse_value fuel') fuel' r []
            end
          else if (c =? 123)%N then                    (* an object *)
            match closes 125 r with
            | Some rest => POk (VObj []) rest
            | None => parse_members (parse_value fuel') fuel' r []
            end
          else if (c =? 45)%N || isDigit c then
            match parse_number (c :: r) with
            | POk n rest => POk (VNum n) rest
            | PErr => PErr
            | PFuel => PFuel
            end
          else parse_literal (c :: r)
      end
  end.

(** A parsing step that never reports an exhausted budget and never
    returns more text than it was given. *)
Definition steady {A} (r : parsed A) (s : jsstring) : Prop :=
  r <> PFuel /\ forall x rest, r = POk x rest -> (length rest <= length s)%nat.

(** [JSON.parse(text)]: a value, white space, end of text; SyntaxError
    otherwise.  The budget of one more than the length of the text is
    never exhausted, so the last case is never taken. *)
Definition JSON_parse (text : jsstring) : error + value :=
  match parse_value (S (length text)) text with
  | POk v rest =>
      match skip_ws rest with
      | [] => inr v
      | _ => inl SyntaxError
      end
  | PErr => inl SyntaxError
  | PFuel => inl SyntaxError
  end.

Definition hexDigit (n : N) : N := if (n <? 10)%N then (48 + n)%N else (87 + n)%N.

Definition unicodeEscape (c : N) : jsstring :=
  [92; 117; hexDigit ((c / 4096) mod 16); hexDigit ((c / 256) mod 16);
   hexDigit ((c / 16) mod 16); hexDigit (c mod 16)]%N.

Definition isHighSurrogate (c : N) : bool := ((55296 <=? c) && (c <=? 56319))%N.
Definition isLowSurrogate (c : N) : bool := ((56320 <=? c) && (c <=? 57343))%N.

(** QuoteJSONString without the surrounding quotation marks. *)
Fixpoint quoteChars (s : jsstring) : jsstring :=
  match s with
  | [] => []
  | c :: s' =>
      if (c =? 8)%N then [92; 98]%N ++ quoteChars s'
      else if (c =? 9)%N then [92; 116]%N ++ quoteChars s'
      else if (c =? 10)%N then [92; 110]%N ++ quoteChars s'
      else if (c =? 12)%N then [92; 102]%N ++ quoteChars s'
      else if (c =? 13)%N then [92; 114]%N ++ quoteChars s'
      else if (c =? 34)%N then [92; 34]%N ++ quoteChars s'
      else if (c =? 92)%N then [92; 92]%N ++ quoteChars s'
      else if (c <? 32)%N then unicodeEscape c ++ quoteChars s'
      else if isHighSurrogate c then
        match s' with
        | c2 :: s'' =>
            if isLowSurrogate c2 then c :: c2 :: quoteChars s''
            else unicodeEscape c ++ quoteChars s'
        | [] => unicodeEscape c
        end
      else if isLowSurrogate c then unicodeEscape c ++ quoteChars s'
      else c :: quoteChars s'
  end.

Definition quote (s : jsstring) : jsstring := 34%N :: quoteChars s ++ [34%N].

Fixpoint joinWith (sep : jsstring) (l : list jsstring) : jsstring :=
  match l with
  | [] => []
  | [x] => x
  | x :: l' => x ++ sep ++ joinWith sep l'
  end.

(** SerializeJSONProperty with no replacer and no indentation; [None] is
    the [undefined] result. *)
Fixpoint serialize (v : value) : option jsstring :=
  match v with
  | VUndefined => None
  | VNull => Some (str "null")
  | VBool true => Some (str "true")
  | VBool false => Some (str "false")
  | VNum NaN => Some (str "null")
  | VNum n => Some (numberToString n)
  | VStr s => Some (quote s)
  | VArr items =>
      Some (str "[" ++
            joinWith (str ",")
              (map (fun x => match serialize x with
                             | Some t => t
                             | None => str "null"
                             end) items) ++
            str "]")
  | VObj props =>
      Some (str "{" ++
            joinWith (str ",")
              (flat_map (fun kv => match serialize (snd kv) with
                                   | Some t => [quote (fst kv) ++ str ":" ++ t]
                                   | None => []
                                   end) props) ++
            str "}")
  end.

(** The text [localStorage.setItem(key, JSON.stringify(v))] stores: an
    [undefined] result is stored as the text undefined. *)
Definition JSON_stringify (v : value) : jsstring :=
  match serialize v with
  | Some t => t
  | None => str "undefined"
  end.

End JSON.

Export JSON.

(* ================================================================== *)
(** * The value of a range input                                       *)
(* ================================================================== *)

Module Dom.

(** The fractional part of a valid floating-point number of HTML: a point
    followed by one digit at least, or nothing.  Its digits, their count,
    the rest. *)
Definition fraction (s : jsstring) : option (Z * N * jsstring) :=
  match s with
  | c :: r =>
      if (c =? 46)%N then
        let '(f, n, r') := parse_digits r 0 0 in
        if (n =? 0)%N then None else Some (f, n, r')
      else Some (0%Z, 0%N, s)
  | [] => Some (0%Z, 0%N, s)
  end.

(** The exponent: the letter e or E, a sign or none, one digit at least;
    or nothing. *)
Definition exponent (s : jsstring) : option (Z * jsstring) :=
  match s with
  | c :: r =>
      if ((c =? 101) || (c =? 69))%N then
        let '(sign, r1) :=
          match r with
          | x :: r' =>
              if (x =? 45)%N then ((-1)%Z, r')
              else if (x =? 43)%N then (1%Z, r')
              else (1%Z, r)
          | [] => (1%Z, r)
          end in
        let '(e, n, r2) := parse_digits r1 0 0 in
        if (n =? 0)%N then None else Some ((sign * e)%Z, r2)
      else Some (0%Z, s)
  | [] => Some (0%Z, s)
  end.

(** The number a valid floating-point number denotes, as a numerator and
    a positive denominator; [None] for any other text.  The number is
    kept exactly; a double differs from it only from the 16th significant
    digit on. *)
Definition floatingPoint (s : jsstring) : option (Z * Z) :=
  let '(negative, s1) := parse_minus s in
  let '(ip, ni, s2) := parse_digits s1 0 0 in
  match fraction s2 with
  | None => None
  | Some (fp, nf, s3) =>
      if ((ni =? 0) && (nf =? 0))%N then None
      else
        match exponent s3 with
        | Some (e, []) =>
            let mantissa :=
              ((if negative then -1 else 1) * (ip * 10 ^ Z.of_N nf + fp))%Z in
            let e' := (e - Z.of_N nf)%Z in
            Some (if (0 <=? e')%Z then ((mantissa * 10 ^ e')%Z, 1%Z)
                  else (mantissa, (10 ^ (- e'))%Z))
        | _ => None
        end
  end.

(** The integer nearest to [n / d], the larger one of two. *)
Definition roundHalfUp (n d : Z) : Z := ((2 * n + d) / (2 * d))%Z.

(** The default value of a range input: the middle of its range. *)
Definition rangeDefault (lo hi : Z) : Z :=
  if (hi <? lo)%Z then lo else roundHalfUp (lo + hi) 2.

(** The value sanitization of [input type=range] with the bounds [lo] and
    [hi] and the step 1: the value the element holds once [text] has been
    assigned to it, or once the user has asked for the position [text].
    A text that is no number gives the default; a number below the
    minimum gives the minimum, one above the maximum the maximum, and any
    other one the nearest step. *)
Definition rangeValue (lo hi : Z) (text : jsstring) : jsstring :=
  numberToString
    (Int match floatingPoint text with
         | Some (n, d) =>
             if (n <? lo * d)%Z then lo
             else if ((lo <=? hi) && (hi * d <? n))%Z then hi
             else roundHalfUp n d
         | None => rangeDefault lo hi
         end).

End Dom.
Export Dom.

(* ================================================================== *)
(** * Handlers as state transformers that may raise                    *)
(* ================================================================== *)

Module Eff.

(** A computation over a page state [S]: its result or the error it
    raised, and the state it left (what was assigned before a [throw]
    stays assigned). *)
Definition M (S A : Type) : Type := S -> (error + A) * S.

Definition ret {S A} (a : A) : M S A := fun st => (inr a, st).

Definition bind {S A B} (c : M S A) (k : A -> M S B) : M S B :=
  fun st =>
    match c st with
    | (inr a, st') => k a st'
    | (inl e, st') => (inl e, st')
    end.

Definition throw {S A} (e : error) : M S A := fun st => (inl e, st).

(** A pure step that may raise. *)
Definition lift {S A} (r : error + A) : M S A := fun st => (r, st).

Definition gets {S A} (f : S -> A) : M S A := fun st => (inr (f st), st).

Definition modify {S} (f : S -> S) : M S unit := fun st => (inr tt, f st).

(** [try { c } catch (e) { console.error(e) }] *)
Definition try_catch {S} (c : M S unit) : M S unit :=
  fun st => (inr tt, snd (c st)).

Definition when {S} (b : bool) (c : M S unit) : M S unit :=
  if b then c else ret tt.

(** The state a handler leaves. *)
Definition exec {S A} (c : M S A) (st : S) : S := snd (c st).

(** Whatever [c] does, the state it leaves is related by [P] to the one
    it started from. *)
Definition preserves {S A} (P : S -> S -> Prop) (c : M S A) : Prop :=
  forall st, P st (snd (c st)).

End Eff.
Import Eff.

Declare Scope eff_scope.
Delimit Scope eff_scope with eff.
Notation "x <- c ;; k" := (bind c (fun x => k))
  (at level 61, c at next level, right associativity) : eff_scope.
Notation "c ;; k" := (bind c (fun _ => k))
  (at level 61, right associativity) : eff_scope.

(** The same sequencing for pure steps that may raise. *)
Definition and_then {A B} (r : error + A) (k : A -> error + B) : error + B :=
  match r with
  | inr a => k a
  | inl e => inl e
  end.

(** The text of one playlist item; both scripts build it with the same
    template in their [updatePlaylistUI]: title, space, hyphen, space,
    author. *)
Definition entryLabel (video : value) : error + jsstring :=
  and_then (get video "title") (fun title =>
  and_then (toString title) (fun t =>
  and_then (get video "author") (fun author =>
  and_then (toString author) (fun a =>
  inr (t ++ str " - " ++ a))))).

(** A string in a condition: the empty string is false. *)
Definition nonEmpty (s : jsstring) : bool :=
  match s with [] => false | _ => true end.

(* ================================================================== *)
(** * The controller page: overlay.js                                  *)
(* ================================================================== *)

Module Controller.

(** ** The playback capability (the YouTube iframe player)

    The player is external: the page only issues calls to it.  The model
    records the calls in order and the mute flag that [mute], [unMute] and
    [isMuted] share. *)
Inductive playerCall : Type :=
| LoadVideoById (id : value)
| PlayVideo
| PauseVideo
| SetVolume (v : number)
| Mute
| UnMute.

Record Player : Type := mkPlayer {
  calls : list playerCall;
  muted : bool;                       (* player.isMuted() *)
  videoData : error + value           (* what player.getVideoData() yields now *)
}.

(** YT.PlayerState *)
Inductive playerState : Type :=
| UNSTARTED | ENDED | PLAYING | PAUSED | BUFFERING | CUED.

Definition playerState_eqb (a b : playerState) : bool :=
  match a, b with
  | UNSTARTED, UNSTARTED | ENDED, ENDED | PLAYING, PLAYING
  | PAUSED, PAUSED | BUFFERING, BUFFERING | CUED, CUED => true
  | _, _ => false
  end.

(** ** localStorage: the three keys the page uses *)
Record Storage : Type := mkStorage {
  youtubePlaylist : option jsstring;       (* key youtubePlaylist *)
  currentIndexItem : option jsstring;      (* key currentIndex *)
  youtubePlayerVolume : option jsstring    (* key youtubePlayerVolume *)
}.

(** ** The page: its globals and the parts of the document it writes

    The elements the script looks up by id (video-url, volume-slider,
    volume-value, song-info, playlist-items) are taken to be in the
    document, as they are in the page the script ships with. *)
Record State : Type := mkState {
  playlist : list value;          (* let playlist = [] *)
  currentIndex : number;          (* let currentIndex = 0 *)
  currentVideoId : value;         (* let currentVideoId = '' *)
  player : Player;
  storage : Storage;
  videoUrl : jsstring;            (* value of input video-url *)
  volumeSlider : jsstring;        (* value of volume-slider, a range input *)
  volumeValue : jsstring;         (* text of volume-value *)
  songInfo : jsstring;            (* text of song-info *)
  playlistItems : list jsstring;  (* texts of the li children of playlist-items *)
  alerts : list jsstring;         (* alert() dialogs shown *)
  polling : nat                   (* live 3-second intervals *)
}.

Definition set_playlist (x : list value) (st : State) : State :=
  mkState x (currentIndex st) (currentVideoId st) (player st) (storage st)
    (videoUrl st) (volumeSlider st) (volumeValue st) (songInfo st)
    (playlistItems st) (alerts st) (polling st).
Definition set_currentIndex (x : number) (st : State) : State :=
  mkState (playlist st) x (currentVideoId st) (player st) (storage st)
    (videoUrl st) (volumeSlider st) (volumeValue st) (songInfo st)
    (playlistItems st) (alerts st) (polling st).
Definition set_currentVideoId (x : value) (st : State) : State :=
  mkState (playlist st) (currentIndex st) x (player st) (storage st)
    (videoUrl st) (volumeSlider st) (volumeValue st) (songInfo st)
    (playlistItems st) (alerts st) (polling st).
Definition set_player (x : Player) (st : State) : State :=
  mkState (playlist st) (currentIndex st) (currentVideoId st) x (storage st)
    (videoUrl st) (volumeSlider st) (volumeValue st) (songInfo st)
    (playlistItems st) (alerts st) (polling st).
Definition set_storage (x : Storage) (st : State) : State :=
  mkState (playlist st) (currentIndex st) (currentVideoId st) (player st) x
    (videoUrl st) (volumeSlider st) (volumeValue st) (songInfo st)
    (playlistItems st) (alerts st) (polling st).
Definition set_videoUrl (x : jsstring) (st : State) : State :=
  mkState (playlist st) (currentIndex st) (currentVideoId st) (player st) (storage st)
    x (volumeSlider st) (volumeValue st) (songInfo st)
    (playlistItems st) (alerts st) (polling st).
Definition set_volumeSlider (x : jsstring) (st : State) : State :=
  mkState (playlist st) (currentIndex st) (currentVideoId st) (player st) (storage st)
    (videoUrl st) x (volumeValue st) (songInfo st)
    (playlistItems st) (alerts st) (polling st).
Definition set_volumeValue (x : jsstring) (st : State) : State :=
  mkState (playlist st) (currentIndex st) (currentVideoId st) (player st) (storage st)
    (videoUrl st) (volumeSlider st) x (songInfo st)
    (playlistItems st) (alerts st) (polling st).
Definition set_songInfo (x : jsstring) (st : State) : State :=
  mkState (playlist st) (currentIndex st) (currentVideoId st) (player st) (storage st)
    (videoUrl st) (volumeSlider st) (volumeValue st) x
    (playlistItems st) (alerts st) (polling st).
Definition set_playlistItems (x : list jsstring) (st : State) : State :=
  mkState (playlist st) (currentIndex st) (currentVideoId st) (player st) (storage st)
    (videoUrl st) (volumeSlider st) (volumeValue st) (songInfo st)
    x (alerts st) (polling st).
Definition set_alerts (x : list jsstring) (st : State) : State :=
  mkState (playlist st) (currentIndex st) (currentVideoId st) (player st) (storage st)
    (videoUrl st) (volumeSlider st) (volumeValue st) (songInfo st)
    (playlistItems st) x (polling st).
Definition set_polling (x : nat) (st : State) : State :=
  mkState (playlist st) (currentIndex st) (currentVideoId st) (player st) (storage st)
    (videoUrl st) (volumeSlider st) (volumeValue st) (songInfo st)
    (playlistItems st) (alerts st) x.

(** The page as the script's first lines leave it, over a given store and
    player. *)
(** Modelled from the spec: the bounds of [volume-slider].  The markup
    that declares the slider is not part of the source; the style sheets
    show it is an input of type range, and the spec gives the volume the
    range 0 to 100, which is also what a range input has when the markup
    names no bounds. *)
Definition sliderMin : Z := 0.

(** Modelled from the spec: the upper bound of [volume-slider], as for
    [sliderMin]. *)
Definition sliderMax : Z := 100.

(** The page when the script starts; the slider is in the middle of its
    range. *)
Definition initial (sto : Storage) (p : Player) : State :=
  mkState [] (Int 0) (VStr []) p sto [] (rangeValue sliderMin sliderMax []) [] [] [] [] 0.

Local Open Scope eff_scope.

(** A call on the player; [mute] and [unMute] also move its flag. *)
Definition call (c : playerCall) : M State unit :=
  modify (fun st =>
    let p := player st in
    set_player
      (mkPlayer (calls p ++ [c])
         (match c with Mute => true | UnMute => false | _ => muted p end)
         (videoData p)) st).

Definition setItem_youtubePlaylist (x : jsstring) : M State unit :=
  modify (fun st =>
    let s := storage st in
    set_storage (mkStorage (Some x) (currentIndexItem s) (youtubePlayerVolume s)) st).
Definition setItem_currentIndex (x : jsstring) : M State unit :=
  modify (fun st =>
    let s := storage st in
    set_storage (mkStorage (youtubePlaylist s) (Some x) (youtubePlayerVolume s)) st).
Definition setItem_youtubePlayerVolume (x : jsstring) : M State unit :=
  modify (fun st =>
    let s := storage st in
    set_storage (mkStorage (youtubePlaylist s) (currentIndexItem s) (Some x)) st).

(** ** extractVideoId *)

(** The six markers of the pattern of [extractVideoId] (its group 1).  In
    the first one the dot is the wildcard, as written in the source. *)
Definition marker : Regex.re :=
  Regex.Alt (Regex.Seq (Regex.chars "youtu")
               (Regex.Seq (Regex.Chr Regex.Any) (Regex.chars "be/")))
 (Regex.Alt (Regex.chars "v/")
 (Regex.Alt (Regex.Seq (Regex.chars "u/")
               (Regex.Seq (Regex.Chr Regex.Word) (Regex.chars "/")))
 (Regex.Alt (Regex.chars "embed/")
 (Regex.Alt (Regex.chars "watch?v=")
            (Regex.chars "&v="))))).

(** The part of the pattern after the leading run of any characters. *)
Definition afterPrefix : Regex.re :=
  Regex.Seq (Regex.Group 1 marker)
 (Regex.Seq (Regex.Group 2 (Regex.Star (Regex.NoneOf (str "#&?"))))
            (Regex.Star Regex.Any)).

(** The pattern: start of input, any characters, a marker (group 1), a
    run free of number sign, ampersand and question mark (group 2), any
    characters. *)
Definition regExp : Regex.re := Regex.Seq (Regex.Star Regex.Any) afterPrefix.

(** [extractVideoId(url)]; [None] is the [null] result. *)
Definition extractVideoId (url : jsstring) : option jsstring :=
  let match_ := Regex.exec regExp url in
  match match_ with
  | Some caps =>
      match Regex.capture 2 caps with
      | Some g2 =>
          if (length g2 =? 11)%nat then Some g2
          else if (length url =? 11)%nat then Some url
          else None
      | None => if (length url =? 11)%nat then Some url else None
      end
  | None => if (length url =? 11)%nat then Some url else None
  end.

(** ** The playlist and its view *)

Fixpoint renderItems (items : list value) : M State unit :=
  match items with
  | [] => ret tt
  | video :: rest =>
      label <- lift (entryLabel video) ;;
      modify (fun st => set_playlistItems (playlistItems st ++ [label]) st) ;;
      renderItems rest
  end.

(** [updatePlaylistUI()]: empty the list element, then one item per
    entry.  The class that marks the active item is presentation only. *)
Definition updatePlaylistUI : M State unit :=
  modify (set_playlistItems []) ;;
  items <- gets playlist ;;
  renderItems items.

(** [loadVideo(index)] *)
Definition loadVideo (index : number) : M State unit :=
  items <- gets playlist ;;
  if num_ge index (Int 0) && num_lt index (Int (Z.of_nat (length items))) then
    modify (set_currentIndex index) ;;
    id <- lift (get (elementAt items index) "id") ;;
    modify (set_currentVideoId id) ;;
    call (LoadVideoById id) ;;
    updatePlaylistUI
  else ret tt.

(** [playNextVideo()] *)
Definition playNextVideo : M State unit :=
  items <- gets playlist ;;
  if (length items =? 0)%nat then ret tt
  else
    modify (fun st =>
      set_currentIndex
        (num_rem (num_add (currentIndex st) (Int 1)) (Int (Z.of_nat (length items)))) st) ;;
    i <- gets currentIndex ;;
    loadVideo i.

(** [playPreviousVideo()] *)
Definition playPreviousVideo : M State unit :=
  items <- gets playlist ;;
  if (length items =? 0)%nat then ret tt
  else
    modify (fun st =>
      set_currentIndex
        (num_rem
           (num_add (num_sub (currentIndex st) (Int 1)) (Int (Z.of_nat (length items))))
           (Int (Z.of_nat (length items)))) st) ;;
    i <- gets currentIndex ;;
    loadVideo i.

(** [savePlaylistToStorage()] *)
Definition savePlaylistToStorage : M State unit :=
  items <- gets playlist ;;
  setItem_youtubePlaylist (JSON_stringify (VArr items)) ;;
  i <- gets currentIndex ;;
  setItem_currentIndex (numberToString i).

(** The object literal [{ id, title, author }]. *)
Definition track (id title author : value) : value :=
  VObj [(str "id", id); (str "title", title); (str "author", author)].

(** [addToPlaylist(videoId, title, author)] *)
Definition addToPlaylist (videoId title author : value) : M State unit :=
  modify (fun st => set_playlist (playlist st ++ [track videoId title author]) st) ;;
  updatePlaylistUI ;;
  savePlaylistToStorage.

(** [addVideoToPlaylist()]: the click handler of the add button. *)
Definition addVideoToPlaylist : M State unit :=
  input <- gets videoUrl ;;
  let url := trim input in
  match url with
  | [] => ret tt
  | _ =>
      match extractVideoId url with
      | None =>
          modify (fun st => set_alerts (alerts st ++ [str "Invalid YouTube URL or ID"]) st)
      | Some [] =>
          modify (fun st => set_alerts (alerts st ++ [str "Invalid YouTube URL or ID"]) st)
      | Some videoId =>
          addToPlaylist (VStr videoId) (VStr (str "Loading...")) (VStr (str "Loading...")) ;;
          modify (set_videoUrl []) ;;
          items <- gets playlist ;;
          when (length items =? 1)%nat (loadVideo (Int 0))
      end
  end.

(** [addVideoToPlaylistById(videoId)] *)
Definition addVideoToPlaylistById (videoId : jsstring) : M State unit :=
  addToPlaylist (VStr videoId) (VStr (str "Loading...")) (VStr (str "Loading...")) ;;
  loadVideo (Int 0).

(** [a || b] *)
Definition or_else (a b : value) : value := if truthy a then a else b.

(** [entry.k = v] in a classic (non-strict) script: an object gets or
    updates the property; on a primitive the assignment is dropped.  An
    array entry would get a named property next to its elements, which
    [value] cannot hold: it is left as it is (such an entry only comes
    from a stored record the page did not write). *)
Definition assign (entry : value) (k : string) (v : value) : value :=
  match entry with
  | VObj props => VObj (define props (str k) v)
  | _ => entry
  end.

Fixpoint replaceAt {A} (n : nat) (x : A) (l : list A) : list A :=
  match l, n with
  | [], _ => []
  | _ :: l', O => x :: l'
  | y :: l', S n' => y :: replaceAt n' x l'
  end.

(** [updateMarquee()]: the whole body runs inside try/catch. *)
Definition updateMarquee : M State unit :=
  try_catch (
    p <- gets player ;;
    data <- lift (videoData p) ;;
    title <- lift (get data "title") ;;
    let videoTitle := or_else title (VStr (str "Unknown Title")) in
    au <- lift (get data "author") ;;
    let author := or_else au (VStr (str "Unknown Artist")) in
    t <- lift (toString videoTitle) ;;
    a <- lift (toString author) ;;
    modify (set_songInfo (str "Now Playing: " ++ t ++ str " by " ++ a)) ;;
    items <- gets playlist ;;
    i <- gets currentIndex ;;
    when (truthy (elementAt items i))
      (match i with
       | Num z 0%N =>
           let entry := assign (assign (elementAt items i) "title" videoTitle)
                          "author" author in
           modify (set_playlist (replaceAt (Z.to_nat z) entry items))
       | _ => ret tt
       end ;;
       updatePlaylistUI ;;
       savePlaylistToStorage)).

(** [onPlayerStateChange(event)], [data] being [event.data]. *)
Definition onPlayerStateChange (data : playerState) : M State unit :=
  when (playerState_eqb data PLAYING)
    (updateMarquee ;;
     modify (fun st => set_polling (S (polling st)) st)) ;;
  when (playerState_eqb data ENDED) playNextVideo.

(** One firing of a 3-second interval set by [onPlayerStateChange];
    [now] is what [player.getPlayerState()] answers. *)
Definition intervalTick (now : playerState) : M State unit :=
  if playerState_eqb now PLAYING then updateMarquee
  else modify (fun st => set_polling (pred (polling st)) st).

(** ** Volume *)

(** [volumeSlider.value = text]: the slider, a range input, holds what
    its value sanitization makes of the text. *)
Definition assignSlider (text : jsstring) : M State unit :=
  modify (set_volumeSlider (rangeValue sliderMin sliderMax text)).

(** The input handler of the volume slider; [this.value] is the value the
    slider holds. *)
Definition onVolumeInput : M State unit :=
  volume <- gets volumeSlider ;;
  modify (set_volumeValue volume) ;;
  call (SetVolume (parseInt volume)) ;;
  setItem_youtubePlayerVolume volume ;;
  if num_eqb (parseInt volume) (Int 0) then call Mute
  else
    p <- gets player ;;
    when (muted p) (call UnMute).

(** The slider is asked for the position [v], by the user or by a
    script: it takes the value its range allows, and the input event
    fires. *)
Definition slideVolume (v : jsstring) : M State unit :=
  assignSlider v ;;
  onVolumeInput.

(** ** Restoring the playlist *)

(** A handler whose exception nothing catches: the error is all that is
    left of the call. *)
Definition uncaught (c : M State unit) (st : State) : error + State :=
  match c st with
  | (inr _, st') => inr st'
  | (inl e, _) => inl e
  end.

(** The first block of [loadPlaylistFromStorage]: a stored volume goes
    to the slider, to its label and to the player, muted when it is 0.
    The volume elements exist and the player is ready (it is the player
    that calls [onPlayerReady]). *)
Definition restoreVolume : M State unit :=
  sto <- gets storage ;;
  match youtubePlayerVolume sto with
  | Some v =>
      assignSlider v ;;
      modify (set_volumeValue v) ;;
      call (SetVolume (parseInt v)) ;;
      if num_eqb (parseInt v) (Int 0) then call Mute else call UnMute
  | None => ret tt
  end.

(** [loadPlaylistFromStorage()].  It runs first in [onPlayerReady] and
    nothing catches what it raises, so an error ends the set-up of the
    page: no state is returned then.  A parsed record that is not an array
    is assigned to [playlist], and the [playlist.forEach] of
    [updatePlaylistUI] raises at once. *)
Definition loadPlaylistFromStorage (st : State) : error + State :=
  let savedPlaylist := youtubePlaylist (storage st) in
  let savedIndex := currentIndexItem (storage st) in
  let st1 := exec restoreVolume st in
  match savedPlaylist with
  | Some text =>
      if nonEmpty text then
        match JSON_parse text with
        | inl e => inl e
        | inr (VArr items) =>
            let index :=
              match savedIndex with
              | Some i => if nonEmpty i then parseInt i else Int 0
              | None => Int 0
              end in
            uncaught
              (modify (set_playlist items) ;;
               modify (set_currentIndex index) ;;
               updatePlaylistUI ;;
               when (0 <? length items)%nat (loadVideo index)) st1
        | inr _ => inl TypeError
        end
      else inr st1
  | None => inr st1
  end.

(** [onPlayerReady(event)]; [autostart] and [video] are the two URL
    parameters ([None] when absent).  Wiring the buttons changes no
    state. *)
Definition onPlayerReady (autostart video : option jsstring) (st : State)
    : error + State :=
  and_then (loadPlaylistFromStorage st) (fun st1 =>
  let st2 :=
    match youtubePlayerVolume (storage st1) with
    | Some v =>
        exec (assignSlider v ;;
              modify (set_volumeValue v) ;;
              call (SetVolume (parseInt v))) st1
    | None =>
        exec (assignSlider (str "50") ;;
              modify (set_volumeValue (str "50")) ;;
              call (SetVolume (Int 50))) st1
    end in
  match autostart, video with
  | Some a, Some (c :: v) =>
      if str_eqb a (str "true") then uncaught (addVideoToPlaylistById (c :: v)) st2
      else inr st2
  | _, _ => inr st2
  end).

End Controller.

(* ================================================================== *)
(** * The display page: the WebSocket script                           *)
(* ================================================================== *)

Module Display.

(** WebSocket.readyState *)
Inductive readyState : Type :=
| CONNECTING | OPEN | CLOSING | CLOSED.

(** What a pending [setTimeout] will run. *)
Inductive timer : Type :=
| RequestAgain          (* the 2-second check set in onopen *)
| Reconnect             (* connectWebSocket *)
| RestartAnimation.     (* the 10 ms step of restartMarqueeAnimation *)

Definition timer_eqb (a b : timer) : bool :=
  match a, b with
  | RequestAgain, RequestAgain | Reconnect, Reconnect
  | RestartAnimation, RestartAnimation => true
  | _, _ => false
  end.

(** localStorage: the two keys the display uses. *)
Record Storage : Type := mkStorage {
  youtubePlaylist : option jsstring;
  currentIndexItem : option jsstring
}.

(** The page: its globals, the parts of the document it writes, the
    frames it sent on the socket that [socket] names, and its pending
    timeouts (delay in milliseconds, kept exactly). *)
Record State : Type := mkState {
  playlist : value;               (* let playlist = [] *)
  currentIndex : value;           (* let currentIndex = 0 *)
  socket : option readyState;     (* let socket = null *)
  reconnectAttempts : Z;          (* let reconnectAttempts = 0 *)
  songInfo : jsstring;            (* text of song-info *)
  playlistItems : list jsstring;  (* texts of the li children of playlist-items *)
  volumeSlider : jsstring;        (* value last assigned to volume-slider *)
  volumeValue : jsstring;         (* text of volume-value *)
  storage : Storage;
  sent : list jsstring;           (* frames given to socket.send while open *)
  timers : list (Q * timer);      (* pending setTimeout calls, oldest first *)
  discoveries : nat               (* calls of autoReconnectWebSocket *)
}.

Definition set_playlist (x : value) (st : State) : State :=
  mkState x (currentIndex st) (socket st) (reconnectAttempts st) (songInfo st)
    (playlistItems st) (volumeSlider st) (volumeValue st) (storage st) (sent st)
    (timers st) (discoveries st).
Definition set_currentIndex (x : value) (st : State) : State :=
  mkState (playlist st) x (socket st) (reconnectAttempts st) (songInfo st)
    (playlistItems st) (volumeSlider st) (volumeValue st) (storage st) (sent st)
    (timers st) (discoveries st).
Definition set_socket (x : option readyState) (st : State) : State :=
  mkState (playlist st) (currentIndex st) x (reconnectAttempts st) (songInfo st)
    (playlistItems st) (volumeSlider st) (volumeValue st) (storage st) (sent st)
    (timers st) (discoveries st).
Definition set_reconnectAttempts (x : Z) (st : State) : State :=
  mkState (playlist st) (currentIndex st) (socket st) x (songInfo st)
    (playlistItems st) (volumeSlider st) (volumeValue st) (storage st) (sent st)
    (timers st) (discoveries st).
Definition set_songInfo (x : jsstring) (st : State) : State :=
  mkState (playlist st) (currentIndex st) (socket st) (reconnectAttempts st) x
    (playlistItems st) (volumeSlider st) (volumeValue st) (storage st) (sent st)
    (timers st) (discoveries st).
Definition set_playlistItems (x : list jsstring) (st : State) : State :=
  mkState (playlist st) (currentIndex st) (socket st) (reconnectAttempts st) (songInfo st)
    x (volumeSlider st) (volumeValue st) (storage st) (sent st)
    (timers st) (discoveries st).
Definition set_volumeSlider (x : jsstring) (st : State) : State :=
  mkState (playlist st) (currentIndex st) (socket st) (reconnectAttempts st) (songInfo st)
    (playlistItems st) x (volumeValue st) (storage st) (sent st)
    (timers st) (discoveries st).
Definition set_volumeValue (x : jsstring) (st : State) : State :=
  mkState (playlist st) (currentIndex st) (socket st) (reconnectAttempts st) (songInfo st)
    (playlistItems st) (volumeSlider st) x (storage st) (sent st)
    (timers st) (discoveries st).
Definition set_storage (x : Storage) (st : State) : State :=
  mkState (playlist st) (currentIndex st) (socket st) (reconnectAttempts st) (songInfo st)
    (playlistItems st) (volumeSlider st) (volumeValue st) x (sent st)
    (timers st) (discoveries st).
Definition set_sent (x : list jsstring) (st : State) : State :=
  mkState (playlist st) (currentIndex st) (socket st) (reconnectAttempts st) (songInfo st)
    (playlistItems st) (volumeSlider st) (volumeValue st) (storage st) x
    (timers st) (discoveries st).
Definition set_timers (x : list (Q * timer)) (st : State) : State :=
  mkState (playlist st) (currentIndex st) (socket st) (reconnectAttempts st) (songInfo st)
    (playlistItems st) (volumeSlider st) (volumeValue st) (storage st) (sent st)
    x (discoveries st).
Definition set_discoveries (x : nat) (st : State) : State :=
  mkState (playlist st) (currentIndex st) (socket st) (reconnectAttempts st) (songInfo st)
    (playlistItems st) (volumeSlider st) (volumeValue st) (storage st) (sent st)
    (timers st) x.

(** The page as the script's first lines leave it. *)
Definition initial (sto : Storage) : State :=
  mkState (VArr []) (VNum (Int 0)) None 0 [] [] [] [] sto [] [] 0.

(** What the document and the other scripts of the page provide; the
    markup and server-helper.js are not part of the script. *)
Record Page : Type := mkPage {
  hasPlaylistElement : bool;   (* getElementById('playlist-items') is not null *)
  hasVolumeControls : bool;    (* volume-slider and volume-value exist *)
  hasAutoReconnect : bool;     (* typeof autoReconnectWebSocket === 'function' *)
  socketCreated : bool         (* new WebSocket(url) returns rather than raises *)
}.

Local Open Scope eff_scope.

Definition connectedText : jsstring := str "Connected to music player...".
Definition waitingText : jsstring := str "Waiting for connection to music player...".
Definition failedText : jsstring := str "Failed to connect to music player".

(** [JSON.stringify({ command: name })] *)
Definition commandFrame (name : string) : jsstring :=
  JSON_stringify (VObj [(str "command", VStr (str name))]).

(** [setTimeout(f, delay)] *)
Definition setTimeout (f : timer) (delay : Q) : M State unit :=
  modify (fun st => set_timers (timers st ++ [(delay, f)]) st).

(** [socket.send(frame)]: queued when the socket is open, InvalidStateError
    while it is connecting, dropped once it is closing or closed; TypeError
    on the initial [null]. *)
Definition send (frame : jsstring) : M State unit :=
  s <- gets socket ;;
  match s with
  | None => throw TypeError
  | Some CONNECTING => throw InvalidStateError
  | Some OPEN => modify (fun st => set_sent (sent st ++ [frame]) st)
  | Some _ => ret tt
  end.

(** [socket && socket.readyState === WebSocket.OPEN] *)
Definition isOpen (st : State) : bool :=
  match socket st with
  | Some OPEN => true
  | _ => false
  end.

Section WithPage.

Variable page : Page.

Fixpoint renderItems (items : list value) : M State unit :=
  match items with
  | [] => ret tt
  | video :: rest =>
      label <- lift (entryLabel video) ;;
      modify (fun st => set_playlistItems (playlistItems st ++ [label]) st) ;;
      renderItems rest
  end.

(** [updatePlaylistUI()]: nothing without the list element; otherwise
    [playlist.forEach], which only an array has. *)
Definition updatePlaylistUI : M State unit :=
  if negb (hasPlaylistElement page) then ret tt
  else
    modify (set_playlistItems []) ;;
    pl <- gets playlist ;;
    match pl with
    | VArr items => renderItems items
    | _ => throw TypeError
    end.

(** [x.toString()] on a global: no method on [null] or [undefined]. *)
Definition methodToString (v : value) : error + jsstring :=
  match v with
  | VUndefined | VNull => inl TypeError
  | _ => toString v
  end.

(** [savePlaylistToStorage()] *)
Definition savePlaylistToStorage : M State unit :=
  pl <- gets playlist ;;
  modify (fun st =>
    set_storage (mkStorage (Some (JSON_stringify pl)) (currentIndexItem (storage st))) st) ;;
  ci <- gets currentIndex ;;
  text <- lift (methodToString ci) ;;
  modify (fun st =>
    set_storage (mkStorage (youtubePlaylist (storage st)) (Some text)) st).

(** [loadPlaylistFromStorage()] *)
Definition loadPlaylistFromStorage : M State unit :=
  sto <- gets storage ;;
  match youtubePlaylist sto with
  | Some text =>
      when (nonEmpty text)
        (pl <- lift (JSON_parse text) ;;
         modify (set_playlist pl) ;;
         modify (set_currentIndex
                   (VNum (match currentIndexItem sto with
                          | Some i => if nonEmpty i then parseInt i else Int 0
                          | None => Int 0
                          end))) ;;
         updatePlaylistUI)
  | None => ret tt
  end.

(** [restartMarqueeAnimation()] *)
Definition restartMarqueeAnimation : M State unit :=
  setTimeout RestartAnimation 10.

(** A value assigned to [input.value] or to [textContent]: [null] gives
    the empty string, anything else is converted with ToString. *)
Definition domString (v : value) : error + jsstring :=
  match v with
  | VNull => inr []
  | _ => toString v
  end.

(** [v === "name"] *)
Definition isString (v : value) (name : string) : bool :=
  match v with
  | VStr s => str_eqb s (str name)
  | _ => false
  end.

(** [v !== undefined] *)
Definition defined (v : value) : bool :=
  match v with
  | VUndefined => false
  | _ => true
  end.

(** The marquee text for a title and an author. *)
Definition showNowPlaying (videoTitle author : value) : M State unit :=
  t <- lift (toString videoTitle) ;;
  a <- lift (toString author) ;;
  modify (set_songInfo (str "Now Playing: " ++ t ++ str " by " ++ a)).

(** The part of [updateSongInfo] that handles a message wrapped as
    command and params; the result tells whether it returned from the
    function. *)
Definition wrapped (data command : value) : M State bool :=
  params <- lift (get data "params") ;;
  if truthy command && truthy params then
    if isString command "nowPlaying" && truthy params then
      title <- lift (get params "title") ;;
      author <- lift (get params "author") ;;
      if truthy title && truthy author then
        showNowPlaying title author ;;
        pl <- lift (get params "playlist") ;;
        when (truthy pl)
          (modify (set_playlist pl) ;;
           ci <- lift (get params "currentIndex") ;;
           modify (fun st => set_currentIndex (if defined ci then ci else currentIndex st) st) ;;
           updatePlaylistUI) ;;
        restartMarqueeAnimation ;;
        savePlaylistToStorage ;;
        ret true
      else ret false
    else ret false
  else ret false.

(** The last part of [updateSongInfo]: the song fields directly on the
    message. *)
Definition direct (data : value) : M State unit :=
  title <- lift (get data "title") ;;
  author <- lift (get data "author") ;;
  when (truthy title && truthy author)
    (showNowPlaying title author ;;
     pl <- lift (get data "playlist") ;;
     ci <- lift (get data "currentIndex") ;;
     when (truthy pl && defined ci)
       (modify (set_playlist pl) ;;
        modify (set_currentIndex ci) ;;
        updatePlaylistUI) ;;
     restartMarqueeAnimation ;;
     savePlaylistToStorage).

(** [updateSongInfo(data)].  The debug panel it first appends to is
    display only and is left out. *)
Definition updateSongInfo (data : value) : M State unit :=
  command <- lift (get data "command") ;;
  if isString command "pong" then ret tt
  else
    value <- lift (get data "value") ;;
    if isString command "volumeUpdate" && defined value then
      when (hasVolumeControls page)
        (text <- lift (domString value) ;;
         modify (set_volumeSlider text) ;;
         modify (set_volumeValue text))
    else
      returned <- wrapped data command ;;
      if returned then ret tt else direct data.

(** [socket.onmessage]: parse the frame and update, errors are logged. *)
Definition onmessage (frame : jsstring) : M State unit :=
  try_catch (
    data <- lift (JSON_parse frame) ;;
    updateSongInfo data).

(** [connectWebSocket()] *)
Definition connectWebSocket : M State unit :=
  if socketCreated page then modify (set_socket (Some CONNECTING))
  else
    modify (set_songInfo failedText) ;;
    setTimeout Reconnect 5000.

(** The callback of the 2-second timeout set in [onopen]. *)
Definition requestAgain : M State unit :=
  text <- gets songInfo ;;
  when (str_eqb text connectedText)
    (st <- gets (fun st => st) ;;
     when (isOpen st) (send (commandFrame "requestCurrentSongInfo"))).

(** [socket.onopen] *)
Definition onopen : M State unit :=
  modify (set_songInfo connectedText) ;;
  modify (set_reconnectAttempts 0) ;;
  try_catch (
    send (commandFrame "requestCurrentSongInfo") ;;
    setTimeout RequestAgain 2000).

(** [Math.min(1000 * Math.pow(1.5, attempts), 30000)].  Every power of
    1.5 whose product with 1000 stays below the cap is a dyadic rational
    that a double holds exactly, so the exact value is the computed one. *)
Definition reconnectDelay (attempts : Z) : Q :=
  Qred (Qmin (1000 * Qpower (3 # 2) attempts) 30000).

(** [socket.onclose], [wasClean] being [event.wasClean]. *)
Definition onclose (wasClean : bool) : M State unit :=
  when (negb wasClean)
    (attempts <- gets reconnectAttempts ;;
     setTimeout Reconnect (reconnectDelay attempts) ;;
     modify (fun st => set_reconnectAttempts (reconnectAttempts st + 1) st) ;;
     attempts' <- gets reconnectAttempts ;;
     when (3 <=? attempts')%Z
       (when (hasAutoReconnect page)
          (modify (fun st => set_discoveries (S (discoveries st)) st)) ;;
        modify (set_reconnectAttempts 0))) ;;
  modify (set_songInfo waitingText).

(** The DOMContentLoaded handler: restore, then connect.  The buttons it
    wires and the panels it creates change no state; the heartbeat it
    starts is the [Heartbeat] event below. *)
Definition onDOMContentLoaded : M State unit :=
  loadPlaylistFromStorage ;;
  connectWebSocket.

(** One firing of the 30-second heartbeat interval. *)
Definition heartbeatTick : M State unit :=
  st <- gets (fun st => st) ;;
  if isOpen st then send (commandFrame "ping") else connectWebSocket.

(** [sendCommand(data)], [frame] being [JSON.stringify(data)]. *)
Definition sendCommand (frame : jsstring) : M State unit :=
  st <- gets (fun st => st) ;;
  if isOpen st then send frame else connectWebSocket.

(** ** Events

    What the browser delivers to the page.  A socket event first moves
    the ready state of the socket, then runs the handler. *)
Inductive event : Type :=
| SocketOpen
| SocketMessage (frame : jsstring)
| SocketClose (wasClean : bool)
| TimerFires (i : nat)               (* the i-th pending timeout fires *)
| Heartbeat.

Fixpoint removeNth {A} (n : nat) (l : list A) : list A :=
  match l, n with
  | [], _ => []
  | _ :: l', O => l'
  | x :: l', S n' => x :: removeNth n' l'
  end.

Definition runTimer (t : timer) : M State unit :=
  match t with
  | RequestAgain => requestAgain
  | Reconnect => connectWebSocket
  | RestartAnimation => ret tt
  end.

Definition deliver (e : event) (st : State) : State :=
  match e with
  | SocketOpen => exec onopen (set_socket (Some OPEN) st)
  | SocketMessage frame => exec (onmessage frame) st
  | SocketClose wasClean => exec (onclose wasClean) (set_socket (Some CLOSED) st)
  | TimerFires i =>
      match nth_error (timers st) i with
      | Some (_, t) => exec (runTimer t) (set_timers (removeNth i (timers st)) st)
      | None => st
      end
  | Heartbeat => exec heartbeatTick st
  end.

Definition run (es : list event) (st : State) : State :=
  fold_left (fun s e => deliver e s) es st.

End WithPage.

End Display.

(* ================================================================== *)
(** * Vocabulary of the properties                                     *)
(* ================================================================== *)

Module Props.

(** The characters of a video identifier: letters, digits, underscore
    and hyphen. *)
Definition idChar (c : N) : bool := Regex.isWordChar c || (c =? 45)%N.

(** The labels [updatePlaylistUI] appends for a list of entries, and
    whether an entry stopped it: the pure content of [renderItems]. *)
Fixpoint labelsOf (items : list value) : (error + unit) * list jsstring :=
  match items with
  | [] => (inr tt, [])
  | video :: rest =>
      match entryLabel video with
      | inl e => (inl e, [])
      | inr label => (fst (labelsOf rest), label :: snd (labelsOf rest))
      end
  end.

(** The list renders: [updatePlaylistUI] goes through all its entries. *)
Definition renders (items : list value) : Prop := fst (labelsOf items) = inr tt.

(** The cursor of the controller is an index of its playlist, when there
    is one. *)
Definition validCursor (st : Controller.State) : Prop :=
  Controller.playlist st <> [] ->
  exists c, Controller.currentIndex st = Int c /\
            (0 <= c < Z.of_nat (length (Controller.playlist st)))%Z.

(** The same for the replica of the display. *)
Definition validReplicaCursor (st : Display.State) : Prop :=
  forall items, Display.playlist st = VArr items -> items <> [] ->
  exists c, Display.currentIndex st = VNum (Int c) /\
            (0 <= c < Z.of_nat (length items))%Z.

(** The cursor [loadPlaylistFromStorage] reads from the stored index. *)
Definition storedCursor (item : option jsstring) : number :=
  match item with
  | Some i => if nonEmpty i then parseInt i else Int 0
  | None => Int 0
  end.

(** [clamp(v, lo, hi)] *)
Definition clamp (v lo hi : Z) : Z := Z.max lo (Z.min v hi).

(** What the display mirrors and shows: every part of its state but the
    socket, the frames sent and the pending timeouts. *)
Definition replica (st : Display.State)
    : jsstring * value * value * list jsstring * Display.Storage * jsstring * jsstring :=
  (Display.songInfo st, Display.playlist st, Display.currentIndex st,
   Display.playlistItems st, Display.storage st,
   Display.volumeSlider st, Display.volumeValue st).

(** The connection side of the display: its socket, what it sent, and
    its reconnection counters. *)
Definition link (st : Display.State) : option Display.readyState * list jsstring * Z * nat :=
  (Display.socket st, Display.sent st, Display.reconnectAttempts st,
   Display.discoveries st).

(** The marquee shows a snapshot. *)
Definition rendered (st : Display.State) : Prop :=
  exists t a, Display.songInfo st = str "Now Playing: " ++ t ++ str " by " ++ a.

(** Two states of the display with the same connection side. *)
Definition sameLink (st st' : Display.State) : Prop := link st' = link st.

(** From one state of the display to another, the marquee is as before
    or shows a snapshot. *)
Definition marqueeStep (st st' : Display.State) : Prop :=
  Display.songInfo st' = Display.songInfo st \/ rendered st'.

(** The request a display sends for the current song. *)
Definition requestFrame : jsstring := Display.commandFrame "requestCurrentSongInfo".

(** The delays of the first three reconnections, in milliseconds. *)
Definition firstDelays : list Q := [1000; 1500; 2250]%Q.

(** A snapshot in its direct form. *)
Definition snapshot (title author pl ci : value) : value :=
  VObj [(str "title", title); (str "author", author);
        (str "playlist", pl); (str "currentIndex", ci)].

(** A snapshot wrapped as the nowPlaying command. *)
Definition nowPlaying (params : value) : value :=
  VObj [(str "command", VStr (str "nowPlaying")); (str "params", params)].

End Props.
Import Props.

(* ================================================================== *)
(** * States and records used as examples                              *)
(* ================================================================== *)

Module Examples.

(** A player that has been asked nothing yet. *)
Definition idlePlayer : Controller.Player :=
  Controller.mkPlayer [] false (inl TypeError).

Definition emptyStore : Controller.Storage := Controller.mkStorage None None None.

Definition trackA : value :=
  Controller.track (VStr (str "aaaaaaaaaaa")) (VStr (str "A")) (VStr (str "a")).
Definition trackB : value :=
  Controller.track (VStr (str "bbbbbbbbbbb")) (VStr (str "B")) (VStr (str "b")).
Definition trackC : value :=
  Controller.track (VStr (str "ccccccccccc")) (VStr (str "C")) (VStr (str "c")).

(** A playlist of three tracks, cursor on the last one. *)
Definition threeTracks : Controller.State :=
  Controller.set_currentIndex (Int 2)
    (Controller.set_playlist [trackA; trackB; trackC]
       (Controller.initial emptyStore idlePlayer)).

(** One track, cursor 0. *)
Definition oneTrack : Controller.State :=
  Controller.set_playlist [trackA] (Controller.initial emptyStore idlePlayer).

(** A stored playlist cut off after its first two characters. *)
Definition truncatedStore : Controller.Storage :=
  Controller.mkStorage (Some (str "[{")) (Some (str "0")) None.

(** A stored playlist that is an object, not an array. *)
Definition objectStore : Controller.Storage :=
  Controller.mkStorage (Some (str "{}")) (Some (str "0")) None.

(** A one-track playlist stored next to the index 7. *)
Definition staleStore : Controller.Storage :=
  Controller.mkStorage (Some (JSON_stringify (VArr [trackA]))) (Some (str "7")) None.

(** A snapshot of three tracks with the cursor on the last one, and the
    frame that carries it. *)
Definition firstSnapshot : value :=
  snapshot (VStr (str "C")) (VStr (str "c")) (VArr [trackA; trackB; trackC])
    (VNum (Int 2)).

Definition firstSnapshotFrame : jsstring := JSON_stringify firstSnapshot.

(** A nowPlaying message with a shorter playlist and no cursor, which
    the protocol allows. *)
Definition shorterPlaylist : value :=
  nowPlaying
    (VObj [(str "title", VStr (str "A")); (str "author", VStr (str "a"));
           (str "playlist", VArr [trackA])]).

(** A page with every element and helper present. *)
Definition fullPage : Display.Page := Display.mkPage true true true true.

Definition freshDisplay : Display.State :=
  Display.initial (Display.mkStorage None None).

End Examples.
Import Examples.

(* ================================================================== *)
(** * Vocabulary of the further properties                             *)
(* ================================================================== *)

Module Shapes.

(** An integer that a double holds exactly. *)
Definition safeInteger (z : Z) : bool := (Z.abs z <=? 9007199254740991)%Z.

Fixpoint distinct (ks : list jsstring) : bool :=
  match ks with
  | [] => true
  | k :: rest => negb (existsb (str_eqb k) rest) && distinct rest
  end.

(** Property names that are not array indices, so that they are
    enumerated in the order they were created. *)
Definition plainKey (k : jsstring) : bool :=
  match arrayIndex k with
  | Some _ => false
  | None => true
  end.

(** Values that [JSON.stringify] writes in full: no [undefined], no
    [NaN], numbers that are safe integers, objects whose keys are distinct
    and are not array indices. *)
Fixpoint storable (v : value) : bool :=
  match v with
  | VUndefined => false
  | VNull => true
  | VBool _ => true
  | VNum NaN => false
  | VNum (Num m d) => (d =? 0)%N && safeInteger m
  | VStr _ => true
  | VArr items => forallb storable items
  | VObj props =>
      forallb (fun kv => plainKey (fst kv) && storable (snd kv)) props
      && distinct (map fst props)
  end.

(** Number of nodes of a value. *)
Fixpoint size (v : value) : nat :=
  match v with
  | VArr items => S (list_sum (map size items))
  | VObj props => S (list_sum (map (fun kv => size (snd kv)) props))
  | _ => 1
  end.

(** The text that follows a value inside an array or an object, or the
    end of the text. *)
Definition delimited (rest : jsstring) : Prop :=
  match rest with
  | [] => True
  | c :: _ => c = 44%N \/ c = 93%N \/ c = 125%N
  end.

(** What may follow a number in a text: not a digit, a point or an
    exponent mark. *)
Definition numberEnd (rest : jsstring) : Prop :=
  match rest with
  | [] => True
  | c :: _ => isDigit c = false /\ c <> 46%N /\ c <> 101%N /\ c <> 69%N
  end.

(** The text of a value starts with a character that is neither white
    space nor a closing bracket or brace. *)
Definition opens (t : jsstring) : Prop :=
  match t with
  | [] => False
  | c :: _ => isJSONSpace c = false /\ c <> 93%N /\ c <> 125%N
  end.

(** The text of an array element: what [JSON.stringify] writes for it. *)
Definition elementText (x : value) : jsstring :=
  match serialize x with
  | Some t => t
  | None => str "null"
  end.

(** The text of a member of an object. *)
Definition memberText (kv : jsstring * value) : jsstring :=
  quote (fst kv) ++ str ":" ++ elementText (snd kv).

End Shapes.
Import Shapes.

(** States of the display that the further properties speak about. *)
Module Replica.
Import Display.

(** The page after a snapshot with an array as playlist. *)
Definition afterSnapshot (page : Page) (t a : jsstring) (items : list value)
    (ci : value) (text : jsstring) (st : State) : State :=
  set_storage (mkStorage (Some (JSON_stringify (VArr items))) (Some text))
    (set_timers (timers st ++ [(10%Q, RestartAnimation)])
       ((if hasPlaylistElement page
         then set_playlistItems (snd (labelsOf items)) else fun s => s)
          (set_currentIndex ci
             (set_playlist (VArr items)
                (set_songInfo (str "Now Playing: " ++ t ++ str " by " ++ a) st))))).

(** The attempt counter of the reconnection is 0, 1 or 2. *)
Definition counterInRange (st : State) : Prop := (0 <= reconnectAttempts st <= 2)%Z.

(** From one state of the display to another, the attempt counter is the
    same. *)
Definition sameCounter (st st' : State) : Prop :=
  reconnectAttempts st' = reconnectAttempts st.

End Replica.
Import Replica.

(** Texts around a video identifier. *)
Module Urls.

(** Whether the text contains the letter v followed by an equals sign,
    the end of two of the markers of [extractVideoId]. *)
Fixpoint hasVEquals (s : jsstring) : bool :=
  match s with
  | c :: ((d :: _) as r) => ((c =? 118)%N && (d =? 61)%N) || hasVEquals r
  | _ => false
  end.

(** What may follow the identifier in a URL: nothing, or a number sign,
    an ampersand or a question mark and more text, in which no solidus and
    no [v=] occurs. *)
Definition trailer (rest : jsstring) : Prop :=
  match rest with
  | [] => True
  | c :: _ => (c = 35%N \/ c = 38%N \/ c = 63%N)
              /\ Regex.avoids [47%N] rest /\ hasVEquals rest = false
  end.

End Urls.
Import Urls.

(* ================================================================== *)
(** * The controller page: what the user and the player can do         *)
(* ================================================================== *)

Module Buttons.
Import Controller.

Local Open Scope eff_scope.

(** The click handler of the play button. *)
Definition onPlayClick : M State unit :=
  items <- gets playlist ;;
  when (0 <? length items)%nat (call PlayVideo).

(** The click handler of the pause button. *)
Definition onPauseClick : M State unit := call PauseVideo.

(** The click handler [updatePlaylistUI] gives the item drawn for the
    entry at [index]. *)
Definition onItemClick (index : nat) : M State unit :=
  loadVideo (Int (Z.of_nat index)).

(** What happens to the page once [onPlayerReady] has wired it: the
    clicks, the text typed into the input, the slider, and what the
    player reports ([PlayerData] is the answer [getVideoData] gives from
    then on). *)
Inductive action : Type :=
| ClickPlay
| ClickPause
| ClickPrevious
| ClickNext
| ClickAdd
| ClickItem (index : nat)
| TypeUrl (text : jsstring)
| SlideVolume (v : jsstring)
| PlayerData (data : error + value)
| StateChange (data : playerState)
| IntervalTick (now : playerState).

Definition handle (a : action) : M State unit :=
  match a with
  | ClickPlay => onPlayClick
  | ClickPause => onPauseClick
  | ClickPrevious => playPreviousVideo
  | ClickNext => playNextVideo
  | ClickAdd => addVideoToPlaylist
  | ClickItem index => onItemClick index
  | TypeUrl text => modify (set_videoUrl text)
  | SlideVolume v => slideVolume v
  | PlayerData data =>
      modify (fun st =>
        set_player (mkPlayer (calls (player st)) (muted (player st)) data) st)
  | StateChange data => onPlayerStateChange data
  | IntervalTick now => intervalTick now
  end.

(** The actions after which the store may differ: adding a video, moving
    the slider, and the marquee update of a playing player. *)
Definition writesStore (a : action) : bool :=
  match a with
  | ClickAdd | SlideVolume _ | StateChange PLAYING | IntervalTick PLAYING => true
  | _ => false
  end.

Definition isObject (v : value) : bool :=
  match v with
  | VObj _ => true
  | _ => false
  end.

(** A page whose entries are objects that render, whose drawn list shows
    them, and whose cursor is an index of the playlist. *)
Definition wellFormed (st : State) : Prop :=
  forallb isObject (playlist st) = true
  /\ renders (playlist st)
  /\ playlistItems st = snd (labelsOf (playlist st))
  /\ validCursor st.

(** The page after a sequence of actions. *)
Definition perform (actions : list action) (st : State) : State :=
  fold_left (fun s a => exec (handle a) s) actions st.

(** From one state of the page to another, the store and the playlist are
    the same. *)
Definition sameStore (st st' : State) : Prop :=
  storage st' = storage st /\ playlist st' = playlist st.

(** From one state of the page to another, the stored volume, what the
    volume controls show and the mute flag of the player are the same. *)
Definition sameVolume (st st' : State) : Prop :=
  youtubePlayerVolume (storage st') = youtubePlayerVolume (storage st)
  /\ volumeSlider st' = volumeSlider st
  /\ volumeValue st' = volumeValue st
  /\ muted (player st') = muted (player st).

End Buttons.
Import Buttons.

(* ================================================================== *)
(** * The display page: its controls                                   *)
(* ================================================================== *)

Module Panel.
Import Display.

(** The buttons whose caption the script changes. *)
Inductive button : Type :=
| AddButton
| RefreshButton.

(** The four buttons that only send a command. *)
Inductive control : Type :=
| Play
| Pause
| Previous
| Next.

Definition controlName (c : control) : string :=
  match c with
  | Play => "play"
  | Pause => "pause"
  | Previous => "previous"
  | Next => "next"
  end.

(** The display page with the parts of the document its control handlers
    read and write. *)
Record State : Type := mkState {
  display : Display.State;
  videoUrl : option jsstring;     (* value of input video-url, if the page has one *)
  addCaption : jsstring;          (* text of the add button *)
  refreshCaption : jsstring;      (* text of the force-refresh button *)
  resets : list (Q * button * jsstring);
                                  (* pending timeouts that put a caption back *)
  controlsVisible : bool;         (* let controlsVisible = false *)
  showControls : bool             (* class show-controls on the body *)
}.

Definition set_display (x : Display.State) (st : State) : State :=
  mkState x (videoUrl st) (addCaption st) (refreshCaption st) (resets st)
    (controlsVisible st) (showControls st).
Definition set_videoUrl (x : option jsstring) (st : State) : State :=
  mkState (display st) x (addCaption st) (refreshCaption st) (resets st)
    (controlsVisible st) (showControls st).
Definition set_addCaption (x : jsstring) (st : State) : State :=
  mkState (display st) (videoUrl st) x (refreshCaption st) (resets st)
    (controlsVisible st) (showControls st).
Definition set_refreshCaption (x : jsstring) (st : State) : State :=
  mkState (display st) (videoUrl st) (addCaption st) x (resets st)
    (controlsVisible st) (showControls st).
Definition set_resets (x : list (Q * button * jsstring)) (st : State) : State :=
  mkState (display st) (videoUrl st) (addCaption st) (refreshCaption st) x
    (controlsVisible st) (showControls st).
Definition set_controlsVisible (x : bool) (st : State) : State :=
  mkState (display st) (videoUrl st) (addCaption st) (refreshCaption st) (resets st)
    x (showControls st).
Definition set_showControls (x : bool) (st : State) : State :=
  mkState (display st) (videoUrl st) (addCaption st) (refreshCaption st) (resets st)
    (controlsVisible st) x.

Local Open Scope eff_scope.

(** A handler of the display script run on the page. *)
Definition onDisplay {A} (c : M Display.State A) : M State A :=
  fun st => let '(r, d) := c (display st) in (r, set_display d st).

(** [setTimeout(() => { button.textContent = text }, delay)] *)
Definition resetLater (b : button) (text : jsstring) (delay : Q) : M State unit :=
  modify (fun st => set_resets (resets st ++ [(delay, b, text)]) st).

Definition set_caption (b : button) (text : jsstring) : M State unit :=
  match b with
  | AddButton => modify (set_addCaption text)
  | RefreshButton => modify (set_refreshCaption text)
  end.

(** [JSON.stringify({ command: name, key: v })] *)
Definition commandWith (name : string) (key : string) (v : value) : jsstring :=
  JSON_stringify (VObj [(str "command", VStr (str name)); (str key, v)]).

Section WithPage.

Variable page : Page.

(** The click handlers of the play, pause, previous and next buttons:
    [sendCommand({ command: name })]. *)
Definition onControlClick (c : control) : M State unit :=
  onDisplay (sendCommand page (commandFrame (controlName c))).

(** The click handler of the add button. *)
Definition onAddClick : M State unit :=
  input <- gets videoUrl ;;
  match input with
  | Some (c :: r) =>
      onDisplay (sendCommand page (commandWith "addVideo" "url" (VStr (c :: r)))) ;;
      modify (set_videoUrl (Some [])) ;;
      originalButtonText <- gets addCaption ;;
      set_caption AddButton (str "Adding...") ;;
      resetLater AddButton originalButtonText 2000
  | _ => ret tt
  end.

(** The input handler of the volume slider, which [setupControlListeners]
    attaches when the page has the slider and its label. *)
Definition onVolumeInput : M State unit :=
  volume <- gets (fun st => volumeSlider (display st)) ;;
  onDisplay (modify (set_volumeValue volume)) ;;
  onDisplay (sendCommand page (commandWith "volume" "value" (VNum (parseInt volume)))).

(** The user moves the slider to [v]; any text is allowed here, the
    values a range input can take among them. *)
Definition slideVolume (v : jsstring) : M State unit :=
  onDisplay (modify (set_volumeSlider v)) ;;
  onVolumeInput.

(** The click handler [updatePlaylistUI] gives the item drawn for the
    entry at [index]. *)
Definition onItemClick (index : nat) : M State unit :=
  onDisplay (sendCommand page
               (commandWith "loadVideo" "index" (VNum (Int (Z.of_nat index))))).

(** The click handler of the force-refresh button. *)
Definition onRefreshClick : M State unit :=
  st <- gets display ;;
  if isOpen st then
    onDisplay (send (commandFrame "requestCurrentSongInfo")) ;;
    set_caption RefreshButton (str "Requesting...") ;;
    resetLater RefreshButton (str "Refresh Song Info") 1000
  else
    set_caption RefreshButton (str "Not Connected!") ;;
    resetLater RefreshButton (str "Refresh Song Info") 1000 ;;
    onDisplay (connectWebSocket page).

(** [toggleControls()] *)
Definition toggleControls : M State unit :=
  modify (fun st => set_controlsVisible (negb (controlsVisible st)) st) ;;
  visible <- gets controlsVisible ;;
  modify (set_showControls visible).

(** The keydown handler that toggles the controls on the letter c.  (The
    one for the letter d shows and hides the debug panel, which is display
    only.) *)
Definition onKeyDown (key : jsstring) : M State unit :=
  when (str_eqb key (str "c") || str_eqb key (str "C")) toggleControls.

(** The keypress handler [setupInputListeners] attaches to the input when
    the page has one: the Enter key clicks the add button. *)
Definition onKeyPress (key : jsstring) : M State unit :=
  input <- gets videoUrl ;;
  match input with
  | Some _ => when (str_eqb key (str "Enter")) onAddClick
  | None => ret tt
  end.

(** The i-th pending timeout of a caption fires. *)
Definition fireReset (i : nat) : M State unit :=
  pending <- gets resets ;;
  match nth_error pending i with
  | Some (_, b, text) =>
      modify (set_resets (removeNth i pending)) ;;
      set_caption b text
  | None => ret tt
  end.

(** What the user does on the page, and what reaches it.  The slider
    has its handler when the page has the volume controls; an item can be
    clicked when it is drawn. *)
Inductive action : Type :=
| ClickControl (c : control)
| ClickAdd
| TypeUrl (text : jsstring)
| SlideVolume (v : jsstring)
| ClickItem (index : nat)
| ClickRefresh
| ClickToggle
| KeyDown (key : jsstring)
| KeyPress (key : jsstring)         (* a key pressed in the input *)
| ResetFires (i : nat)
| Arrives (e : event).              (* socket events, timeouts, heartbeat *)

Definition handle (a : action) : M State unit :=
  match a with
  | ClickControl c => onControlClick c
  | ClickAdd => onAddClick
  | TypeUrl text =>
      modify (fun st =>
        match videoUrl st with
        | Some _ => set_videoUrl (Some text) st
        | None => st
        end)
  | SlideVolume v => when (hasVolumeControls page) (slideVolume v)
  | ClickItem index =>
      drawn <- gets (fun st => playlistItems (display st)) ;;
      when (index <? length drawn)%nat (onItemClick index)
  | ClickRefresh => onRefreshClick
  | ClickToggle => toggleControls
  | KeyDown key => onKeyDown key
  | KeyPress key => onKeyPress key
  | ResetFires i => fireReset i
  | Arrives e => onDisplay (modify (deliver page e))
  end.

(** The actions of the user and the timeouts of the captions, as opposed
    to what arrives on the socket. *)
Definition byUser (a : action) : bool :=
  match a with
  | Arrives _ => false
  | _ => true
  end.

Definition perform (actions : list action) (st : State) : State :=
  fold_left (fun s a => exec (handle a) s) actions st.

End WithPage.

(** From one state of the page to another, the attempt counter of the
    display is the same. *)
Definition sameCounter (st st' : State) : Prop :=
  Replica.sameCounter (display st) (display st').

End Panel.

(* ================================================================== *)
(** * More pages to try the properties on                              *)
(* ================================================================== *)

Module Samples.
Import Controller.

(** A track whose title holds a quotation mark, a backslash, a line feed
    and a surrogate pair. *)
Definition quotedTrack : value :=
  track (VStr (str "dQw4w9WgXcQ")) (VStr [34; 72; 105; 92; 10; 55357; 56832]%N)
    (VStr (str "R")).

(** Two tracks with the cursor on the second, the list drawn. *)
Definition mixTape : State :=
  exec updatePlaylistUI
    (set_currentIndex (Int 1)
       (set_playlist [trackA; quotedTrack] (initial emptyStore idlePlayer))).

(** The three tracks, drawn. *)
Definition drawnTape : State := exec updatePlaylistUI threeTracks.

(** A player that gives a title and an empty author. *)
Definition namingPlayer : Player :=
  mkPlayer [] false
    (inr (VObj [(str "title", VStr (str "Song")); (str "author", VStr [])])).

Definition playingTape : State := set_player namingPlayer drawnTape.

(** A store that holds the volume 0 and nothing else. *)
Definition quietStore : Storage := mkStorage None None (Some (str "0")).

(** The two tracks with a URL typed into the input, spaces around it and
    a parameter after the identifier. *)
Definition typedTape : State :=
  set_videoUrl (str " https://youtu.be/dQw4w9WgXcQ?t=42 ") mixTape.

(** A store of the display whose playlist is cut off. *)
Definition cutOffRecord : Display.Storage :=
  Display.mkStorage (Some (str "[{")) None.

(** The display page with its controls, before the socket exists and once
    it is open. *)
Definition closedPanel : Panel.State :=
  Panel.mkState freshDisplay (Some (str "https://youtu.be/dQw4w9WgXcQ"))
    (str "Add") (str "Refresh Song Info") [] false false.

Definition openPanel : Panel.State :=
  Panel.set_display (Display.deliver fullPage Display.SocketOpen freshDisplay)
    closedPanel.

End Samples.
Import Samples.


(* ================================================================== *)
(** * Facts about JSON.parse: the budget is enough                     *)
(* ================================================================== *)

Module JSONFacts.
Import JSON.

Lemma skip_ws_length s : (length (skip_ws s) <= length s)%nat.
Proof.
  induction s as [|c s IH]; simpl; [lia|].
  destruct (isJSONSpace c); simpl; lia.
Qed.

Lemma steady_PErr {A} s : steady (@PErr A) s.
Proof. split; [discriminate | intros ? ? [=]]. Qed.

Lemma steady_POk {A} (x : A) rest s :
  (length rest <= length s)%nat -> steady (POk x rest) s.
Proof. intros H. split; [discriminate | intros ? ? [= _ <-]; exact H]. Qed.

Lemma steady_le {A} (r : parsed A) s s' :
  steady r s -> (length s <= length s')%nat -> steady r s'.
Proof. intros [H1 H2] Hle. split; [exact H1|]. intros x rest H. apply H2 in H. lia. Qed.

Lemma parse_chars_steady s : forall acc, steady (parse_chars s acc) s.
Proof.
  induction s as [s IH] using (well_founded_induction
    (Wf_nat.well_founded_ltof _ (@length N))).
  unfold Wf_nat.ltof in IH. intros acc.
  destruct s as [|c rest]; [apply steady_PErr|]. simpl.
  destruct (c =? 34)%N; [apply steady_POk; simpl; lia|].
  destruct (c =? 92)%N.
  - destruct rest as [|e rest1]; [apply steady_PErr|].
    destruct (e =? 117)%N.
    + destruct rest1 as [|a [|b [|c' [|d rest2]]]]; try apply steady_PErr.
      destruct (hexVal a), (hexVal b), (hexVal c'), (hexVal d); try apply steady_PErr.
      eapply steady_le; [apply IH; simpl; lia | simpl; lia].
    + destruct (unescape e); [|apply steady_PErr].
      eapply steady_le; [apply IH; simpl; lia | simpl; lia].
  - destruct (c <? 32)%N; [apply steady_PErr|].
    eapply steady_le; [apply IH; simpl; lia | simpl; lia].
Qed.

Lemma parse_digits_length s : forall acc n v cnt rest,
  parse_digits s acc n = (v, cnt, rest) -> (length rest <= length s)%nat.
Proof.
  induction s as [|c s IH]; intros acc n v cnt rest; simpl.
  - intros [= _ _ <-]. simpl. lia.
  - destruct (isDigit c).
    + intros H. apply IH in H. lia.
    + intros [= _ _ <-]. simpl. lia.
Qed.

Lemma parse_minus_length s neg s1 :
  parse_minus s = (neg, s1) -> (length s1 <= length s)%nat.
Proof.
  unfold parse_minus. destruct s as [|c r]; [intros [= _ <-]; lia|].
  destruct (c =? 45)%N; intros [= _ <-]; simpl; lia.
Qed.

Lemma parse_int_length s iv s2 :
  parse_int s = Some (iv, s2) -> (length s2 <= length s)%nat.
Proof.
  unfold parse_int. destruct s as [|c r]; [discriminate|].
  destruct (c =? 48)%N; [intros [= _ <-]; simpl; lia|].
  destruct (isDigit c); [|discriminate].
  destruct (parse_digits (c :: r) 0%Z 0%N) as [[v cnt] r'] eqn:E.
  intros [= _ <-]. eapply parse_digits_length; eassumption.
Qed.

Lemma parse_frac_length iv s mant scale s3 :
  parse_frac iv s = Some (mant, scale, s3) -> (length s3 <= length s)%nat.
Proof.
  unfold parse_frac. destruct s as [|c r]; [intros [= _ _ <-]; lia|].
  destruct (c =? 46)%N; [|intros [= _ _ <-]; lia].
  destruct (parse_digits r iv 0%N) as [[v n] r'] eqn:E.
  destruct (n =? 0)%N; [discriminate|].
  intros [= _ _ <-]. apply parse_digits_length in E. simpl. lia.
Qed.

Lemma parse_exp_length s e s4 :
  parse_exp s = Some (e, s4) -> (length s4 <= length s)%nat.
Proof.
  unfold parse_exp. destruct s as [|c r]; [intros [= _ <-]; lia|].
  destruct ((c =? 101) || (c =? 69))%N; [|intros [= _ <-]; lia].
  destruct (match r with
            | [] => (false, r)
            | d :: r' =>
                if (d =? 45)%N then (true, r')
                else if (d =? 43)%N then (false, r') else (false, r)
            end) as [eneg r1] eqn:Er.
  assert (Hr : (length r1 <= length r)%nat).
  { destruct r as [|d r']; [injection Er as _ <-; lia|].
    destruct (d =? 45)%N; [injection Er as _ <-; simpl; lia|].
    destruct (d =? 43)%N; injection Er as _ <-; simpl; lia. }
  destruct (parse_digits r1 0%Z 0%N) as [[v n] r2] eqn:E.
  destruct (n =? 0)%N; [discriminate|].
  intros [= _ <-]. apply parse_digits_length in E. simpl. lia.
Qed.

Lemma parse_number_steady s : steady (parse_number s) s.
Proof.
  unfold parse_number.
  destruct (parse_minus s) as [neg s1] eqn:E1. apply parse_minus_length in E1.
  destruct (parse_int s1) as [[iv s2]|] eqn:E2; [|apply steady_PErr].
  apply parse_int_length in E2.
  destruct (parse_frac iv s2) as [[[mant scale] s3]|] eqn:E3; [|apply steady_PErr].
  apply parse_frac_length in E3.
  destruct (parse_exp s3) as [[e s4]|] eqn:E4; [|apply steady_PErr].
  apply parse_exp_length in E4.
  apply steady_POk. lia.
Qed.

Lemma startsWith_length p s rest :
  startsWith p s = Some rest -> (length rest <= length s)%nat.
Proof.
  unfold startsWith. destruct (str_eqb _ _); [|discriminate].
  intros [= <-]. rewrite length_skipn. lia.
Qed.

Lemma parse_literal_steady s : steady (parse_literal s) s.
Proof.
  unfold parse_literal.
  destruct (startsWith (str "null") s) eqn:E1;
    [apply steady_POk; eapply startsWith_length; eassumption|].
  destruct (startsWith (str "true") s) eqn:E2;
    [apply steady_POk; eapply startsWith_length; eassumption|].
  destruct (startsWith (str "false") s) eqn:E3;
    [apply steady_POk; eapply startsWith_length; eassumption|].
  apply steady_PErr.
Qed.

Lemma closes_length c s rest : closes c s = Some rest -> (length rest < length s)%nat.
Proof.
  unfold closes. pose proof (skip_ws_length s) as H.
  destruct (skip_ws s) as [|x r]; [discriminate|].
  destruct (x =? c)%N; [|discriminate]. intros [= <-]. simpl in H. lia.
Qed.

Section Loops.

(** A reader of one value that is steady on every text shorter than
    [bound]. *)
Variable pv : jsstring -> parsed value.
Variable bound : nat.
Hypothesis pv_steady : forall s, (length s < bound)%nat -> steady (pv s) s.

Lemma parse_elements_steady n : forall s acc,
  (length s < n)%nat -> (length s < bound)%nat ->
  steady (parse_elements pv n s acc) s.
Proof.
  induction n as [|n IH]; intros s acc Hn Hb; [lia|]. simpl.
  destruct (pv_steady s Hb) as [H1 H2].
  destruct (pv s) as [v rest| |]; [|apply steady_PErr|contradiction].
  specialize (H2 v rest eq_refl).
  pose proof (skip_ws_length rest) as Hw.
  destruct (skip_ws rest) as [|c rest']; [apply steady_PErr|]. simpl in Hw.
  destruct (c =? 44)%N.
  - eapply steady_le; [apply IH; lia | lia].
  - destruct (c =? 93)%N; [apply steady_POk; lia | apply steady_PErr].
Qed.

Lemma parse_members_steady n : forall s acc,
  (length s < n)%nat -> (length s < bound)%nat ->
  steady (parse_members pv n s acc) s.
Proof.
  induction n as [|n IH]; intros s acc Hn Hb; [lia|]. simpl.
  pose proof (skip_ws_length s) as Hw0.
  destruct (skip_ws s) as [|q s1]; [apply steady_PErr|]. simpl in Hw0.
  destruct (q =? 34)%N; [|apply steady_PErr].
  destruct (parse_chars_steady s1 []) as [Hc1 Hc2].
  destruct (parse_chars s1 []) as [k s2| |]; [|apply steady_PErr|contradiction].
  specialize (Hc2 k s2 eq_refl).
  pose proof (skip_ws_length s2) as Hw2.
  destruct (skip_ws s2) as [|colon s3]; [apply steady_PErr|]. simpl in Hw2.
  destruct (colon =? 58)%N; [|apply steady_PErr].
  assert (Hb3 : (length s3 < bound)%nat) by lia.
  destruct (pv_steady s3 Hb3) as [H1 H2].
  destruct (pv s3) as [v rest| |]; [|apply steady_PErr|contradiction].
  specialize (H2 v rest eq_refl).
  pose proof (skip_ws_length rest) as Hw.
  destruct (skip_ws rest) as [|c rest']; [apply steady_PErr|]. simpl in Hw.
  destruct (c =? 44)%N.
  - eapply steady_le; [apply IH; lia | lia].
  - destruct (c =? 125)%N; [apply steady_POk; lia | apply steady_PErr].
Qed.

End Loops.

Lemma parse_value_steady fuel : forall s,
  (length s < fuel)%nat -> steady (parse_value fuel s) s.
Proof.
  induction fuel as [|fuel IH]; intros s Hs; [lia|]. simpl.
  pose proof (skip_ws_length s) as Hw.
  destruct (skip_ws s) as [|c r]; [apply steady_PErr|]. simpl in Hw.
  destruct (c =? 34)%N.
  { destruct (parse_chars_steady r []) as [H1 H2].
    destruct (parse_chars r []) as [x rest| |]; [|apply steady_PErr|contradiction].
    specialize (H2 x rest eq_refl). apply steady_POk. lia. }
  destruct (c =? 91)%N.
  { destruct (closes 93 r) as [rest|] eqn:E.
    - apply closes_length in E. apply steady_POk. lia.
    - eapply steady_le; [apply (parse_elements_steady _ fuel IH); lia | lia]. }
  destruct (c =? 123)%N.
  { destruct (closes 125 r) as [rest|] eqn:E.
    - apply closes_length in E. apply steady_POk. lia.
    - eapply steady_le; [apply (parse_members_steady _ fuel IH); lia | lia]. }
  destruct ((c =? 45)%N || isDigit c).
  - destruct (parse_number_steady (c :: r)) as [H1 H2].
    destruct (parse_number (c :: r)) as [x rest| |]; [|apply steady_PErr|contradiction].
    specialize (H2 x rest eq_refl). apply steady_POk. simpl in *. lia.
  - eapply steady_le; [apply parse_literal_steady | simpl; lia].
Qed.

(** The budget [JSON_parse] gives is never exhausted. *)
Lemma JSON_parse_budget text : parse_value (S (length text)) text <> PFuel.
Proof. apply parse_value_steady. lia. Qed.

(** So [JSON_parse] raises exactly when the text is not one JSON value. *)
Lemma JSON_parse_error text e :
  JSON_parse text = inl e ->
  e = SyntaxError /\
  (parse_value (S (length text)) text = PErr \/
   exists v rest, parse_value (S (length text)) text = POk v rest /\ skip_ws rest <> []).
Proof.
  unfold JSON_parse. pose proof (JSON_parse_budget text) as Hb.
  destruct (parse_value (S (length text)) text) as [v rest| |]; [| |contradiction].
  - destruct (skip_ws rest) eqn:E; [discriminate|].
    intros [= <-]. split; [reflexivity|]. right. exists v, rest. split; [reflexivity|].
    rewrite E. discriminate.
  - intros [= <-]. auto.
Qed.

End JSONFacts.

(* ================================================================== *)
(** * Facts about the matcher                                          *)
(* ================================================================== *)

Module RegexFacts.
Import Regex.

Lemma m_lits w : forall s caps k,
  m (lits w) s caps k =
  match stripPrefix w s with
  | Some rest => k rest caps
  | None => None
  end.
Proof.
  induction w as [|c w IH]; intros s caps k; simpl.
  - reflexivity.
  - destruct s as [|x s]; [reflexivity|].
    simpl. destruct (x =? c)%N; [apply IH | reflexivity].
Qed.

Lemma Suffix_refl s : Suffix s s.
Proof. exists []. reflexivity. Qed.

Lemma Suffix_cons c s' s : Suffix s' s -> Suffix s' (c :: s).
Proof. intros [p ->]. exists (c :: p). reflexivity. Qed.

Lemma Suffix_trans a b c : Suffix a b -> Suffix b c -> Suffix a c.
Proof. intros [p ->] [q ->]. exists (q ++ p). now rewrite app_assoc. Qed.

Lemma Suffix_tail c s : Suffix s (c :: s).
Proof. exists [c]. reflexivity. Qed.

Lemma Suffix_In c s' s : Suffix s' s -> In c s' -> In c s.
Proof. intros [p ->] H. apply in_or_app. now right. Qed.

Lemma Suffix_length s' s : Suffix s' s -> (length s' <= length s)%nat.
Proof. intros [p ->]. rewrite length_app. lia. Qed.

Lemma star_none {R} cs s (k : jsstring -> option R) :
  (forall s', Suffix s' s -> k s' = None) -> star cs s k = None.
Proof.
  induction s as [|c s IH]; intros H; simpl.
  - apply H, Suffix_refl.
  - destruct (mem cs c).
    + rewrite IH.
      * apply H, Suffix_refl.
      * intros s' Hs. apply H, Suffix_cons, Hs.
    + apply H, Suffix_refl.
Qed.

Lemma m_none r : forall s caps k,
  (forall s' caps', Suffix s' s -> k s' caps' = None) -> m r s caps k = None.
Proof.
  induction r as [|cs|cs|r1 IH1 r2 IH2|r1 IH1 r2 IH2|i r IH]; intros s caps k H; simpl.
  - apply H, Suffix_refl.
  - destruct s as [|c s]; [reflexivity|].
    destruct (mem cs c); [|reflexivity]. apply H, Suffix_tail.
  - apply star_none. intros s' Hs. apply H, Hs.
  - apply IH1. intros s' caps' Hs. apply IH2.
    intros s'' caps'' Hs'. apply H. eapply Suffix_trans; eassumption.
  - rewrite IH1 by assumption. apply IH2, H.
  - apply IH. intros s' caps' Hs. apply H, Hs.
Qed.

Lemma avoids_Suffix cs s' s : Suffix s' s -> avoids cs s -> avoids cs s'.
Proof. intros Hs H c Hc Hin. apply (H c Hc). eapply Suffix_In; eassumption. Qed.

Lemma requires_sound cs r : requires cs r = true ->
  forall s caps k, avoids cs s -> m r s caps k = None.
Proof.
  induction r as [|x|x|r1 IH1 r2 IH2|r1 IH1 r2 IH2|i r IH]; simpl; intros Hr s caps k Hs;
    try discriminate.
  - destruct x as [| |c|l]; try discriminate.
    destruct s as [|y s]; [reflexivity|]. simpl.
    destruct (N.eqb_spec y c) as [->|]; [|reflexivity].
    exfalso. apply existsb_exists in Hr. destruct Hr as [c' [Hin Heq]].
    apply N.eqb_eq in Heq. subst c'. apply (Hs c Hin). now left.
  - apply orb_true_iff in Hr. destruct Hr as [Hr|Hr].
    + now apply IH1.
    + apply m_none. intros s' caps' Hsuf. apply IH2; [assumption|].
      eapply avoids_Suffix; eassumption.
  - apply andb_true_iff in Hr. destruct Hr as [H1 H2].
    rewrite IH1 by assumption. now apply IH2.
  - now apply IH.
Qed.

Lemma star_all {R} cs s (k : jsstring -> option R) r :
  Forall (fun c => mem cs c = true) s -> k [] = Some r -> star cs s k = Some r.
Proof.
  induction 1 as [|c s Hc Hs IH]; intros Hk; simpl.
  - assumption.
  - rewrite Hc, IH by assumption. reflexivity.
Qed.

Lemma star_backtrack {R} cs a b (k : jsstring -> option R) :
  Forall (fun c => mem cs c = true) a ->
  star cs (a ++ b) k =
  match star cs b k with
  | Some r => Some r
  | None => backtrack a b k
  end.
Proof.
  induction 1 as [|c a Hc Ha IH]; simpl.
  - destruct (star cs b k); reflexivity.
  - rewrite Hc, IH. destruct (star cs b k); reflexivity.
Qed.

End RegexFacts.

(* ================================================================== *)
(** * Facts about extractVideoId                                       *)
(* ================================================================== *)

Module ExtractFacts.
Import Regex RegexFacts Controller.

Lemma extract_length url id : extractVideoId url = Some id -> length id = 11%nat.
Proof.
  unfold extractVideoId.
  destruct (exec regExp url) as [caps|].
  - destruct (capture 2 caps) as [g2|].
    + destruct (Nat.eqb_spec (length g2) 11).
      * intros [= <-]. assumption.
      * destruct (Nat.eqb_spec (length url) 11); [intros [= <-]; assumption | discriminate].
    + destruct (Nat.eqb_spec (length url) 11); [intros [= <-]; assumption | discriminate].
  - destruct (Nat.eqb_spec (length url) 11); [intros [= <-]; assumption | discriminate].
Qed.

Lemma extract_eleven url : length url = 11%nat -> exists id, extractVideoId url = Some id.
Proof.
  intros H. unfold extractVideoId. rewrite H. simpl.
  destruct (exec regExp url) as [caps|]; [|eauto].
  destruct (capture 2 caps) as [g2|]; [|eauto].
  destruct (length g2 =? 11)%nat; eauto.
Qed.

Lemma afterPrefix_needs_marker s caps k :
  avoids [47; 61]%N s -> m afterPrefix s caps k = None.
Proof. apply requires_sound. reflexivity. Qed.

Lemma exec_no_marker url : avoids [47; 61]%N url -> exec regExp url = None.
Proof.
  intros H. unfold exec, regExp. cbn [m].
  apply star_none. intros s' Hs. apply afterPrefix_needs_marker.
  eapply avoids_Suffix; eassumption.
Qed.

Lemma extract_no_marker url :
  avoids [47; 61]%N url ->
  extractVideoId url = if (length url =? 11)%nat then Some url else None.
Proof. intros H. unfold extractVideoId. now rewrite exec_no_marker. Qed.

Lemma idChar_facts c : idChar c = true ->
  c <> 47%N /\ c <> 61%N /\ mem (NoneOf (str "#&?")) c = true /\ mem Any c = true.
Proof.
  intros H. repeat split.
  - intros ->. discriminate H.
  - intros ->. discriminate H.
  - simpl. destruct (N.eqb_spec c 35) as [->|]; [discriminate H|].
    destruct (N.eqb_spec c 38) as [->|]; [discriminate H|].
    destruct (N.eqb_spec c 63) as [->|]; [discriminate H|]. reflexivity.
  - unfold mem, isLineTerminator.
    destruct (N.eqb_spec c 10) as [->|]; [discriminate H|].
    destruct (N.eqb_spec c 13) as [->|]; [discriminate H|].
    destruct (N.eqb_spec c 8232) as [->|]; [discriminate H|].
    destruct (N.eqb_spec c 8233) as [->|]; [discriminate H|]. reflexivity.
Qed.

Lemma idChars_avoid id : Forall (fun c => idChar c = true) id -> avoids [47; 61]%N id.
Proof.
  intros H c Hc Hin. rewrite Forall_forall in H. apply H in Hin.
  apply idChar_facts in Hin. destruct Hin as (H1 & H2 & _).
  simpl in Hc. destruct Hc as [<-|[<-|[]]]; congruence.
Qed.

(** After a marker has matched, a tail of identifier characters is
    captured whole as group 2. *)
Lemma tail_captured id caps :
  Forall (fun c => idChar c = true) id ->
  m (Seq (Group 2 (Star (NoneOf (str "#&?")))) (Star Any)) id caps
    (fun _ c => Some c) = Some ((2%nat, id) :: caps).
Proof.
  intros H. cbn [m].
  apply star_all.
  - eapply Forall_impl; [|exact H]. intros c Hc. now apply idChar_facts in Hc.
  - simpl. rewrite Nat.sub_0_r, firstn_all. reflexivity.
Qed.

Lemma idChars_tail id : Forall (fun c => idChar c = true) id ->
  Forall (fun c => mem (NoneOf [35; 38; 63]%N) c = true) id.
Proof.
  intros H. eapply Forall_impl; [|exact H]. intros c Hc. now apply idChar_facts in Hc.
Qed.

(** A URL made of a fixed prefix that ends in a marker, then the
    identifier: the star gives back the identifier, then the prefix down to
    the marker. *)
Ltac resolve_shape prefix vid Hlen Hid :=
  unfold extractVideoId, exec, regExp; cbn [m];
  let p := fresh "p" in
  set (p := str prefix); vm_compute in p; subst p;
  match goal with
  | |- context [star Any (?a ++ ?b) ?k] =>
      rewrite (star_backtrack Any a b k) by (repeat constructor)
  end;
  rewrite star_none by
    (intros s' Hs; apply afterPrefix_needs_marker;
     eapply avoids_Suffix; [eassumption | now apply idChars_avoid]);
  cbn;
  match goal with
  | |- context [star ?cs vid ?k] =>
      rewrite (star_all cs vid k _ (idChars_tail vid Hid) eq_refl)
  end;
  cbn; rewrite Nat.sub_0_r, firstn_all, Hlen; reflexivity.

Lemma extract_short_form id :
  length id = 11%nat -> Forall (fun c => idChar c = true) id ->
  extractVideoId (str "https://youtu.be/" ++ id) = Some id.
Proof. intros Hlen Hid. resolve_shape "https://youtu.be/"%string id Hlen Hid. Qed.

Lemma extract_long_form id :
  length id = 11%nat -> Forall (fun c => idChar c = true) id ->
  extractVideoId (str "https://www.youtube.com/watch?v=" ++ id) = Some id.
Proof. intros Hlen Hid. resolve_shape "https://www.youtube.com/watch?v="%string id Hlen Hid. Qed.

Lemma extract_embed_form id :
  length id = 11%nat -> Forall (fun c => idChar c = true) id ->
  extractVideoId (str "https://www.youtube.com/embed/" ++ id) = Some id.
Proof. intros Hlen Hid. resolve_shape "https://www.youtube.com/embed/"%string id Hlen Hid. Qed.

End ExtractFacts.
(* ================================================================== *)
(** * Facts about numbers                                              *)
(* ================================================================== *)

Module NumberFacts.

Lemma num_add_Int a b : num_add (Int a) (Int b) = Int (a + b).
Proof. unfold num_add, rescale. cbn. now rewrite !Z.mul_1_r. Qed.

Lemma num_sub_Int a b : num_sub (Int a) (Int b) = Int (a - b).
Proof. unfold num_sub, rescale. cbn. now rewrite !Z.mul_1_r. Qed.

Lemma num_rem_Int a b : b <> 0%Z -> num_rem (Int a) (Int b) = Int (Z.rem a b).
Proof.
  intros Hb. unfold num_rem, rescale. cbn. rewrite !Z.mul_1_r.
  destruct (Z.eqb_spec b 0); [contradiction | reflexivity].
Qed.

Lemma num_lt_Int a b : num_lt (Int a) (Int b) = (a <? b)%Z.
Proof. unfold num_lt, rescale. cbn. now rewrite !Z.mul_1_r. Qed.

Lemma num_ge_Int a b : num_ge (Int a) (Int b) = (b <=? a)%Z.
Proof. unfold num_ge, rescale. cbn. now rewrite !Z.mul_1_r. Qed.

Lemma num_eqb_Int a b : num_eqb (Int a) (Int b) = (a =? b)%Z.
Proof. unfold num_eqb. cbn. now rewrite andb_true_r. Qed.

(** The step of [playNextVideo] on a cursor within the list. *)
Lemma next_index c n : (0 <= c < n)%Z ->
  num_rem (num_add (Int c) (Int 1)) (Int n) = Int ((c + 1) mod n).
Proof.
  intros H. rewrite num_add_Int, num_rem_Int by lia.
  rewrite Z.rem_mod_nonneg by lia. reflexivity.
Qed.

(** The step of [playPreviousVideo] on a cursor within the list. *)
Lemma previous_index c n : (0 <= c < n)%Z ->
  num_rem (num_add (num_sub (Int c) (Int 1)) (Int n)) (Int n) = Int ((c - 1) mod n).
Proof.
  intros H. rewrite num_sub_Int, num_add_Int, num_rem_Int by lia.
  rewrite Z.rem_mod_nonneg by lia.
  replace (c - 1 + n)%Z with (c - 1 + 1 * n)%Z by lia.
  now rewrite Z.mod_add by lia.
Qed.

End NumberFacts.

(* ================================================================== *)
(** * Facts about the controller                                       *)
(* ================================================================== *)

Module ControllerFacts.
Import Controller NumberFacts.

Lemma set_playlistItems_same st : set_playlistItems (playlistItems st) st = st.
Proof. now destruct st. Qed.

Lemma renderItems_spec items : forall st,
  renderItems items st =
  (fst (labelsOf items),
   set_playlistItems (playlistItems st ++ snd (labelsOf items)) st).
Proof.
  induction items as [|video rest IH]; intros st; simpl.
  - unfold ret. now rewrite app_nil_r, set_playlistItems_same.
  - unfold bind, lift, modify.
    destruct (entryLabel video) as [e|label]; simpl.
    + now rewrite app_nil_r, set_playlistItems_same.
    + rewrite IH. cbn. now rewrite <- app_assoc.
Qed.

Lemma updatePlaylistUI_spec st :
  updatePlaylistUI st =
  (fst (labelsOf (playlist st)),
   set_playlistItems (snd (labelsOf (playlist st))) st).
Proof.
  unfold updatePlaylistUI, bind, modify, gets. cbn.
  now rewrite renderItems_spec.
Qed.

(** [loadVideo] at an integer index, spelled out. *)
Lemma loadVideo_Int i st :
  loadVideo (Int i) st =
  if ((0 <=? i) && (i <? Z.of_nat (length (playlist st))))%Z then
    match get (nth (Z.to_nat i) (playlist st) VUndefined) "id" with
    | inl e => (inl e, set_currentIndex (Int i) st)
    | inr vid =>
        let st1 := set_currentVideoId vid (set_currentIndex (Int i) st) in
        let st2 :=
          set_player (mkPlayer (calls (player st) ++ [LoadVideoById vid])
                        (muted (player st)) (videoData (player st))) st1 in
        (fst (labelsOf (playlist st)),
         set_playlistItems (snd (labelsOf (playlist st))) st2)
    end
  else (inr tt, st).
Proof.
  unfold loadVideo, bind, gets. cbn [fst snd].
  rewrite num_ge_Int, num_lt_Int.
  destruct ((0 <=? i)%Z && (i <? Z.of_nat (length (playlist st)))%Z) eqn:E;
    [|reflexivity].
  apply andb_true_iff in E. destruct E as [E1 E2].
  unfold modify, lift, call, elementAt. cbn [fst snd].
  destruct (Z.ltb_spec i 0); [apply Z.leb_le in E1; lia|].
  cbn -[updatePlaylistUI get].
  destruct (get (nth (Z.to_nat i) (playlist st) VUndefined) "id") as [e|vid];
    [reflexivity|].
  cbn -[updatePlaylistUI]. rewrite updatePlaylistUI_spec. reflexivity.
Qed.

Lemma loadVideo_playlist i st : playlist (exec (loadVideo (Int i)) st) = playlist st.
Proof.
  unfold exec. rewrite loadVideo_Int.
  destruct (_ && _); [|reflexivity].
  destruct (get _ _); reflexivity.
Qed.

Lemma loadVideo_cursor i st :
  currentIndex (exec (loadVideo (Int i)) st) =
  if ((0 <=? i) && (i <? Z.of_nat (length (playlist st))))%Z then Int i
  else currentIndex st.
Proof.
  unfold exec. rewrite loadVideo_Int.
  destruct (_ && _); [|reflexivity].
  destruct (get _ _); reflexivity.
Qed.

Lemma length_zero_iff {A} (l : list A) : (length l =? 0)%nat = false <-> l <> [].
Proof. destruct l; simpl; split; intros; congruence. Qed.

(** [playNextVideo] on a list that is not empty: the cursor moves, then
    [loadVideo] runs at the new cursor. *)
Lemma playNextVideo_step st : playlist st <> [] ->
  let i := num_rem (num_add (currentIndex st) (Int 1))
             (Int (Z.of_nat (length (playlist st)))) in
  playNextVideo st = loadVideo i (set_currentIndex i st).
Proof.
  intros H. unfold playNextVideo, bind, gets, modify. cbn [fst snd].
  apply length_zero_iff in H. rewrite H. reflexivity.
Qed.

Lemma playPreviousVideo_step st : playlist st <> [] ->
  let n := Int (Z.of_nat (length (playlist st))) in
  let i := num_rem (num_add (num_sub (currentIndex st) (Int 1)) n) n in
  playPreviousVideo st = loadVideo i (set_currentIndex i st).
Proof.
  intros H. unfold playPreviousVideo, bind, gets, modify. cbn [fst snd].
  apply length_zero_iff in H. rewrite H. reflexivity.
Qed.

Lemma length_pos {A} (l : list A) : l <> [] -> (0 < Z.of_nat (length l))%Z.
Proof. destruct l; [congruence | simpl; lia]. Qed.

Lemma playNextVideo_valid st c :
  playlist st <> [] -> currentIndex st = Int c ->
  (0 <= c < Z.of_nat (length (playlist st)))%Z ->
  playlist (exec playNextVideo st) = playlist st /\
  currentIndex (exec playNextVideo st) =
    Int ((c + 1) mod Z.of_nat (length (playlist st))).
Proof.
  intros Hne Hc Hr. unfold exec. rewrite playNextVideo_step by assumption.
  cbv zeta. rewrite Hc, next_index by assumption.
  fold (exec (loadVideo (Int ((c + 1) mod Z.of_nat (length (playlist st)))))
          (set_currentIndex (Int ((c + 1) mod Z.of_nat (length (playlist st)))) st)).
  rewrite loadVideo_playlist, loadVideo_cursor. split; [reflexivity|].
  cbn [playlist set_currentIndex currentIndex].
  destruct (_ && _); reflexivity.
Qed.

Lemma playPreviousVideo_valid st c :
  playlist st <> [] -> currentIndex st = Int c ->
  (0 <= c < Z.of_nat (length (playlist st)))%Z ->
  playlist (exec playPreviousVideo st) = playlist st /\
  currentIndex (exec playPreviousVideo st) =
    Int ((c - 1) mod Z.of_nat (length (playlist st))).
Proof.
  intros Hne Hc Hr. unfold exec. rewrite playPreviousVideo_step by assumption.
  cbv zeta. rewrite Hc, previous_index by assumption.
  fold (exec (loadVideo (Int ((c - 1) mod Z.of_nat (length (playlist st)))))
          (set_currentIndex (Int ((c - 1) mod Z.of_nat (length (playlist st)))) st)).
  rewrite loadVideo_playlist, loadVideo_cursor. split; [reflexivity|].
  cbn [playlist set_currentIndex currentIndex].
  destruct (_ && _); reflexivity.
Qed.

Lemma playNextVideo_iter k : forall st c,
  playlist st <> [] -> currentIndex st = Int c ->
  (0 <= c < Z.of_nat (length (playlist st)))%Z ->
  playlist (Nat.iter k (exec playNextVideo) st) = playlist st /\
  currentIndex (Nat.iter k (exec playNextVideo) st) =
    Int ((c + Z.of_nat k) mod Z.of_nat (length (playlist st))).
Proof.
  induction k as [|k IH]; intros st c Hne Hc Hr.
  - simpl. split; [reflexivity|]. rewrite Z.add_0_r, Z.mod_small by lia. assumption.
  - rewrite Nat.iter_succ.
    destruct (IH st c Hne Hc Hr) as [Hp Hi].
    set (st' := Nat.iter k (exec playNextVideo) st) in *.
    assert (Hn : playlist st' <> []) by now rewrite Hp.
    assert (Hr' : (0 <= (c + Z.of_nat k) mod Z.of_nat (length (playlist st'))
                   < Z.of_nat (length (playlist st')))%Z).
    { apply Z.mod_pos_bound, length_pos, Hn. }
    rewrite <- Hp in Hi.
    destruct (playNextVideo_valid st' _ Hn Hi Hr') as [Hp' Hi'].
    split; [congruence|].
    rewrite Hi', Hp. f_equal.
    rewrite Zplus_mod_idemp_l. f_equal. lia.
Qed.

Lemma onPlayerStateChange_ENDED st :
  onPlayerStateChange ENDED st = playNextVideo st.
Proof. reflexivity. Qed.

End ControllerFacts.

(* ================================================================== *)
(** * Facts about adding and restoring                                 *)
(* ================================================================== *)

Module RestoreFacts.
Import Controller ControllerFacts NumberFacts.

Lemma entryLabel_track a b c :
  entryLabel (track a (VStr b) (VStr c)) = inr (b ++ str " - " ++ c).
Proof. reflexivity. Qed.

Lemma labelsOf_app l1 l2 :
  labelsOf (l1 ++ l2) =
  match fst (labelsOf l1) with
  | inl e => (inl e, snd (labelsOf l1))
  | inr _ => (fst (labelsOf l2), snd (labelsOf l1) ++ snd (labelsOf l2))
  end.
Proof.
  induction l1 as [|v l1 IH]; simpl.
  - now destruct (labelsOf l2).
  - destruct (entryLabel v) as [e|label]; [reflexivity|].
    rewrite IH. simpl. destruct (fst (labelsOf l1)); reflexivity.
Qed.

(** [savePlaylistToStorage] never raises and only writes the store. *)
Lemma savePlaylistToStorage_spec st :
  savePlaylistToStorage st =
  (inr tt,
   set_storage
     (mkStorage (Some (JSON_stringify (VArr (playlist st))))
        (Some (numberToString (currentIndex st)))
        (youtubePlayerVolume (storage st))) st).
Proof. reflexivity. Qed.

(** [addToPlaylist], spelled out: the entry is appended, the list is
    drawn again and, if that went through, the store is written. *)
Lemma addToPlaylist_spec v t a st :
  let items := playlist st ++ [track v t a] in
  let st1 := set_playlistItems (snd (labelsOf items)) (set_playlist items st) in
  addToPlaylist v t a st =
  match fst (labelsOf items) with
  | inl e => (inl e, st1)
  | inr _ =>
      (inr tt,
       set_storage
         (mkStorage (Some (JSON_stringify (VArr items)))
            (Some (numberToString (currentIndex st)))
            (youtubePlayerVolume (storage st))) st1)
  end.
Proof.
  cbv zeta. unfold addToPlaylist, bind, modify. cbn [fst snd].
  rewrite updatePlaylistUI_spec. cbn [playlist set_playlist fst snd].
  destruct (fst (labelsOf (playlist st ++ [track v t a]))); reflexivity.
Qed.

Lemma addToPlaylist_playlist v t a st :
  playlist (exec (addToPlaylist v t a) st) = playlist st ++ [track v t a].
Proof.
  unfold exec. rewrite addToPlaylist_spec.
  destruct (fst (labelsOf _)); reflexivity.
Qed.

Lemma addToPlaylist_cursor v t a st :
  currentIndex (exec (addToPlaylist v t a) st) = currentIndex st.
Proof.
  unfold exec. rewrite addToPlaylist_spec.
  destruct (fst (labelsOf _)); reflexivity.
Qed.

Lemma parseInt_cases s : parseInt s = NaN \/ exists z, parseInt s = Int z.
Proof.
  unfold parseInt.
  destruct (match trimStart s with
            | [] => (1%Z, trimStart s)
            | c :: r => if (c =? 45)%N then ((-1)%Z, r)
                        else if (c =? 43)%N then (1%Z, r) else (1%Z, trimStart s)
            end) as [sign s2].
  destruct (match s2 with
            | z :: x :: r =>
                if ((z =? 48) && ((x =? 120) || (x =? 88)))%N then (16%Z, r) else (10%Z, s2)
            | _ => (10%Z, s2)
            end) as [radix s3].
  destruct (digitsValue radix s3 None); eauto.
Qed.

Lemma loadVideo_NaN st : loadVideo NaN st = (inr tt, st).
Proof. reflexivity. Qed.

(** What [loadVideo] leaves of the list and the cursor, for any number
    [parseInt] can return. *)
Lemma loadVideo_parsed n st :
  (n = NaN \/ exists z, n = Int z) ->
  playlist (exec (loadVideo n) st) = playlist st /\
  (currentIndex (exec (loadVideo n) st) = n \/
   currentIndex (exec (loadVideo n) st) = currentIndex st).
Proof.
  intros [->|[z ->]].
  - unfold exec. rewrite loadVideo_NaN. auto.
  - rewrite loadVideo_playlist, loadVideo_cursor. split; [reflexivity|].
    destruct (_ && _); auto.
Qed.

Lemma restoreVolume_playlist st :
  playlist (exec restoreVolume st) = playlist st /\
  currentIndex (exec restoreVolume st) = currentIndex st /\
  storage (exec restoreVolume st) = storage st.
Proof.
  unfold exec, restoreVolume, bind, gets. cbn [fst snd].
  destruct (youtubePlayerVolume (storage st)); [|auto].
  unfold modify, call. cbn.
  destruct (num_eqb _ _); cbn; auto.
Qed.

Lemma restore_missing st :
  youtubePlaylist (storage st) = None \/ youtubePlaylist (storage st) = Some [] ->
  loadPlaylistFromStorage st = inr (exec restoreVolume st).
Proof.
  intros H. unfold loadPlaylistFromStorage.
  destruct H as [-> | ->]; reflexivity.
Qed.

Lemma restore_parse_error st text e :
  youtubePlaylist (storage st) = Some text -> text <> [] ->
  JSON_parse text = inl e ->
  loadPlaylistFromStorage st = inl e.
Proof.
  intros H Hne Hp. unfold loadPlaylistFromStorage. rewrite H.
  destruct text; [contradiction|]. cbn [nonEmpty]. now rewrite Hp.
Qed.

Lemma restore_not_array st text v :
  youtubePlaylist (storage st) = Some text -> text <> [] ->
  JSON_parse text = inr v -> (forall items, v <> VArr items) ->
  loadPlaylistFromStorage st = inl TypeError.
Proof.
  intros H Hne Hp Hv. unfold loadPlaylistFromStorage. rewrite H.
  destruct text; [contradiction|]. cbn [nonEmpty]. rewrite Hp.
  destruct v; try reflexivity. exfalso. eapply Hv. reflexivity.
Qed.

Lemma restore_array st st' text items :
  youtubePlaylist (storage st) = Some text -> text <> [] ->
  JSON_parse text = inr (VArr items) ->
  loadPlaylistFromStorage st = inr st' ->
  playlist st' = items /\
  currentIndex st' = storedCursor (currentIndexItem (storage st)).
Proof.
  intros H Hne Hp. unfold loadPlaylistFromStorage.
  rewrite H. destruct text; [contradiction|]. cbn [nonEmpty]. rewrite Hp.
  fold (storedCursor (currentIndexItem (storage st))).
  set (index := storedCursor (currentIndexItem (storage st))).
  assert (Hi : index = NaN \/ exists z, index = Int z).
  { subst index. unfold storedCursor. destruct (currentIndexItem (storage st)) as [i|]; [|eauto].
    destruct (nonEmpty i); [apply parseInt_cases | eauto]. }
  unfold uncaught, bind, modify. cbn [fst snd].
  rewrite updatePlaylistUI_spec. cbn [fst snd playlist set_playlist set_currentIndex].
  destruct (fst (labelsOf items)); [discriminate|].
  unfold when.
  destruct (0 <? length items)%nat.
  - set (st2 := set_playlistItems _ _).
    destruct (loadVideo_parsed index st2 Hi) as [Hpl Hci].
    unfold exec in Hpl, Hci.
    destruct (loadVideo index st2) as [[e|[]] st3]; [discriminate|].
    intros [= <-]. simpl in Hpl, Hci. split; [exact Hpl|].
    destruct Hci as [Hci|Hci]; exact Hci.
  - unfold ret. intros [= <-]. auto.
Qed.

End RestoreFacts.

Module PlayFacts.
Import Controller ControllerFacts NumberFacts.

(** [playNextVideo] when the step lands on index [i], which holds an
    entry with an [id]. *)
Lemma playNextVideo_loads st i entry vid :
  playlist st <> [] ->
  num_rem (num_add (currentIndex st) (Int 1))
    (Int (Z.of_nat (length (playlist st)))) = Int i ->
  (0 <= i)%Z ->
  nth_error (playlist st) (Z.to_nat i) = Some entry ->
  get entry "id" = inr vid ->
  let st' := exec playNextVideo st in
  currentIndex st' = Int i
  /\ currentVideoId st' = vid
  /\ calls (player st') = calls (player st) ++ [LoadVideoById vid]
  /\ playlist st' = playlist st.
Proof.
  intros Hne Hi H0 Hnth Hid. unfold exec.
  rewrite playNextVideo_step by assumption. cbv zeta. rewrite Hi.
  rewrite loadVideo_Int. cbn [playlist set_currentIndex].
  assert (Hlt : (Z.to_nat i < length (playlist st))%nat).
  { apply nth_error_Some. congruence. }
  replace ((0 <=? i)%Z && (i <? Z.of_nat (length (playlist st)))%Z) with true.
  2:{ symmetry. apply andb_true_iff. split; [apply Z.leb_le | apply Z.ltb_lt]; lia. }
  rewrite (nth_error_nth _ _ _ Hnth), Hid. cbn. auto.
Qed.

End PlayFacts.

(* ================================================================== *)
(** * Facts about adding a video                                     *)
(* ================================================================== *)

Module AddFacts.
Import Controller ControllerFacts NumberFacts RestoreFacts ExtractFacts.

Lemma extract_nonempty url id : extractVideoId url = Some id -> url <> [] /\ id <> [].
Proof.
  intros H. split.
  - intros ->. discriminate H.
  - apply extract_length in H. intros ->. discriminate H.
Qed.

(** An entry that [updatePlaylistUI] can draw has properties to read. *)
Lemma entryLabel_get v label k : entryLabel v = inr label -> exists x, get v k = inr x.
Proof.
  destruct v; try discriminate; simpl; eauto.
  destruct (lookup (str k) props); eauto.
Qed.

Lemma renders_head v rest : renders (v :: rest) -> exists label, entryLabel v = inr label.
Proof.
  unfold renders. simpl. destruct (entryLabel v); [discriminate | eauto].
Qed.

Lemma renders_app_track items v t a :
  renders items -> renders (items ++ [track v (VStr t) (VStr a)]).
Proof.
  unfold renders. intros H. rewrite labelsOf_app, H. reflexivity.
Qed.

(** [addVideoToPlaylist] when the input does not resolve: a notice, and
    nothing else moves. *)
Lemma addVideoToPlaylist_unresolved st :
  extractVideoId (trim (videoUrl st)) = None ->
  exec addVideoToPlaylist st =
  match trim (videoUrl st) with
  | [] => st
  | _ => set_alerts (alerts st ++ [str "Invalid YouTube URL or ID"]) st
  end.
Proof.
  intros H. unfold exec, addVideoToPlaylist, bind, gets. cbn [fst snd].
  destruct (trim (videoUrl st)); [reflexivity|]. rewrite H. reflexivity.
Qed.

(** [addVideoToPlaylist] when the input resolves to [id]. *)
Lemma addVideoToPlaylist_resolved st id :
  extractVideoId (trim (videoUrl st)) = Some id ->
  addVideoToPlaylist st =
  bind (addToPlaylist (VStr id) (VStr (str "Loading...")) (VStr (str "Loading...")))
    (fun _ => bind (modify (set_videoUrl []))
    (fun _ => bind (gets playlist)
    (fun items => when (length items =? 1)%nat (loadVideo (Int 0))))) st.
Proof.
  intros H. destruct (extract_nonempty _ _ H) as [Hu Hi].
  unfold addVideoToPlaylist at 1. unfold bind at 1, gets at 1. cbn [fst snd].
  destruct (trim (videoUrl st)); [contradiction|]. rewrite H.
  destruct id; [contradiction | reflexivity].
Qed.

End AddFacts.

(* ================================================================== *)
(** * Facts about the volume slider                                  *)
(* ================================================================== *)

Module VolumeFacts.
Import Controller.

(** The slider handler, spelled out: [x] is the value the slider holds
    once it has been asked for [v]. *)
Lemma slideVolume_spec v st :
  exec (slideVolume v) st =
  let x := rangeValue sliderMin sliderMax v in
  let zero := num_eqb (parseInt x) (Int 0) in
  let p := player st in
  set_player
    (mkPlayer
       (calls p ++ SetVolume (parseInt x)
          :: (if zero then [Mute] else if muted p then [UnMute] else []))
       zero (videoData p))
    (set_storage
       (mkStorage (youtubePlaylist (storage st)) (currentIndexItem (storage st)) (Some x))
       (set_volumeValue x (set_volumeSlider x st))).
Proof.
  cbv zeta.
  unfold exec, slideVolume, assignSlider, onVolumeInput, bind, modify, gets, call,
    setItem_youtubePlayerVolume, when, ret.
  generalize (rangeValue sliderMin sliderMax v) as y. intros y.
  cbn. destruct (num_eqb (parseInt y) (Int 0)) eqn:E; cbn.
  - now rewrite <- app_assoc.
  - destruct (muted (player st)); cbn.
    + now rewrite <- app_assoc.
    + reflexivity.
Qed.

(** Printing an integer of the slider range and reading it back. *)
Lemma parseInt_numberToString n : (0 <= n <= 100)%Z ->
  parseInt (numberToString (Int n)) = Int n.
Proof.
  intros H.
  assert (A : forallb (fun k => num_eqb (parseInt (numberToString (Int (Z.of_nat k))))
                                  (Int (Z.of_nat k))) (seq 0 101) = true)
    by (vm_compute; reflexivity).
  rewrite forallb_forall in A.
  specialize (A (Z.to_nat n)). rewrite Z2Nat.id in A by lia.
  assert (Hin : In (Z.to_nat n) (seq 0 101)) by (apply in_seq; lia).
  apply A in Hin.
  destruct (parseInt (numberToString (Int n))) as [|m d]; [discriminate|].
  unfold num_eqb in Hin. apply andb_true_iff in Hin. destruct Hin as [H1 H2].
  apply Z.eqb_eq in H1. apply N.eqb_eq in H2. now subst.
Qed.

End VolumeFacts.

(* ================================================================== *)
(** * Facts about the display: applying a snapshot                   *)
(* ================================================================== *)

Module DisplayFacts.
Import Display.


Lemma display_set_playlistItems_same st : set_playlistItems (playlistItems st) st = st.
Proof. now destruct st. Qed.

Lemma display_renderItems_spec items : forall st,
  renderItems items st =
  (fst (labelsOf items),
   set_playlistItems (playlistItems st ++ snd (labelsOf items)) st).
Proof.
  induction items as [|video rest IH]; intros st; simpl.
  - unfold ret. now rewrite app_nil_r, display_set_playlistItems_same.
  - unfold bind, lift, modify.
    destruct (entryLabel video) as [e|label]; simpl.
    + now rewrite app_nil_r, display_set_playlistItems_same.
    + rewrite IH. cbn. now rewrite <- app_assoc.
Qed.

Lemma display_updatePlaylistUI_spec page st :
  updatePlaylistUI page st =
  if negb (hasPlaylistElement page) then (inr tt, st)
  else
    match playlist st with
    | VArr items => (fst (labelsOf items), set_playlistItems (snd (labelsOf items)) st)
    | _ => (inl TypeError, set_playlistItems [] st)
    end.
Proof.
  unfold updatePlaylistUI. destruct (hasPlaylistElement page); [|reflexivity].
  unfold bind, modify, gets, throw. cbn.
  destruct (playlist st); try reflexivity.
  now rewrite display_renderItems_spec.
Qed.

Lemma display_savePlaylistToStorage_spec st :
  savePlaylistToStorage st =
  let sto := mkStorage (Some (JSON_stringify (playlist st)))
               (currentIndexItem (storage st)) in
  match methodToString (currentIndex st) with
  | inl e => (inl e, set_storage sto st)
  | inr text =>
      (inr tt, set_storage (mkStorage (Some (JSON_stringify (playlist st))) (Some text)) st)
  end.
Proof.
  unfold savePlaylistToStorage, bind, gets, modify, lift. cbn.
  destruct (methodToString (currentIndex st)); reflexivity.
Qed.

Ltac simp :=
  cbn [fst snd replica link playlist currentIndex socket reconnectAttempts songInfo
       playlistItems volumeSlider volumeValue storage sent timers discoveries
       set_playlist set_currentIndex set_socket set_reconnectAttempts set_songInfo
       set_playlistItems set_volumeSlider set_volumeValue set_storage set_sent
       set_timers set_discoveries youtubePlaylist currentIndexItem] in *.

(** Split on the innermost scrutinee of the goal. *)
Ltac step :=
  match goal with
  | |- context [match ?x with _ => _ end] =>
      lazymatch x with
      | context [match _ with _ => _ end] => fail
      | _ => destruct x eqn:?
      end
  end.

Ltac unfold_handlers :=
  unfold replica, link, exec, updateSongInfo, wrapped, direct, showNowPlaying,
    restartMarqueeAnimation, setTimeout;
  unfold bind, lift, modify, when, ret, throw, gets.

Ltac crush :=
  repeat (simp;
          first [ rewrite display_updatePlaylistUI_spec
                | rewrite display_savePlaylistToStorage_spec
                | step ]);
  simp; try reflexivity; try congruence;
  try (repeat f_equal; congruence).

Lemma direct_idempotent page data st :
  replica (exec (direct page data) (exec (direct page data) st)) =
  replica (exec (direct page data) st).
Proof. unfold_handlers. crush. Qed.


(** A wrapped message that is not a complete nowPlaying leaves the page
    as it is and lets [updateSongInfo] go on. *)
Lemma wrapped_false page data command st st' :
  wrapped page data command st = (inr false, st') -> st' = st.
Proof.
  unfold wrapped, showNowPlaying, restartMarqueeAnimation, setTimeout.
  unfold bind, lift, modify, when, ret, throw, gets.
  repeat (simp; first [ rewrite display_updatePlaylistUI_spec
                      | rewrite display_savePlaylistToStorage_spec
                      | step ]);
  simp; intros H; try discriminate H; try (now injection H as <-).
Qed.

Lemma wrapped_idempotent page data command st :
  replica (exec (wrapped page data command) (exec (wrapped page data command) st)) =
  replica (exec (wrapped page data command) st)
  /\ fst (wrapped page data command (exec (wrapped page data command) st)) =
     fst (wrapped page data command st).
Proof. unfold_handlers. crush; split; simp; try reflexivity; try congruence;
  try (repeat f_equal; congruence). Qed.


(** Whether a wrapped message is passed on depends on the message only. *)
Lemma wrapped_false_any page data command st st' :
  fst (wrapped page data command st) = inr false ->
  wrapped page data command st' = (inr false, st').
Proof.
  unfold wrapped, showNowPlaying, restartMarqueeAnimation, setTimeout.
  unfold bind, lift, modify, when, ret, throw, gets.
  repeat (simp; first [ rewrite !display_updatePlaylistUI_spec
                      | rewrite !display_savePlaylistToStorage_spec
                      | step ]);
  simp; intros H; try discriminate H; try reflexivity.
Qed.

(** [updateSongInfo], spelled out down to its two snapshot branches. *)
Lemma updateSongInfo_cases page data st :
  updateSongInfo page data st =
  match get data "command" with
  | inl e => (inl e, st)
  | inr command =>
      if isString command "pong" then (inr tt, st)
      else
        match get data "value" with
        | inl e => (inl e, st)
        | inr value =>
            if isString command "volumeUpdate" && defined value then
              if hasVolumeControls page then
                match domString value with
                | inl e => (inl e, st)
                | inr text => (inr tt, set_volumeValue text (set_volumeSlider text st))
                end
              else (inr tt, st)
            else
              match wrapped page data command st with
              | (inl e, st1) => (inl e, st1)
              | (inr true, st1) => (inr tt, st1)
              | (inr false, st1) => direct page data st1
              end
        end
  end.
Proof.
  unfold updateSongInfo, bind, lift.
  destruct (get data "command") as [e|command]; [reflexivity|].
  destruct (isString command "pong"); [reflexivity|].
  destruct (get data "value") as [e|value]; [reflexivity|].
  destruct (isString command "volumeUpdate" && defined value).
  - unfold when. destruct (hasVolumeControls page); [|reflexivity].
    unfold modify. destruct (domString value); reflexivity.
  - destruct (wrapped page data command st) as [[e|[|]] st1]; reflexivity.
Qed.

Lemma updateSongInfo_idempotent page data st :
  replica (exec (updateSongInfo page data) (exec (updateSongInfo page data) st)) =
  replica (exec (updateSongInfo page data) st).
Proof.
  unfold exec. rewrite !updateSongInfo_cases.
  destruct (get data "command") as [e|command]; [reflexivity|].
  destruct (isString command "pong"); [reflexivity|].
  destruct (get data "value") as [e|value]; [reflexivity|].
  destruct (isString command "volumeUpdate" && defined value).
  { destruct (hasVolumeControls page); [|reflexivity].
    destruct (domString value); reflexivity. }
  destruct (wrapped_idempotent page data command st) as [H1 H2].
  unfold exec in H1, H2.
  destruct (wrapped page data command st) as [[e|[|]] st1] eqn:W;
    cbn [fst snd] in *.
  - destruct (wrapped page data command st1) as [r st2]. cbn [fst snd] in *.
    subst r. exact H1.
  - destruct (wrapped page data command st1) as [r st2]. cbn [fst snd] in *.
    subst r. exact H1.
  - pose proof (wrapped_false _ _ _ _ _ W) as ->.
    assert (F : fst (wrapped page data command st) = inr false) by now rewrite W.
    rewrite (wrapped_false_any page data command st (snd (direct page data st)) F).
    apply direct_idempotent.
Qed.

(** The same for a frame as it arrives on the socket. *)
Lemma onmessage_idempotent page frame st :
  replica (exec (onmessage page frame) (exec (onmessage page frame) st)) =
  replica (exec (onmessage page frame) st).
Proof.
  unfold exec, onmessage, try_catch. cbn [fst snd].
  unfold bind, lift. destruct (JSON_parse frame) as [e|data]; [reflexivity|].
  cbn [fst snd]. apply updateSongInfo_idempotent.
Qed.

End DisplayFacts.

(* ================================================================== *)
(** * Rules for what a handler preserves                               *)
(* ================================================================== *)

Module EffFacts.

Section Rules.

Context {S : Type}.
Variable P : S -> S -> Prop.
Hypothesis P_refl : forall st, P st st.
Hypothesis P_trans : forall a b c, P a b -> P b c -> P a c.

Lemma preserves_ret {A} (a : A) : preserves P (ret a).
Proof. intros st. apply P_refl. Qed.

Lemma preserves_lift {A} (r : error + A) : preserves P (lift r).
Proof. intros st. apply P_refl. Qed.

Lemma preserves_throw {A} e : preserves P (@throw S A e).
Proof. intros st. apply P_refl. Qed.

Lemma preserves_gets {A} (f : S -> A) : preserves P (gets f).
Proof. intros st. apply P_refl. Qed.

Lemma preserves_modify f : (forall st, P st (f st)) -> preserves P (modify f).
Proof. intros H st. apply H. Qed.

Lemma preserves_bind {A B} (c : M S A) (k : A -> M S B) :
  preserves P c -> (forall a, preserves P (k a)) -> preserves P (bind c k).
Proof.
  intros Hc Hk st. unfold bind. specialize (Hc st).
  destruct (c st) as [[e|a] st1]; cbn [snd] in *; [exact Hc|].
  eapply P_trans; [exact Hc | apply Hk].
Qed.

Lemma preserves_when b (c : M S unit) : preserves P c -> preserves P (when b c).
Proof. intros H. destruct b; [exact H | apply preserves_ret]. Qed.

Lemma preserves_try (c : M S unit) : preserves P c -> preserves P (try_catch c).
Proof. intros H st. apply H. Qed.

End Rules.

End EffFacts.

Module LinkFacts.
Import Display DisplayFacts EffFacts.

Lemma sameLink_refl st : sameLink st st.
Proof. reflexivity. Qed.

Lemma sameLink_trans a b c : sameLink a b -> sameLink b c -> sameLink a c.
Proof. unfold sameLink. congruence. Qed.

Lemma marqueeStep_refl st : marqueeStep st st.
Proof. now left. Qed.

Lemma marqueeStep_trans a b c : marqueeStep a b -> marqueeStep b c -> marqueeStep a c.
Proof.
  unfold marqueeStep, rendered. intros [H1|[t [x H1]]] [H2|H2]; auto.
  - left. congruence.
  - right. exists t, x. congruence.
Qed.

(** One rule application, for either relation. *)
Ltac rule refl trans :=
  lazymatch goal with
  | |- preserves _ (ret _) => apply (preserves_ret _ refl)
  | |- preserves _ (lift _) => apply (preserves_lift _ refl)
  | |- preserves _ (throw _) => apply (preserves_throw _ refl)
  | |- preserves _ (gets _) => apply (preserves_gets _ refl)
  | |- preserves _ (when _ _) => apply (preserves_when _ refl)
  | |- preserves _ (try_catch _) => apply (preserves_try _)
  | |- preserves _ (bind _ _) => apply (preserves_bind _ trans); [|intros ?]
  | |- preserves _ (modify _) => apply preserves_modify; intros ?
  | |- preserves _ (if ?b then _ else _) => destruct b
  | |- preserves _ (match ?x with _ => _ end) => destruct x
  end.

Lemma renderItems_sameLink items : preserves sameLink (renderItems items).
Proof.
  intros st. rewrite display_renderItems_spec. reflexivity.
Qed.

Lemma renderItems_marquee items : preserves marqueeStep (renderItems items).
Proof.
  intros st. rewrite display_renderItems_spec. now left.
Qed.

Lemma updateSongInfo_sameLink page data :
  preserves sameLink (updateSongInfo page data).
Proof.
  unfold updateSongInfo, wrapped, direct, showNowPlaying, updatePlaylistUI,
    savePlaylistToStorage, restartMarqueeAnimation, setTimeout.
  repeat (rule sameLink_refl sameLink_trans);
    try reflexivity; try apply renderItems_sameLink.
Qed.

Lemma updateSongInfo_marquee page data :
  preserves marqueeStep (updateSongInfo page data).
Proof.
  unfold updateSongInfo, wrapped, direct, showNowPlaying, updatePlaylistUI,
    savePlaylistToStorage, restartMarqueeAnimation, setTimeout.
  repeat (rule marqueeStep_refl marqueeStep_trans);
    try (now left); try apply renderItems_marquee;
    try (right; eexists; eexists; reflexivity).
Qed.

Lemma onmessage_link page frame st : link (exec (onmessage page frame) st) = link st.
Proof.
  assert (H : preserves sameLink (onmessage page frame)); [|apply H].
  unfold onmessage. apply preserves_try.
  apply (preserves_bind _ sameLink_trans).
  - apply (preserves_lift _ sameLink_refl).
  - intros data. apply updateSongInfo_sameLink.
Qed.

(** After a message the marquee is as before, or it shows a snapshot. *)
Lemma onmessage_songInfo page frame st :
  songInfo (exec (onmessage page frame) st) = songInfo st \/
  rendered (exec (onmessage page frame) st).
Proof.
  assert (H : preserves marqueeStep (onmessage page frame)); [|apply H].
  unfold onmessage. apply preserves_try.
  apply (preserves_bind _ marqueeStep_trans).
  - apply (preserves_lift _ marqueeStep_refl).
  - intros data. apply updateSongInfo_marquee.
Qed.

Lemma rendered_not_connected st : rendered st -> songInfo st <> connectedText.
Proof. intros [t [a H]] E. rewrite H in E. discriminate E. Qed.

Lemma run_cons page e es st : run page (e :: es) st = run page es (deliver page e st).
Proof. reflexivity. Qed.

Lemma run_app page es1 es2 st : run page (es1 ++ es2) st = run page es2 (run page es1 st).
Proof. unfold run. apply fold_left_app. Qed.

Lemma run_messages_link page msgs : forall st,
  link (run page (map SocketMessage msgs) st) = link st.
Proof.
  induction msgs as [|frame msgs IH]; intros st; [reflexivity|].
  cbn [map]. rewrite run_cons, IH. apply onmessage_link.
Qed.

Lemma run_messages_songInfo page msgs : forall st,
  songInfo (run page (map SocketMessage msgs) st) = songInfo st \/
  rendered (run page (map SocketMessage msgs) st).
Proof.
  induction msgs as [|frame msgs IH]; intros st; [left; reflexivity|].
  cbn [map]. rewrite run_cons. cbn [deliver].
  destruct (IH (exec (onmessage page frame) st)) as [H|H]; [|now right].
  destruct (onmessage_songInfo page frame st) as [H'|[t [a H']]].
  - left. congruence.
  - right. exists t, a. congruence.
Qed.

End LinkFacts.

(* ================================================================== *)
(** * Facts about the display: opening and closing                   *)
(* ================================================================== *)

Module ReconnectFacts.
Import Display DisplayFacts LinkFacts.

(** The channel opens: the marquee, the counter, one request, one
    2-second timeout. *)
Lemma deliver_open page st :
  deliver page SocketOpen st =
  set_timers (timers st ++ [(2000, RequestAgain)])
    (set_sent (sent st ++ [requestFrame])
       (set_reconnectAttempts 0
          (set_songInfo connectedText (set_socket (Some OPEN) st)))).
Proof. reflexivity. Qed.

(** The 2-second timeout fires. *)
Lemma fire_requestAgain page st i delay :
  nth_error (timers st) i = Some (delay, RequestAgain) ->
  deliver page (TimerFires i) st =
  let st1 := set_timers (removeNth i (timers st)) st in
  if str_eqb (songInfo st) connectedText && isOpen st
  then set_sent (sent st ++ [requestFrame]) st1
  else st1.
Proof.
  intros H. unfold deliver. rewrite H.
  destruct st as [pl ci so ra si pi vs vv sto se ti di].
  unfold exec, runTimer, requestAgain, send, when, bind, gets, modify, ret, throw, isOpen.
  cbn [fst snd songInfo socket timers set_timers].
  destruct (str_eqb si connectedText); [|reflexivity].
  destruct so as [[| | |]|]; reflexivity.
Qed.

Lemma str_eqb_refl s : str_eqb s s = true.
Proof. induction s as [|c s IH]; simpl; [reflexivity|]. now rewrite N.eqb_refl. Qed.

Lemma str_eqb_eq a : forall b, str_eqb a b = true -> a = b.
Proof.
  induction a as [|x a IH]; intros [|y b]; simpl; try discriminate; [reflexivity|].
  intros H. apply andb_true_iff in H. destruct H as [H1 H2].
  apply N.eqb_eq in H1. apply IH in H2. congruence.
Qed.

(** [socket.onclose] after an unclean close, spelled out. *)
Lemma deliver_unclean_close page st :
  deliver page (SocketClose false) st =
  let a := reconnectAttempts st in
  let st1 :=
    set_timers (timers st ++ [(reconnectDelay a, Reconnect)])
      (set_socket (Some CLOSED) st) in
  set_songInfo waitingText
    (if (3 <=? a + 1)%Z then
       set_reconnectAttempts 0
         (if hasAutoReconnect page
          then set_discoveries (S (discoveries st)) (set_reconnectAttempts (a + 1) st1)
          else set_reconnectAttempts (a + 1) st1)
     else set_reconnectAttempts (a + 1) st1).
Proof.
  destruct st as [pl ci so ra si pi vs vv sto se ti di].
  unfold deliver, exec, onclose, setTimeout, when, bind, gets, modify, ret.
  cbn [negb fst snd reconnectAttempts set_socket set_timers set_reconnectAttempts].
  destruct (3 <=? ra + 1)%Z; [|reflexivity].
  destruct (hasAutoReconnect page); reflexivity.
Qed.

(** A clean close schedules nothing. *)
Lemma deliver_clean_close page st :
  deliver page (SocketClose true) st =
  set_songInfo waitingText (set_socket (Some CLOSED) st).
Proof. reflexivity. Qed.

Lemma reconnectDelay_first :
  reconnectDelay 0 = 1000%Q /\ reconnectDelay 1 = 1500%Q /\ reconnectDelay 2 = 2250%Q.
Proof. repeat split; reflexivity. Qed.

Lemma reconnectDelay_value a :
  (reconnectDelay a == Qmin (1000 * Qpower (3 # 2) a) 30000)%Q.
Proof. unfold reconnectDelay. apply Qred_correct. Qed.

Lemma reconnectDelay_capped a : (reconnectDelay a <= 30000)%Q.
Proof. rewrite reconnectDelay_value. apply Q.le_min_r. Qed.

Lemma succ_mod3 k :
  (k mod 3 = 2 -> S k mod 3 = 0 /\ S k / 3 = S (k / 3))%nat /\
  (k mod 3 < 2 -> S k mod 3 = S (k mod 3) /\ S k / 3 = k / 3)%nat.
Proof.
  pose proof (Nat.div_mod_eq k 3). pose proof (Nat.div_mod_eq (S k) 3).
  pose proof (Nat.mod_upper_bound k 3). pose proof (Nat.mod_upper_bound (S k) 3).
  lia.
Qed.

End ReconnectFacts.

(* ================================================================== *)
(** * Facts about the cursor                                         *)
(* ================================================================== *)

Module CursorFacts.
Import Controller ControllerFacts NumberFacts RestoreFacts PlayFacts AddFacts ExtractFacts.

Lemma valid_loadVideo i st : validCursor st -> validCursor (exec (loadVideo (Int i)) st).
Proof.
  unfold validCursor. intros H. rewrite loadVideo_playlist, loadVideo_cursor.
  intros Hne.
  destruct ((0 <=? i)%Z && (i <? Z.of_nat (length (playlist st)))%Z) eqn:E.
  - apply andb_true_iff in E. destruct E as [E1 E2].
    apply Z.leb_le in E1. apply Z.ltb_lt in E2. exists i. auto.
  - apply H, Hne.
Qed.

Lemma valid_playNextVideo st : validCursor st -> validCursor (exec playNextVideo st).
Proof.
  intros H. destruct (playlist st) as [|v rest] eqn:Hp.
  - unfold exec, playNextVideo, bind, gets. cbn [fst snd]. rewrite Hp. exact H.
  - assert (Hne : playlist st <> []) by (rewrite Hp; discriminate).
    destruct (H Hne) as [c [Hc Hr]].
    destruct (playNextVideo_valid st c Hne Hc Hr) as [H1 H2].
    intros _. rewrite H1, H2. eexists. split; [reflexivity|].
    apply Z.mod_pos_bound. lia.
Qed.

Lemma valid_playPreviousVideo st :
  validCursor st -> validCursor (exec playPreviousVideo st).
Proof.
  intros H. destruct (playlist st) as [|v rest] eqn:Hp.
  - unfold exec, playPreviousVideo, bind, gets. cbn [fst snd]. rewrite Hp. exact H.
  - assert (Hne : playlist st <> []) by (rewrite Hp; discriminate).
    destruct (H Hne) as [c [Hc Hr]].
    destruct (playPreviousVideo_valid st c Hne Hc Hr) as [H1 H2].
    intros _. rewrite H1, H2. eexists. split; [reflexivity|].
    apply Z.mod_pos_bound. lia.
Qed.

(** After [addToPlaylist] the cursor is still an index if it was one and
    the list was not empty. *)
Lemma valid_addToPlaylist v t a st :
  playlist st <> [] -> validCursor st -> validCursor (exec (addToPlaylist v t a) st).
Proof.
  intros Hne H _. rewrite addToPlaylist_playlist, addToPlaylist_cursor.
  destruct (H Hne) as [c [Hc Hr]]. exists c. split; [exact Hc|].
  rewrite length_app. simpl. lia.
Qed.

Lemma exec_bind_raise {A B} (c : M State A) (k : A -> M State B) st e :
  fst (c st) = inl e -> exec (bind c k) st = exec c st.
Proof. unfold exec, bind. destruct (c st) as [[e'|a] st1]; [reflexivity | discriminate]. Qed.

Lemma exec_bind_ok {A B} (c : M State A) (k : A -> M State B) st a :
  fst (c st) = inr a -> exec (bind c k) st = exec (k a) (exec c st).
Proof.
  unfold exec, bind. destruct (c st) as [[e'|a'] st1]; [discriminate|].
  cbn. now intros [= ->].
Qed.

Lemma valid_addVideoToPlaylistById id st :
  validCursor st -> validCursor (exec (addVideoToPlaylistById id) st).
Proof.
  intros H. unfold addVideoToPlaylistById.
  set (add := addToPlaylist (VStr id) (VStr (str "Loading...")) (VStr (str "Loading..."))).
  destruct (fst (add st)) as [e|[]] eqn:E.
  - rewrite (exec_bind_raise _ _ _ _ E).
    destruct (playlist st) as [|v rest] eqn:Hp.
    + exfalso. subst add. rewrite addToPlaylist_spec in E. cbv zeta in E.
      rewrite Hp in E. cbn [app labelsOf] in E. rewrite entryLabel_track in E.
      cbn [fst snd] in E. discriminate E.
    + apply valid_addToPlaylist; [rewrite Hp; discriminate | exact H].
  - rewrite (exec_bind_ok _ _ _ _ E).
    intros _. rewrite loadVideo_playlist, loadVideo_cursor.
    subst add. rewrite addToPlaylist_playlist, length_app. cbn [length].
    replace ((0 <=? 0)%Z && (0 <? Z.of_nat (length (playlist st) + 1))%Z) with true
      by (symmetry; apply andb_true_iff; split; [reflexivity | apply Z.ltb_lt; lia]).
    exists 0%Z. split; [reflexivity | lia].
Qed.

Lemma valid_set_alerts x st : validCursor st -> validCursor (set_alerts x st).
Proof. exact (fun H => H). Qed.

Lemma valid_addVideoToPlaylist st :
  validCursor st -> validCursor (exec addVideoToPlaylist st).
Proof.
  intros H.
  destruct (extractVideoId (trim (videoUrl st))) as [id|] eqn:E.
  2:{ rewrite (addVideoToPlaylist_unresolved st E).
      destruct (trim (videoUrl st)); [exact H | apply valid_set_alerts, H]. }
  unfold exec. rewrite (addVideoToPlaylist_resolved st id E). fold (exec
    (bind (addToPlaylist (VStr id) (VStr (str "Loading...")) (VStr (str "Loading...")))
       (fun _ => bind (modify (set_videoUrl []))
       (fun _ => bind (gets playlist)
       (fun items => when (length items =? 1)%nat (loadVideo (Int 0)))))) st).
  set (add := addToPlaylist (VStr id) (VStr (str "Loading...")) (VStr (str "Loading..."))).
  destruct (fst (add st)) as [e|[]] eqn:Ea.
  - rewrite (exec_bind_raise _ _ _ _ Ea).
    destruct (playlist st) as [|v rest] eqn:Hp.
    + exfalso. subst add. rewrite addToPlaylist_spec in Ea. cbv zeta in Ea.
      rewrite Hp in Ea. cbn [app labelsOf] in Ea. rewrite entryLabel_track in Ea.
      cbn [fst snd] in Ea. discriminate Ea.
    + apply valid_addToPlaylist; [rewrite Hp; discriminate | exact H].
  - rewrite (exec_bind_ok _ _ _ _ Ea).
    set (st1 := exec add st).
    assert (P1 : playlist st1 = playlist st ++
              [track (VStr id) (VStr (str "Loading...")) (VStr (str "Loading..."))])
      by apply addToPlaylist_playlist.
    assert (C1 : currentIndex st1 = currentIndex st) by apply addToPlaylist_cursor.
    unfold exec at 1, bind at 1, modify at 1. cbn [fst snd].
    unfold bind at 1, gets at 1. cbn [fst snd playlist set_videoUrl].
    unfold when.
    destruct (length (playlist st1) =? 1)%nat eqn:L.
    + fold (exec (loadVideo (Int 0)) (set_videoUrl [] st1)).
      intros _. rewrite loadVideo_playlist, loadVideo_cursor.
      cbn [playlist set_videoUrl]. apply Nat.eqb_eq in L. rewrite L.
      exists 0%Z. cbn. split; [reflexivity | lia].
    + cbn [snd ret]. intros _. cbn [playlist currentIndex set_videoUrl].
      rewrite P1, C1, length_app. cbn [length].
      destruct (playlist st) as [|v rest] eqn:Hp.
      * rewrite P1 in L. rewrite ?Hp in L. cbn in L. discriminate L.
      * destruct (H ltac:(rewrite ?Hp; discriminate)) as [c [Hc Hr]].
        exists c. split; [exact Hc|]. rewrite ?Hp in Hr. cbn [length] in *. lia.
Qed.

Lemma threeTracks_valid : validCursor threeTracks.
Proof. intros _. exists 2%Z. split; [reflexivity | simpl; lia]. Qed.

End CursorFacts.

Module ReplicaFacts.
Import Display DisplayFacts.

(** A direct snapshot with a playlist and a cursor: both are stored as
    they come. *)
Lemma direct_snapshot_stored page st title author pl ci t a :
  truthy title = true -> truthy author = true ->
  toString title = inr t -> toString author = inr a ->
  truthy pl = true -> defined ci = true ->
  let st' := exec (updateSongInfo page (snapshot title author pl ci)) st in
  playlist st' = pl /\ currentIndex st' = ci.
Proof.
  intros Ht Ha Hts Has Hpl Hci. cbv zeta. unfold exec.
  rewrite updateSongInfo_cases.
  change (get (snapshot title author pl ci) "command") with (@inr error _ VUndefined).
  change (get (snapshot title author pl ci) "value") with (@inr error _ VUndefined).
  cbn [isString andb defined].
  unfold wrapped, direct, showNowPlaying, restartMarqueeAnimation, setTimeout.
  unfold bind, lift, modify, when, ret, throw, gets.
  change (get (snapshot title author pl ci) "params") with (@inr error _ VUndefined).
  cbn [fst snd truthy andb].
  change (get (snapshot title author pl ci) "title") with (@inr error _ title).
  change (get (snapshot title author pl ci) "author") with (@inr error _ author).
  change (get (snapshot title author pl ci) "playlist") with (@inr error _ pl).
  change (get (snapshot title author pl ci) "currentIndex") with (@inr error _ ci).
  cbn [fst snd]. rewrite Ht, Ha. cbn [andb fst snd].
  rewrite Hts, Has. cbn [fst snd]. rewrite Hpl, ?Hci. cbn [andb fst snd].
  rewrite ?Hci.
  rewrite display_updatePlaylistUI_spec.
  simp.
  destruct (negb (hasPlaylistElement page)); simp.
  - rewrite display_savePlaylistToStorage_spec. simp. destruct (methodToString ci); simp; auto.
  - destruct pl; simp; auto.
    destruct (fst (labelsOf items)); simp; auto.
    rewrite display_savePlaylistToStorage_spec. simp. destruct (methodToString ci); simp; auto.
Qed.

(** The same snapshot wrapped as a nowPlaying command. *)
Lemma wrapped_snapshot_stored page st title author pl ci t a :
  truthy title = true -> truthy author = true ->
  toString title = inr t -> toString author = inr a ->
  truthy pl = true -> defined ci = true ->
  let st' := exec (updateSongInfo page (nowPlaying (snapshot title author pl ci))) st in
  playlist st' = pl /\ currentIndex st' = ci.
Proof.
  intros Ht Ha Hts Has Hpl Hci. cbv zeta. unfold exec.
  rewrite updateSongInfo_cases.
  unfold wrapped, showNowPlaying, restartMarqueeAnimation, setTimeout.
  unfold bind, lift, modify, when, ret, throw, gets.
  cbn -[updatePlaylistUI savePlaylistToStorage toString truthy defined].
  cbn [truthy snapshot andb]. rewrite Ht, Ha. cbn [andb fst snd].
  rewrite Hts, Has. cbn [fst snd]. rewrite Hpl. cbn [fst snd]. rewrite Hci.
  rewrite display_updatePlaylistUI_spec.
  simp.
  destruct (negb (hasPlaylistElement page)); simp.
  - rewrite display_savePlaylistToStorage_spec. simp. destruct (methodToString ci); simp; auto.
  - destruct pl; simp; auto.
    destruct (fst (labelsOf items)); simp; auto.
    rewrite display_savePlaylistToStorage_spec. simp. destruct (methodToString ci); simp; auto.
Qed.

(** A nowPlaying command with a playlist and no cursor: the playlist is
    taken over, the cursor stays what it was. *)
Lemma wrapped_playlist_without_cursor page st title author pl t a :
  truthy title = true -> truthy author = true ->
  toString title = inr t -> toString author = inr a ->
  truthy pl = true ->
  let st' := exec (updateSongInfo page
                     (nowPlaying (VObj [(str "title", title); (str "author", author);
                                        (str "playlist", pl)]))) st in
  playlist st' = pl /\ currentIndex st' = currentIndex st.
Proof.
  intros Ht Ha Hts Has Hpl. cbv zeta. unfold exec.
  rewrite updateSongInfo_cases.
  unfold wrapped, showNowPlaying, restartMarqueeAnimation, setTimeout.
  unfold bind, lift, modify, when, ret, throw, gets.
  cbn -[updatePlaylistUI savePlaylistToStorage toString truthy defined].
  cbn [truthy andb]. rewrite Ht, Ha. cbn [andb fst snd].
  rewrite Hts, Has. cbn [fst snd]. rewrite Hpl. cbn [fst snd defined].
  rewrite display_updatePlaylistUI_spec.
  simp.
  destruct (negb (hasPlaylistElement page)); simp.
  - rewrite display_savePlaylistToStorage_spec. simp.
    destruct (methodToString (currentIndex st)); simp; auto.
  - destruct pl; simp; auto.
    destruct (fst (labelsOf items)); simp; auto.
    rewrite display_savePlaylistToStorage_spec. simp.
    destruct (methodToString (currentIndex st)); simp; auto.
Qed.

End ReplicaFacts.

(* ================================================================== *)
(** * Facts about digits                                               *)
(* ================================================================== *)

Module DigitFacts.

Lemma digits_fuel_acc fuel : forall p acc,
  digits_fuel fuel p acc = digits_fuel fuel p [] ++ acc.
Proof.
  induction fuel as [|fuel IH]; intros p acc; simpl; [reflexivity|].
  destruct (p <? 10)%Z; [reflexivity|].
  rewrite IH, (IH _ [_]), <- app_assoc. reflexivity.
Qed.

Lemma digits_fuel_unfold f p acc :
  digits_fuel (S f) p acc =
  if (p <? 10)%Z then (48 + Z.to_N p)%N :: acc
  else digits_fuel f (p / 10)%Z ((48 + Z.to_N (p mod 10))%N :: acc).
Proof. reflexivity. Qed.

Lemma tenth_bound p f : (10 <= p < 2 ^ Z.of_nat (S f))%Z -> (0 <= p / 10 < 2 ^ Z.of_nat f)%Z.
Proof.
  intros [H1 H2]. rewrite Nat2Z.inj_succ, Z.pow_succ_r in H2 by lia.
  split; [apply Z.div_pos; lia|].
  apply Z.div_lt_upper_bound; lia.
Qed.

Lemma digits_fuel_S f : forall q,
  (0 <= q < 2 ^ Z.of_nat f)%Z -> (1 <= f)%nat ->
  digits_fuel (S f) q [] = digits_fuel f q [].
Proof.
  induction f as [|f IH]; intros q Hq Hf; [lia|].
  rewrite (digits_fuel_unfold f q []), (digits_fuel_unfold (S f) q []).
  destruct (q <? 10)%Z eqn:E; [reflexivity|].
  apply Z.ltb_ge in E.
  pose proof (tenth_bound q f ltac:(lia)) as Hb.
  assert (1 <= f)%nat.
  { destruct f; [|lia]. simpl in Hb. assert (q / 10 = 0)%Z by lia.
    apply Z.div_small_iff in H; lia. }
  rewrite (digits_fuel_acc (S f)), (digits_fuel_acc f). f_equal. now apply IH.
Qed.

Lemma digits_fuel_more k : forall f q,
  (0 <= q < 2 ^ Z.of_nat f)%Z -> (1 <= f)%nat ->
  digits_fuel (k + f) q [] = digits_fuel f q [].
Proof.
  induction k as [|k IH]; intros f q Hq Hf; [reflexivity|].
  cbn [Nat.add]. rewrite digits_fuel_S; [now apply IH| |lia].
  split; [lia|]. eapply Z.lt_le_trans; [apply Hq|].
  apply Z.pow_le_mono_r; lia.
Qed.

Lemma digits_fuel_any f1 f2 q :
  (0 <= q < 2 ^ Z.of_nat f1)%Z -> (0 <= q < 2 ^ Z.of_nat f2)%Z ->
  (1 <= f1)%nat -> (1 <= f2)%nat ->
  digits_fuel f1 q [] = digits_fuel f2 q [].
Proof.
  intros H1 H2 L1 L2. destruct (Nat.le_ge_cases f1 f2) as [L|L].
  - replace f2 with ((f2 - f1) + f1)%nat by lia. symmetry. now apply digits_fuel_more.
  - replace f1 with ((f1 - f2) + f2)%nat by lia. now apply digits_fuel_more.
Qed.

Lemma log2_budget q : (0 <= q)%Z -> (0 <= q < 2 ^ Z.of_nat (S (Z.to_nat (Z.log2 q))))%Z.
Proof.
  intros H. split; [exact H|].
  rewrite Nat2Z.inj_succ, Z2Nat.id by apply Z.log2_nonneg.
  destruct (Z.eq_dec q 0) as [->|Hn]; [reflexivity|].
  apply Z.log2_spec. lia.
Qed.

Lemma digits_small p : (0 <= p < 10)%Z -> digits p = [(48 + Z.to_N p)%N].
Proof.
  intros H. unfold digits. rewrite digits_fuel_unfold.
  replace (p <? 10)%Z with true by (symmetry; apply Z.ltb_lt; lia). reflexivity.
Qed.

Lemma digits_large p : (10 <= p)%Z ->
  digits p = digits (p / 10) ++ [(48 + Z.to_N (p mod 10))%N].
Proof.
  intros H. unfold digits. rewrite digits_fuel_unfold.
  replace (p <? 10)%Z with false by (symmetry; apply Z.ltb_ge; lia).
  rewrite digits_fuel_acc. f_equal.
  pose proof (log2_budget p ltac:(lia)) as Hb.
  pose proof (tenth_bound p (Z.to_nat (Z.log2 p)) ltac:(lia)) as Ht.
  assert (1 <= Z.to_nat (Z.log2 p))%nat.
  { assert (Z.log2 8 <= Z.log2 p)%Z by (apply Z.log2_le_mono; lia).
    change (Z.log2 8) with 3%Z in *. lia. }
  apply digits_fuel_any; try lia.
  apply log2_budget. apply Z.div_pos; lia.
Qed.

(** Induction on a natural number by its decimal digits. *)
Lemma decimal_ind (P : Z -> Prop) :
  (forall p, (0 <= p < 10)%Z -> P p) ->
  (forall p, (10 <= p)%Z -> P (p / 10)%Z -> P p) ->
  forall p, (0 <= p)%Z -> P p.
Proof.
  intros Hs Hl p. induction p as [p IH] using (well_founded_induction (Z.lt_wf 0)).
  intros Hp.
  destruct (Z_lt_le_dec p 10) as [L|L]; [apply Hs; lia|].
  apply Hl; [lia|]. apply IH.
  - split; [apply Z.div_pos; lia | apply Z.div_lt; lia].
  - apply Z.div_pos; lia.
Qed.

Lemma digits_are_digits p : (0 <= p)%Z -> Forall (fun c => isDigit c = true) (digits p).
Proof.
  revert p. apply decimal_ind.
  - intros p Hp. rewrite digits_small by lia. constructor; [|constructor].
    unfold isDigit. apply andb_true_iff. split; apply N.leb_le; lia.
  - intros p Hp IH. rewrite digits_large by lia. apply Forall_app. split; [exact IH|].
    constructor; [|constructor].
    pose proof (Z.mod_pos_bound p 10 ltac:(lia)).
    unfold isDigit. apply andb_true_iff. split; apply N.leb_le; lia.
Qed.

Lemma digits_nonempty p : digits p <> [].
Proof.
  unfold digits. rewrite digits_fuel_unfold. destruct (p <? 10)%Z; [discriminate|].
  rewrite digits_fuel_acc. intros H. apply app_eq_nil in H. destruct H. discriminate.
Qed.

(** The first digit of a positive number is not zero. *)
Lemma digits_head p : (0 < p)%Z -> exists c r, digits p = c :: r /\ c <> 48%N /\ isDigit c = true.
Proof.
  intros Hp. assert (H0 : (0 <= p)%Z) by lia. revert p H0 Hp.
  apply (decimal_ind (fun p => (0 < p)%Z -> _)).
  - intros p Hp Hpos. rewrite digits_small by lia. eexists _, []. split; [reflexivity|].
    split; [lia|]. unfold isDigit. apply andb_true_iff. split; apply N.leb_le; lia.
  - intros p Hp IH _. rewrite digits_large by lia.
    destruct IH as (c & r & E & Hc & Hd).
    { apply Z.div_str_pos. lia. }
    rewrite E. exists c, (r ++ [(48 + Z.to_N (p mod 10))%N]). auto.
Qed.

Lemma digits_length p n : (0 <= p < 10 ^ Z.of_nat n)%Z -> (1 <= n)%nat ->
  (length (digits p) <= n)%nat.
Proof.
  intros [H0 H]. revert p H0 n H. apply (decimal_ind (fun p => forall n, _ -> _ -> _)).
  - intros p Hp n _ Hn. rewrite digits_small by lia. simpl. lia.
  - intros p Hp IH n Hlt Hn. rewrite digits_large by lia. rewrite length_app. simpl.
    destruct n as [|n]; [lia|].
    assert (1 <= n)%nat.
    { destruct n; [|lia]. simpl in Hlt. lia. }
    specialize (IH n). rewrite Nat2Z.inj_succ, Z.pow_succ_r in Hlt by lia.
    assert (p / 10 < 10 ^ Z.of_nat n)%Z by (apply Z.div_lt_upper_bound; lia).
    specialize (IH H0 H). lia.
Qed.

Lemma parse_digits_app l : forall rest acc cnt,
  Forall (fun c => isDigit c = true) l ->
  parse_digits (l ++ rest) acc cnt =
  parse_digits rest (fold_left (fun a c => a * 10 + (Z.of_N c - 48))%Z l acc)
    (cnt + N.of_nat (length l))%N.
Proof.
  induction l as [|c l IH]; intros rest acc cnt H.
  - simpl. now rewrite N.add_0_r.
  - inversion H as [|? ? Hc Hl]; subst. cbn [app parse_digits]. rewrite Hc.
    rewrite IH by assumption. cbn [fold_left length]. f_equal. lia.
Qed.

Lemma digits_value p : (0 <= p)%Z ->
  fold_left (fun a c => a * 10 + (Z.of_N c - 48))%Z (digits p) 0%Z = p.
Proof.
  revert p. apply decimal_ind.
  - intros p Hp. rewrite digits_small by lia. cbn [fold_left]. lia.
  - intros p Hp IH. rewrite digits_large by lia. rewrite fold_left_app, IH. cbn [fold_left].
    pose proof (Z.mod_pos_bound p 10 ltac:(lia)).
    pose proof (Z.div_mod p 10 ltac:(lia)). lia.
Qed.

(** Reading back the digits of [p], up to a character that is no digit. *)
Lemma parse_digits_digits p rest :
  (0 <= p)%Z ->
  match rest with [] => True | c :: _ => isDigit c = false end ->
  parse_digits (digits p ++ rest) 0 0 = (p, N.of_nat (length (digits p)), rest).
Proof.
  intros Hp Hr. rewrite parse_digits_app by now apply digits_are_digits.
  rewrite digits_value by assumption. rewrite N.add_0_l.
  destruct rest as [|c r]; [reflexivity|]. simpl. now rewrite Hr.
Qed.

End DigitFacts.

(* ================================================================== *)
(** * Facts about numbers as text                                      *)
(* ================================================================== *)

Module NumberTextFacts.
Import DigitFacts.

Lemma dropZeros_spec s : exists j, s = repeat 48%N j ++ dropZeros s.
Proof.
  induction s as [|c s [j IH]]; [exists 0%nat; reflexivity|].
  simpl. destruct (c =? 48)%N eqn:E.
  - apply N.eqb_eq in E. subst c. exists (S j). simpl. now rewrite <- IH.
  - exists 0%nat. reflexivity.
Qed.

Lemma rev_repeat {A} (x : A) n : rev (repeat x n) = repeat x n.
Proof.
  induction n as [|n IH]; [reflexivity|]. simpl. rewrite IH.
  clear IH. induction n as [|n IH]; [reflexivity|]. simpl. now rewrite IH.
Qed.

(** Taking the trailing zeros off and putting them back. *)
Lemma trailing_zeros l :
  let s := rev (dropZeros (rev l)) in
  (length s <= length l)%nat /\ s ++ repeat 48%N (length l - length s) = l.
Proof.
  cbv zeta. destruct (dropZeros_spec (rev l)) as [j Hj].
  assert (E : l = rev (dropZeros (rev l)) ++ repeat 48%N j).
  { rewrite <- (rev_involutive l) at 1. rewrite Hj at 1.
    now rewrite rev_app_distr, rev_repeat. }
  assert (L : length l = (length (rev (dropZeros (rev l))) + j)%nat).
  { rewrite E at 1. now rewrite length_app, repeat_length. }
  split; [lia|].
  replace (length l - length (rev (dropZeros (rev l))))%nat with j by lia.
  now symmetry.
Qed.

(** An integer below 10^21 in absolute value is written with its sign
    and all its digits. *)
Lemma numberToString_Int z :
  z <> 0%Z -> (Z.abs z < 10 ^ 21)%Z ->
  numberToString (Int z) = (if (z <? 0)%Z then str "-" else []) ++ digits (Z.abs z).
Proof.
  intros Hz Hb. unfold numberToString.
  replace (z =? 0)%Z with false by (symmetry; now apply Z.eqb_neq).
  f_equal.
  destruct (trailing_zeros (digits (Z.abs z))) as [L E].
  pose proof (digits_length (Z.abs z) 21 ltac:(split; [lia | exact Hb]) ltac:(lia)) as Hl.
  set (all := digits (Z.abs z)) in *.
  set (s := rev (dropZeros (rev all))) in *.
  change (Z.of_N 0) with 0%Z. rewrite Z.sub_0_r.
  replace ((Z.of_nat (length s) <=? Z.of_nat (length all))%Z
           && (Z.of_nat (length all) <=? 21)%Z) with true
    by (symmetry; apply andb_true_iff; split; apply Z.leb_le; lia).
  unfold zeros.
  replace (Z.to_nat (Z.of_nat (length all) - Z.of_nat (length s)))
    with (length all - length s)%nat by lia.
  exact E.
Qed.

Lemma digit_tests c : isDigit c = true ->
  (c =? 45)%N = false /\ (c =? 43)%N = false /\ isStrWhiteSpace c = false
  /\ digitVal 10 c = Some (Z.of_N c - 48)%Z.
Proof.
  unfold isDigit. intros H. apply andb_true_iff in H. destruct H as [H1 H2].
  apply N.leb_le in H1. apply N.leb_le in H2.
  assert (E : (c = 48 \/ c = 49 \/ c = 50 \/ c = 51 \/ c = 52 \/ c = 53 \/ c = 54
               \/ c = 55 \/ c = 56 \/ c = 57)%N) by lia.
  repeat destruct E as [->|E]; try subst c; repeat split; reflexivity.
Qed.

End NumberTextFacts.

(** Numbers written by [numberToString] are read back by the parser
    of numbers and by [parseInt]. *)
Module NumberRoundTrip.
Import DigitFacts NumberTextFacts.

Lemma numberEnd_frac iv rest : numberEnd rest -> parse_frac iv rest = Some (iv, 0%N, rest).
Proof.
  destruct rest as [|c r]; [reflexivity|]. intros (_ & H & _). simpl.
  now replace (c =? 46)%N with false by (symmetry; now apply N.eqb_neq).
Qed.

Lemma numberEnd_exp rest : numberEnd rest -> parse_exp rest = Some (0%Z, rest).
Proof.
  destruct rest as [|c r]; [reflexivity|]. intros (_ & _ & H1 & H2). simpl.
  replace (c =? 101)%N with false by (symmetry; now apply N.eqb_neq).
  now replace (c =? 69)%N with false by (symmetry; now apply N.eqb_neq).
Qed.

Lemma numberEnd_digit rest : numberEnd rest ->
  match rest with [] => True | c :: _ => isDigit c = false end.
Proof. destruct rest; [auto|]. now intros (H & _). Qed.

Lemma parse_int_digits p rest : (0 < p)%Z -> numberEnd rest ->
  parse_minus (digits p ++ rest) = (false, digits p ++ rest)
  /\ parse_int (digits p ++ rest) = Some (p, rest).
Proof.
  intros Hp Hr. pose proof (parse_digits_digits p rest ltac:(lia) (numberEnd_digit _ Hr)) as E.
  destruct (digits_head p Hp) as (c & r & Ed & Hc & Hd).
  rewrite Ed in *. destruct (digit_tests c Hd) as (H45 & _).
  cbn [app parse_minus parse_int]. rewrite H45, Hd.
  replace (c =? 48)%N with false by (symmetry; now apply N.eqb_neq).
  split; [reflexivity|]. cbn [app] in E. now rewrite E.
Qed.

(** A JSON number written by [numberToString] for an integer reads back
    as that integer. *)
Lemma parse_number_Int z rest :
  (Z.abs z < 10 ^ 21)%Z -> numberEnd rest ->
  parse_number (numberToString (Int z) ++ rest) = POk (Int z) rest.
Proof.
  intros Hb Hr. destruct (Z.eq_dec z 0) as [->|Hz].
  - change (numberToString (Int 0)) with [48%N]. unfold parse_number. cbn.
    rewrite numberEnd_frac, numberEnd_exp by assumption. reflexivity.
  - rewrite numberToString_Int by assumption. unfold parse_number.
    destruct (z <? 0)%Z eqn:E.
    + apply Z.ltb_lt in E. change (str "-") with [45%N]. cbn [app parse_minus].
      change (45 =? 45)%N with true. cbv iota.
      destruct (parse_int_digits (Z.abs z) rest ltac:(lia) Hr) as [_ ->].
      rewrite numberEnd_frac, numberEnd_exp by assumption. cbn.
      f_equal. f_equal. lia.
    + apply Z.ltb_ge in E. cbn [app].
      destruct (parse_int_digits (Z.abs z) rest ltac:(lia) Hr) as [-> ->].
      rewrite numberEnd_frac, numberEnd_exp by assumption. cbn.
      f_equal. f_equal. lia.
Qed.

Lemma digitsValue_digits l : forall a,
  Forall (fun c => isDigit c = true) l ->
  digitsValue 10 l (Some a) =
  Some (fold_left (fun a c => a * 10 + (Z.of_N c - 48))%Z l a).
Proof.
  induction l as [|c l IH]; intros a H; [reflexivity|].
  inversion H as [|? ? Hc Hl]; subst. destruct (digit_tests c Hc) as (_ & _ & _ & Hv).
  cbn [digitsValue fold_left]. rewrite Hv. now apply IH.
Qed.

(** [parseInt(n.toString())] is [n] for an integer below 10^21 in
    absolute value. *)
Lemma parseInt_toString z :
  (Z.abs z < 10 ^ 21)%Z -> parseInt (numberToString (Int z)) = Int z.
Proof.
  intros Hb. destruct (Z.eq_dec z 0) as [->|Hz]; [reflexivity|].
  rewrite numberToString_Int by assumption.
  assert (Hpos : (0 < Z.abs z)%Z) by lia.
  destruct (digits_head _ Hpos) as (c & r & Ed & Hc & Hd).
  pose proof (digits_are_digits (Z.abs z) ltac:(lia)) as Hall.
  pose proof (digits_value (Z.abs z) ltac:(lia)) as Hval.
  rewrite Ed in *. inversion Hall as [|? ? _ Hr]; subst.
  destruct (digit_tests c Hd) as (H45 & H43 & Hws & Hv).
  assert (Hrun : digitsValue 10 (c :: r) None = Some (Z.abs z)).
  { cbn [digitsValue]. rewrite Hv. rewrite digitsValue_digits by assumption.
    cbn [fold_left] in Hval. rewrite Z.mul_0_l, Z.add_0_l in Hval. now rewrite Hval. }
  assert (E48 : (c =? 48)%N = false) by now apply N.eqb_neq.
  unfold parseInt. destruct (z <? 0)%Z eqn:E.
  - apply Z.ltb_lt in E. change (str "-") with [45%N]. cbn [app trimStart].
    change (isStrWhiteSpace 45) with false. cbv iota.
    change (45 =? 45)%N with true. cbv iota.
    destruct r as [|x r0]; cbv beta iota zeta; rewrite ?E48; cbn [andb];
      rewrite Hrun; f_equal; lia.
  - apply Z.ltb_ge in E. cbn [app trimStart]. rewrite Hws, H45, H43.
    destruct r as [|x r0]; cbv beta iota zeta; rewrite ?E48; cbn [andb];
      rewrite Hrun; f_equal; lia.
Qed.

End NumberRoundTrip.

(* ================================================================== *)
(** * Facts about strings in JSON texts                                *)
(* ================================================================== *)

Module QuoteFacts.

Lemma hexVal_hexDigit n : (n < 16)%N -> hexVal (hexDigit n) = Some n.
Proof.
  intros H. rewrite <- (N2Nat.id n).
  assert (Hk : (N.to_nat n < 16)%nat) by lia.
  revert Hk. generalize (N.to_nat n) as k. intros k Hk.
  do 16 (destruct k as [|k]; [reflexivity|]). lia.
Qed.

Lemma hex_recompose c : (c < 65536)%N ->
  ((c / 4096) mod 16 * 4096 + (c / 256) mod 16 * 256 + (c / 16) mod 16 * 16 + c mod 16 = c)%N.
Proof. intros H. zify. Z.to_euclidean_division_equations. lia. Qed.

Lemma parse_chars_u a b c d tail acc :
  parse_chars (92 :: 117 :: a :: b :: c :: d :: tail)%N acc =
  match hexVal a, hexVal b, hexVal c, hexVal d with
  | Some x3, Some x2, Some x1, Some x0 =>
      parse_chars tail ((x3 * 4096 + x2 * 256 + x1 * 16 + x0)%N :: acc)
  | _, _, _, _ => PErr
  end.
Proof. reflexivity. Qed.

(** A character written as a u-escape reads back. *)
Lemma parse_chars_escape c tail acc : (c < 65536)%N ->
  parse_chars (unicodeEscape c ++ tail) acc = parse_chars tail (c :: acc).
Proof.
  intros H. unfold unicodeEscape. cbn [app]. rewrite parse_chars_u.
  rewrite !hexVal_hexDigit by (apply N.mod_lt; discriminate).
  now rewrite hex_recompose.
Qed.

Lemma parse_chars_letter e x tail acc :
  (e =? 117)%N = false -> unescape e = Some x ->
  parse_chars (92 :: e :: tail)%N acc = parse_chars tail (x :: acc).
Proof. intros H1 H2. cbn [parse_chars]. change (92 =? 34)%N with false.
  change (92 =? 92)%N with true. cbv iota. now rewrite H1, H2. Qed.

Lemma parse_chars_raw c tail acc :
  (c =? 34)%N = false -> (c =? 92)%N = false -> (c <? 32)%N = false ->
  parse_chars (c :: tail) acc = parse_chars tail (c :: acc).
Proof. intros H1 H2 H3. cbn [parse_chars]. now rewrite H1, H2, H3. Qed.

Lemma surrogate_raw c : isHighSurrogate c = true \/ isLowSurrogate c = true ->
  (c =? 34)%N = false /\ (c =? 92)%N = false /\ (c <? 32)%N = false /\ (c < 65536)%N.
Proof.
  unfold isHighSurrogate, isLowSurrogate.
  intros [H|H]; apply andb_true_iff in H; destruct H as [H1 H2];
    apply N.leb_le in H1; apply N.leb_le in H2;
    (split; [apply N.eqb_neq; lia|]); (split; [apply N.eqb_neq; lia|]);
    (split; [apply N.ltb_ge; lia | lia]).
Qed.

(** What [quoteChars] writes, [parse_chars] reads back, up to the closing
    quotation mark. *)
Lemma parse_quoteChars n : forall s acc rest,
  (length s <= n)%nat ->
  parse_chars (quoteChars s ++ 34%N :: rest) acc = POk (rev acc ++ s) rest.
Proof.
  induction n as [|n IH]; intros s acc rest Hn.
  { destruct s; [|simpl in Hn; lia]. simpl. now rewrite app_nil_r. }
  destruct s as [|c s']; [simpl; now rewrite app_nil_r|].
  simpl in Hn.
  assert (Hstep : forall tail, tail = quoteChars s' ++ 34%N :: rest ->
            parse_chars tail (c :: acc) = POk (rev acc ++ c :: s') rest).
  { intros tail ->. rewrite IH by lia. cbn [rev]. now rewrite <- app_assoc. }
  cbn [quoteChars].
  destruct (c =? 8)%N eqn:E8.
  { apply N.eqb_eq in E8. subst c. cbn [app]. erewrite parse_chars_letter by reflexivity.
    now apply Hstep. }
  destruct (c =? 9)%N eqn:E9.
  { apply N.eqb_eq in E9. subst c. cbn [app]. erewrite parse_chars_letter by reflexivity.
    now apply Hstep. }
  destruct (c =? 10)%N eqn:E10.
  { apply N.eqb_eq in E10. subst c. cbn [app]. erewrite parse_chars_letter by reflexivity.
    now apply Hstep. }
  destruct (c =? 12)%N eqn:E12.
  { apply N.eqb_eq in E12. subst c. cbn [app]. erewrite parse_chars_letter by reflexivity.
    now apply Hstep. }
  destruct (c =? 13)%N eqn:E13.
  { apply N.eqb_eq in E13. subst c. cbn [app]. erewrite parse_chars_letter by reflexivity.
    now apply Hstep. }
  destruct (c =? 34)%N eqn:E34.
  { apply N.eqb_eq in E34. subst c. cbn [app]. erewrite parse_chars_letter by reflexivity.
    now apply Hstep. }
  destruct (c =? 92)%N eqn:E92.
  { apply N.eqb_eq in E92. subst c. cbn [app]. erewrite parse_chars_letter by reflexivity.
    now apply Hstep. }
  destruct (c <? 32)%N eqn:E32.
  { apply N.ltb_lt in E32. rewrite <- app_assoc, parse_chars_escape by lia.
    now apply Hstep. }
  destruct (isHighSurrogate c) eqn:Eh.
  { destruct (surrogate_raw c (or_introl Eh)) as (_ & _ & _ & Hc).
    destruct s' as [|c2 s''].
    - rewrite parse_chars_escape by assumption. now apply Hstep.
    - destruct (isLowSurrogate c2) eqn:El.
      + destruct (surrogate_raw c2 (or_intror El)) as (H1 & H2 & H3 & _).
        cbn [app]. rewrite parse_chars_raw by assumption.
        rewrite parse_chars_raw by assumption.
        simpl in Hn. rewrite IH by lia. cbn [rev]. now rewrite <- !app_assoc.
      + rewrite <- app_assoc, parse_chars_escape by assumption. now apply Hstep. }
  destruct (isLowSurrogate c) eqn:El.
  { destruct (surrogate_raw c (or_intror El)) as (_ & _ & _ & Hc).
    rewrite <- app_assoc, parse_chars_escape by assumption. now apply Hstep. }
  cbn [app]. rewrite parse_chars_raw by assumption. now apply Hstep.
Qed.

(** A quoted string, after its opening quotation mark. *)
Lemma parse_quote s rest :
  parse_chars (quoteChars s ++ 34%N :: rest) [] = POk s rest.
Proof. apply (parse_quoteChars (length s)). lia. Qed.

End QuoteFacts.

(* ================================================================== *)
(** * JSON.parse reads back what JSON.stringify writes                 *)
(* ================================================================== *)

Module RoundTripFacts.
Import DigitFacts NumberTextFacts NumberRoundTrip QuoteFacts ReconnectFacts.

(** Induction on values, through the elements of arrays and the members
    of objects. *)
Lemma value_induction (P : value -> Prop) :
  P VUndefined -> P VNull -> (forall b, P (VBool b)) -> (forall n, P (VNum n)) ->
  (forall s, P (VStr s)) ->
  (forall items, Forall P items -> P (VArr items)) ->
  (forall props, Forall (fun kv => P (snd kv)) props -> P (VObj props)) ->
  forall v, P v.
Proof.
  intros Hu Hn Hb Hnum Hs Ha Ho. fix rec 1. intros [ | |b|n|s|items|props].
  - exact Hu.
  - exact Hn.
  - apply Hb.
  - apply Hnum.
  - apply Hs.
  - apply Ha. induction items as [|x l IH]; constructor; [apply rec | exact IH].
  - apply Ho. induction props as [|[k x] l IH]; constructor; [apply rec | exact IH].
Qed.

Lemma parse_value_string f r :
  parse_value (S f) (34%N :: r) =
  match parse_chars r [] with
  | POk x rest => POk (VStr x) rest
  | PErr => PErr
  | PFuel => PFuel
  end.
Proof. reflexivity. Qed.

Lemma parse_value_array f r :
  parse_value (S f) (91%N :: r) =
  match closes 93 r with
  | Some rest => POk (VArr []) rest
  | None => parse_elements (parse_value f) f r []
  end.
Proof. reflexivity. Qed.

Lemma parse_value_object f r :
  parse_value (S f) (123%N :: r) =
  match closes 125 r with
  | Some rest => POk (VObj []) rest
  | None => parse_members (parse_value f) f r []
  end.
Proof. reflexivity. Qed.

Lemma parse_value_number f c r :
  (c = 45%N \/ isDigit c = true) ->
  parse_value (S f) (c :: r) =
  match parse_number (c :: r) with
  | POk n rest => POk (VNum n) rest
  | PErr => PErr
  | PFuel => PFuel
  end.
Proof.
  intros [-> | H]; [reflexivity|].
  unfold isDigit in H. apply andb_true_iff in H. destruct H as [H1 H2].
  apply N.leb_le in H1. apply N.leb_le in H2.
  assert (E : (c = 48 \/ c = 49 \/ c = 50 \/ c = 51 \/ c = 52 \/ c = 53 \/ c = 54
               \/ c = 55 \/ c = 56 \/ c = 57)%N) by lia.
  repeat destruct E as [->|E]; try subst c; reflexivity.
Qed.

Lemma delimited_numberEnd rest : delimited rest -> numberEnd rest.
Proof.
  destruct rest as [|c r]; [auto|]. simpl.
  intros [-> | [-> | ->]]; repeat split; discriminate.
Qed.

Lemma delimited_skip_ws rest : delimited rest -> skip_ws rest = rest.
Proof.
  destruct rest as [|c r]; [auto|]. simpl. intros [-> | [-> | ->]]; reflexivity.
Qed.

Lemma opens_skip_ws t rest : opens t -> skip_ws (t ++ rest) = t ++ rest.
Proof. destruct t as [|c t]; [contradiction|]. intros (H & _). simpl. now rewrite H. Qed.

Lemma opens_closes c t rest : opens t -> (c = 93%N \/ c = 125%N) -> closes c (t ++ rest) = None.
Proof.
  destruct t as [|x t]; [contradiction|]. intros (H & H1 & H2) Hc.
  unfold closes. cbn [app skip_ws]. rewrite H.
  replace (x =? c)%N with false; [reflexivity|].
  symmetry. apply N.eqb_neq. destruct Hc; subst; assumption.
Qed.

Lemma str_eqb_sym a b : str_eqb a b = str_eqb b a.
Proof.
  destruct (str_eqb a b) eqn:E.
  - apply str_eqb_eq in E. subst. now rewrite str_eqb_refl.
  - destruct (str_eqb b a) eqn:E'; [|reflexivity].
    apply str_eqb_eq in E'. subst. now rewrite str_eqb_refl in E.
Qed.

Lemma hasOwn_existsb k props :
  hasOwn k props = existsb (str_eqb k) (map fst props).
Proof.
  unfold hasOwn. induction props as [|[k' v] l IH]; [reflexivity|].
  simpl. destruct (str_eqb k k'); [reflexivity | exact IH].
Qed.

Lemma distinct_app_head a k r :
  distinct (a ++ k :: r) = true -> existsb (str_eqb k) a = false.
Proof.
  induction a as [|x a IH]; [reflexivity|].
  simpl. intros H. apply andb_true_iff in H. destruct H as [H1 H2].
  apply negb_true_iff in H1. rewrite existsb_app in H1. apply orb_false_iff in H1.
  destruct H1 as [_ H1]. simpl in H1. apply orb_false_iff in H1. destruct H1 as [H1 _].
  rewrite str_eqb_sym, H1. simpl. now apply IH.
Qed.

(** A new plain key goes after the properties there are. *)
Lemma define_new acc k v rest :
  plainKey k = true -> distinct (map fst (acc ++ (k, v) :: rest)) = true ->
  define acc k v = acc ++ [(k, v)].
Proof.
  intros Hp Hd. unfold define. rewrite hasOwn_existsb.
  rewrite map_app in Hd. cbn [map fst] in Hd. rewrite (distinct_app_head _ _ _ Hd).
  unfold plainKey in Hp. destruct (arrayIndex k); [discriminate | reflexivity].
Qed.

Section Loops.

Variable pv : jsstring -> parsed value.

(** The elements of an array, read one after the other. *)
Lemma parse_elements_items items : forall acc n rest,
  (length items < n)%nat -> items <> [] ->
  (forall x, In x items -> forall rest', delimited rest' ->
     pv (elementText x ++ rest') = POk x rest') ->
  parse_elements pv n (joinWith (str ",") (map elementText items) ++ 93%N :: rest) acc =
  POk (VArr (rev acc ++ items)) rest.
Proof.
  induction items as [|x l IH]; intros acc n rest Hn Hne Hpv; [contradiction|].
  destruct n as [|n]; [simpl in Hn; lia|].
  destruct l as [|y l].
  - cbn [map joinWith parse_elements].
    rewrite (Hpv x (or_introl eq_refl)) by (simpl; auto).
    cbn [skip_ws]. change (isJSONSpace 93) with false. cbv iota.
    change (93 =? 44)%N with false. change (93 =? 93)%N with true. cbv iota.
    reflexivity.
  - change (joinWith (str ",") (map elementText (x :: y :: l)))
      with (elementText x ++ str "," ++ joinWith (str ",") (map elementText (y :: l))).
    rewrite <- !app_assoc. change (str ",") with [44%N]. cbn [app parse_elements].
    rewrite (Hpv x (or_introl eq_refl)) by (simpl; auto).
    cbn [skip_ws]. change (isJSONSpace 44) with false. cbv iota.
    change (44 =? 44)%N with true. cbv iota.
    rewrite IH.
    + cbn [rev]. now rewrite <- app_assoc.
    + simpl in *. lia.
    + discriminate.
    + intros z Hz. apply Hpv. now right.
Qed.

(** The members of an object, read one after the other. *)
Lemma parse_members_props props : forall acc n rest,
  (length props < n)%nat -> props <> [] ->
  forallb (fun kv => plainKey (fst kv)) props = true ->
  distinct (map fst (acc ++ props)) = true ->
  (forall kv, In kv props -> forall rest', delimited rest' ->
     pv (elementText (snd kv) ++ rest') = POk (snd kv) rest') ->
  parse_members pv n (joinWith (str ",") (map memberText props) ++ 125%N :: rest) acc =
  POk (VObj (acc ++ props)) rest.
Proof.
  induction props as [|[k v] l IH]; intros acc n rest Hn Hne Hk Hd Hpv; [contradiction|].
  destruct n as [|n]; [simpl in Hn; lia|].
  cbn [forallb fst] in Hk. apply andb_true_iff in Hk. destruct Hk as [Hk Hkl].
  pose proof (define_new acc k v l Hk Hd) as Hdef.
  assert (Hhead : forall tail, delimited tail ->
            parse_members pv (S n) (memberText (k, v) ++ tail) acc =
            match tail with
            | c :: rest' =>
                if (c =? 44)%N then parse_members pv n rest' (acc ++ [(k, v)])
                else if (c =? 125)%N then POk (VObj (acc ++ [(k, v)])) rest'
                else PErr
            | [] => PErr
            end).
  { intros tail Ht. unfold memberText, quote. cbn [fst snd].
    change (str ":") with [58%N]. rewrite <- !app_assoc. cbn [app parse_members skip_ws].
    change (isJSONSpace 34) with false. cbv iota.
    change (34 =? 34)%N with true. cbv iota.
    rewrite <- app_assoc. cbn [app]. rewrite parse_quote. cbn [skip_ws].
    change (isJSONSpace 58) with false. cbv iota.
    change (58 =? 58)%N with true. cbv iota.
    rewrite (Hpv (k, v) (or_introl eq_refl)) by assumption. cbn [snd].
    rewrite delimited_skip_ws by assumption. rewrite Hdef. reflexivity. }
  destruct l as [|kv' l].
  - cbn [map joinWith]. rewrite Hhead by (simpl; auto).
    change (125 =? 44)%N with false. change (125 =? 125)%N with true. cbv iota.
    reflexivity.
  - change (joinWith (str ",") (map memberText ((k, v) :: kv' :: l)))
      with (memberText (k, v) ++ str "," ++ joinWith (str ",") (map memberText (kv' :: l))).
    rewrite <- !app_assoc. change (str ",") with [44%N]. cbn [app].
    rewrite Hhead by (simpl; auto).
    change (44 =? 44)%N with true. cbv iota.
    rewrite IH.
    + now rewrite <- app_assoc.
    + simpl in *. lia.
    + discriminate.
    + exact Hkl.
    + now rewrite <- app_assoc.
    + intros z Hz. apply Hpv. now right.
Qed.

End Loops.

Lemma serialize_storable v : storable v = true -> serialize v = Some (elementText v).
Proof.
  unfold elementText. destruct v as [ | |[|]|[|m d]|s|items|props]; try discriminate; reflexivity.
Qed.

Lemma members_text props :
  forallb (fun kv => plainKey (fst kv) && storable (snd kv)) props = true ->
  flat_map (fun kv => match serialize (snd kv) with
                      | Some t => [quote (fst kv) ++ str ":" ++ t]
                      | None => []
                      end) props = map memberText props.
Proof.
  induction props as [|[k v] l IH]; [reflexivity|].
  cbn [forallb fst snd]. intros H. apply andb_true_iff in H. destruct H as [H Hl].
  apply andb_true_iff in H. destruct H as [_ Hv].
  cbn [flat_map map fst snd]. rewrite (serialize_storable v Hv), IH by assumption.
  reflexivity.
Qed.

Lemma joinWith_length sep l :
  (list_sum (map (@length N) l) <= length (joinWith sep l))%nat.
Proof.
  induction l as [|x l IH]; [simpl; lia|].
  destruct l as [|y l]; [simpl; lia|].
  change (joinWith sep (x :: y :: l)) with (x ++ sep ++ joinWith sep (y :: l)).
  rewrite !length_app. cbn [map list_sum fold_right] in *. lia.
Qed.

Lemma joinWith_opens sep x l : opens x -> opens (joinWith sep (x :: l)).
Proof.
  intros H. destruct l as [|y l]; [exact H|].
  change (joinWith sep (x :: y :: l)) with (x ++ sep ++ joinWith sep (y :: l)).
  destruct x; [contradiction | exact H].
Qed.

Lemma number_opens m : (Z.abs m < 10 ^ 21)%Z ->
  exists c r, numberToString (Int m) = c :: r /\ (c = 45%N \/ isDigit c = true).
Proof.
  intros Hb. destruct (Z.eq_dec m 0) as [->|Hm].
  - exists 48%N, []. split; [reflexivity | now right].
  - rewrite numberToString_Int by assumption.
    destruct (m <? 0)%Z.
    + eexists 45%N, _. split; [reflexivity | now left].
    + destruct (digits_head (Z.abs m) ltac:(lia)) as (c & r & E & _ & Hd).
      exists c, r. split; [exact E | now right].
Qed.

Lemma minus_or_digit_opens c r : (c = 45%N \/ isDigit c = true) -> opens (c :: r).
Proof.
  intros [->|H]; [repeat split; discriminate|].
  unfold isDigit in H. apply andb_true_iff in H. destruct H as [H1 H2].
  apply N.leb_le in H1. apply N.leb_le in H2.
  assert (E : (c = 48 \/ c = 49 \/ c = 50 \/ c = 51 \/ c = 52 \/ c = 53 \/ c = 54
               \/ c = 55 \/ c = 56 \/ c = 57)%N) by lia.
  repeat destruct E as [->|E]; try subst c; repeat split; discriminate.
Qed.

Lemma safe_below m : safeInteger m = true -> (Z.abs m < 10 ^ 21)%Z.
Proof. unfold safeInteger. intros H. apply Z.leb_le in H. lia. Qed.

Lemma sizes_le_lengths (items : list value) f (g : value -> jsstring) :
  Forall (fun x => (f x <= length (g x))%nat) items ->
  (list_sum (map f items) <= list_sum (map (@length N) (map g items)))%nat.
Proof. induction 1; simpl; lia. Qed.

Lemma size_pos v : (1 <= size v)%nat.
Proof. destruct v; simpl; lia. Qed.

Lemma length_le_sizes {A} (f : A -> nat) (l : list A) :
  (forall x, 1 <= f x)%nat -> (length l <= list_sum (map f l))%nat.
Proof. intros H. induction l as [|x l IH]; simpl; [lia|]. specialize (H x). lia. Qed.

Lemma In_size_le {A} (f : A -> nat) (l : list A) x :
  In x l -> (f x <= list_sum (map f l))%nat.
Proof.
  induction l as [|y l IH]; [contradiction|]. intros [->|H]; simpl; [lia|].
  specialize (IH H). lia.
Qed.

(** The text [JSON.stringify] writes for a storable value, followed by a
    delimiter or by the end of the text, reads back as that value. *)
Lemma parse_value_storable v :
  storable v = true ->
  opens (elementText v)
  /\ (size v <= length (elementText v))%nat
  /\ forall fuel rest, (size v < fuel)%nat -> delimited rest ->
       parse_value fuel (elementText v ++ rest) = POk v rest.
Proof.
  induction v as [ | |b|n|s|items IH|props IH] using value_induction; intros Hs.
  - discriminate.
  - split; [repeat split; discriminate|]. split; [simpl; lia|].
    intros [|f] rest Hf _; [lia | reflexivity].
  - split; [destruct b; repeat split; discriminate|]. split; [destruct b; simpl; lia|].
    intros [|f] rest Hf _; [lia | destruct b; reflexivity].
  - destruct n as [|m d]; [discriminate|]. cbn [storable] in Hs.
    apply andb_true_iff in Hs. destruct Hs as [Hd Hm]. apply N.eqb_eq in Hd. subst d.
    apply safe_below in Hm.
    change (elementText (VNum (Int m))) with (numberToString (Int m)).
    destruct (number_opens m Hm) as (c & r & E & Hc).
    split; [rewrite E; now apply minus_or_digit_opens|].
    split; [rewrite E; simpl; lia|].
    intros [|f] rest Hf Hr; [lia|].
    pose proof (parse_number_Int m rest Hm (delimited_numberEnd _ Hr)) as Hp.
    rewrite E in *. cbn [app] in *. rewrite parse_value_number by assumption.
    now rewrite Hp.
  - change (elementText (VStr s)) with (quote s). unfold quote.
    split; [repeat split; discriminate|]. split; [simpl; lia|].
    intros [|f] rest Hf _; [lia|].
    cbn [app]. rewrite parse_value_string, <- app_assoc. cbn [app].
    now rewrite parse_quote.
  - cbn [storable] in Hs.
    change (elementText (VArr items))
      with (str "[" ++ joinWith (str ",") (map elementText items) ++ str "]").
    change (str "[") with [91%N]. change (str "]") with [93%N].
    assert (Hall : Forall (fun x => opens (elementText x)
              /\ (size x <= length (elementText x))%nat
              /\ forall fuel rest, (size x < fuel)%nat -> delimited rest ->
                   parse_value fuel (elementText x ++ rest) = POk x rest) items).
    { rewrite Forall_forall in *. intros x Hx. apply IH; [exact Hx|].
      rewrite forallb_forall in Hs. now apply Hs. }
    split; [repeat split; discriminate|].
    split.
    { cbn [app length size]. rewrite length_app. cbn [length].
      pose proof (joinWith_length (str ",") (map elementText items)).
      assert (list_sum (map size items)
              <= list_sum (map (@length N) (map elementText items)))%nat.
      { apply sizes_le_lengths. eapply Forall_impl; [|exact Hall]. simpl. tauto. }
      lia. }
    intros [|f] rest Hf Hr; [lia|]. cbn [size] in Hf.
    cbn [app]. rewrite parse_value_array, <- app_assoc. cbn [app].
    destruct items as [|x l].
    + reflexivity.
    + rewrite opens_closes; [| |now left].
      * rewrite parse_elements_items; [reflexivity| | discriminate |].
        -- pose proof (length_le_sizes size (x :: l) size_pos). lia.
        -- intros y Hy rest' Hr'. rewrite Forall_forall in Hall.
           destruct (Hall y Hy) as (_ & _ & Hp). apply Hp; [|exact Hr'].
           pose proof (In_size_le size _ _ Hy). lia.
      * apply joinWith_opens. inversion Hall as [|? ? (Ho & _) _]; subst. exact Ho.
  - cbn [storable] in Hs. apply andb_true_iff in Hs. destruct Hs as [Hs Hd].
    assert (Htext : elementText (VObj props)
              = [123%N] ++ joinWith (str ",") (map memberText props) ++ [125%N]).
    { unfold elementText. cbn [serialize]. now rewrite members_text. }
    rewrite Htext.
    assert (Hall : Forall (fun kv => opens (elementText (snd kv))
              /\ (size (snd kv) <= length (elementText (snd kv)))%nat
              /\ forall fuel rest, (size (snd kv) < fuel)%nat -> delimited rest ->
                   parse_value fuel (elementText (snd kv) ++ rest) = POk (snd kv) rest) props).
    { rewrite Forall_forall in *. intros kv Hkv. apply IH; [exact Hkv|].
      rewrite forallb_forall in Hs. specialize (Hs kv Hkv).
      apply andb_true_iff in Hs. tauto. }
    assert (Hkeys : forallb (fun kv => plainKey (fst kv)) props = true).
    { rewrite forallb_forall in *. intros kv Hkv. specialize (Hs kv Hkv).
      apply andb_true_iff in Hs. tauto. }
    split; [repeat split; discriminate|].
    split.
    { cbn [app length size]. rewrite length_app. cbn [length].
      pose proof (joinWith_length (str ",") (map memberText props)).
      assert (list_sum (map (fun kv => size (snd kv)) props)
              <= list_sum (map (@length N) (map memberText props)))%nat.
      { clear - Hall. induction Hall as [|kv l (_ & H & _) _ IHl]; [simpl; lia|].
        cbn [map list_sum fold_right]. unfold memberText at 1. rewrite !length_app.
        unfold list_sum in *. lia. }
      lia. }
    intros [|f] rest Hf Hr; [lia|]. cbn [size] in Hf.
    cbn [app]. rewrite parse_value_object, <- app_assoc. cbn [app].
    destruct props as [|kv l].
    + reflexivity.
    + rewrite opens_closes; [| |now right].
      * rewrite (parse_members_props _ (kv :: l) []); [reflexivity| | discriminate | | |].
        -- pose proof (length_le_sizes (fun kv => size (snd kv)) (kv :: l)
                         (fun kv => size_pos (snd kv))). lia.
        -- exact Hkeys.
        -- exact Hd.
        -- intros y Hy rest' Hr'. rewrite Forall_forall in Hall.
           destruct (Hall y Hy) as (_ & _ & Hp). apply Hp; [|exact Hr'].
           pose proof (In_size_le (fun kv => size (snd kv)) _ _ Hy). lia.
      * apply joinWith_opens. unfold memberText, quote. repeat split; discriminate.
Qed.

(** [JSON.parse(JSON.stringify(v))] is [v] for a storable value. *)
Lemma JSON_round_trip v : storable v = true -> JSON_parse (JSON_stringify v) = inr v.
Proof.
  intros Hs. destruct (parse_value_storable v Hs) as (_ & Hsize & Hp).
  unfold JSON_parse, JSON_stringify. rewrite (serialize_storable v Hs).
  specialize (Hp (S (length (elementText v))) [] ltac:(lia) I).
  rewrite app_nil_r in Hp. now rewrite Hp.
Qed.

End RoundTripFacts.

(* ================================================================== *)
(** * Further properties of the controller                             *)
(* ================================================================== *)

Module StoreFacts.
Import Controller ControllerFacts NumberFacts RestoreFacts AddFacts.
Import NumberRoundTrip RoundTripFacts.

Lemma storage_restoreVolume st : storage (exec restoreVolume st) = storage st.
Proof. apply restoreVolume_playlist. Qed.

Lemma renders_nth items i :
  renders items -> (i < length items)%nat ->
  exists vid, get (nth i items VUndefined) "id" = inr vid.
Proof.
  revert i. induction items as [|v l IH]; intros i Hr Hi; [simpl in Hi; lia|].
  destruct (renders_head v l Hr) as [label Hl].
  destruct i as [|i].
  - simpl. eapply entryLabel_get. exact Hl.
  - simpl. apply IH; [|simpl in Hi; lia].
    unfold renders in *. simpl in Hr. rewrite Hl in Hr. exact Hr.
Qed.

(** Restoring a stored array of entries that render, with a stored
    integer index. *)
Lemma restore_rendering st items c :
  youtubePlaylist (storage st) = Some (JSON_stringify (VArr items)) ->
  currentIndexItem (storage st) = Some (numberToString (Int c)) ->
  forallb storable items = true -> renders items -> safeInteger c = true ->
  let st1 := set_currentIndex (Int c) (set_playlist items (exec restoreVolume st)) in
  loadPlaylistFromStorage st =
  inr (exec (bind updatePlaylistUI
               (fun _ => when (0 <? length items)%nat (loadVideo (Int c)))) st1).
Proof.
  intros Hp Hi Hs Hr Hc. cbv zeta. unfold loadPlaylistFromStorage. rewrite Hp, Hi.
  change (nonEmpty (JSON_stringify (VArr items))) with true. cbv iota.
  rewrite (JSON_round_trip (VArr items)) by exact Hs.
  assert (Hn : nonEmpty (numberToString (Int c)) = true).
  { destruct (number_opens c (safe_below c Hc)) as (x & r & -> & _). reflexivity. }
  rewrite Hn, parseInt_toString by now apply safe_below.
  unfold uncaught, exec, bind at 1 2, modify. cbn [fst snd].
  set (st1 := set_currentIndex (Int c) (set_playlist items (snd (restoreVolume st)))).
  unfold bind. rewrite updatePlaylistUI_spec.
  assert (E : playlist st1 = items) by reflexivity.
  rewrite E. unfold renders in Hr. rewrite Hr.
  destruct (0 <? length items)%nat eqn:El; cbn [when].
  - rewrite loadVideo_Int. cbn [playlist set_playlistItems]. rewrite E.
    destruct ((0 <=? c)%Z && (c <? Z.of_nat (length items))%Z) eqn:Er; [|reflexivity].
    apply andb_true_iff in Er. destruct Er as [E1 E2].
    apply Z.leb_le in E1. apply Z.ltb_lt in E2.
    destruct (renders_nth items (Z.to_nat c) Hr ltac:(lia)) as [vid Hv].
    rewrite Hv. cbv zeta. rewrite Hr. reflexivity.
  - reflexivity.
Qed.

End StoreFacts.

(* ================================================================== *)
(** * Further facts about the display                                  *)
(* ================================================================== *)

Module SnapshotFacts.
Import Display DisplayFacts NumberRoundTrip RoundTripFacts.

Lemma direct_snapshot_applied page st title author items ci t a text :
  truthy title = true -> truthy author = true ->
  toString title = inr t -> toString author = inr a ->
  defined ci = true -> methodToString ci = inr text ->
  (hasPlaylistElement page = false \/ renders items) ->
  exec (updateSongInfo page (snapshot title author (VArr items) ci)) st =
  afterSnapshot page t a items ci text st.
Proof.
  intros Ht Ha Hts Has Hci Hm Hr. unfold exec, afterSnapshot.
  rewrite updateSongInfo_cases.
  change (get (snapshot title author (VArr items) ci) "command") with (@inr error _ VUndefined).
  change (get (snapshot title author (VArr items) ci) "value") with (@inr error _ VUndefined).
  cbn [isString andb defined].
  unfold wrapped, direct, showNowPlaying, restartMarqueeAnimation, setTimeout.
  unfold bind, lift, modify, when, ret, throw, gets.
  change (get (snapshot title author (VArr items) ci) "params") with (@inr error _ VUndefined).
  cbn [fst snd truthy andb].
  change (get (snapshot title author (VArr items) ci) "title") with (@inr error _ title).
  change (get (snapshot title author (VArr items) ci) "author") with (@inr error _ author).
  change (get (snapshot title author (VArr items) ci) "playlist")
    with (@inr error _ (VArr items)).
  change (get (snapshot title author (VArr items) ci) "currentIndex") with (@inr error _ ci).
  cbn [fst snd]. rewrite Ht, Ha. cbn [andb fst snd].
  rewrite Hts, Has. cbn [fst snd truthy]. rewrite ?Hci. cbn [andb fst snd].
  rewrite display_updatePlaylistUI_spec. simp.
  destruct (hasPlaylistElement page); cbn [negb]; simp.
  - destruct Hr as [Hr|Hr]; [discriminate|]. unfold renders in Hr. rewrite Hr. simp.
    rewrite display_savePlaylistToStorage_spec. simp. rewrite Hm. reflexivity.
  - rewrite display_savePlaylistToStorage_spec. simp. rewrite Hm. reflexivity.
Qed.

Lemma wrapped_snapshot_applied page st title author items ci t a text :
  truthy title = true -> truthy author = true ->
  toString title = inr t -> toString author = inr a ->
  defined ci = true -> methodToString ci = inr text ->
  (hasPlaylistElement page = false \/ renders items) ->
  exec (updateSongInfo page (nowPlaying (snapshot title author (VArr items) ci))) st =
  afterSnapshot page t a items ci text st.
Proof.
  intros Ht Ha Hts Has Hci Hm Hr. unfold exec, afterSnapshot.
  rewrite updateSongInfo_cases.
  unfold wrapped, showNowPlaying, restartMarqueeAnimation, setTimeout.
  unfold bind, lift, modify, when, ret, throw, gets.
  cbn -[updatePlaylistUI savePlaylistToStorage toString truthy defined].
  cbn [truthy snapshot andb]. rewrite Ht, Ha. cbn [andb fst snd].
  rewrite Hts, Has. cbn [fst snd]. rewrite Hci.
  rewrite display_updatePlaylistUI_spec. simp.
  destruct (hasPlaylistElement page); cbn [negb]; simp.
  - destruct Hr as [Hr|Hr]; [discriminate|]. unfold renders in Hr. rewrite Hr. simp.
    rewrite display_savePlaylistToStorage_spec. simp. rewrite Hm. reflexivity.
  - rewrite display_savePlaylistToStorage_spec. simp. rewrite Hm. reflexivity.
Qed.

(** The display page restores an array it stored next to an integer. *)
Lemma display_restore page items c :
  forallb storable items = true -> safeInteger c = true ->
  exec (loadPlaylistFromStorage page)
    (initial (mkStorage (Some (JSON_stringify (VArr items)))
                (Some (numberToString (Int c))))) =
  (if hasPlaylistElement page
   then set_playlistItems (snd (labelsOf items)) else fun s => s)
    (set_currentIndex (VNum (Int c))
       (set_playlist (VArr items)
          (initial (mkStorage (Some (JSON_stringify (VArr items)))
                      (Some (numberToString (Int c))))))).
Proof.
  intros Hs Hc. unfold exec, loadPlaylistFromStorage, bind, gets, when, lift, modify.
  cbn [fst snd storage initial youtubePlaylist currentIndexItem].
  change (nonEmpty (JSON_stringify (VArr items))) with true. cbv iota.
  rewrite (JSON_round_trip (VArr items)) by exact Hs. cbn [fst snd].
  assert (Hn : nonEmpty (numberToString (Int c)) = true).
  { destruct (number_opens c (safe_below c Hc)) as (x & r & -> & _). reflexivity. }
  rewrite Hn, parseInt_toString by now apply safe_below.
  rewrite display_updatePlaylistUI_spec. simp.
  destruct (hasPlaylistElement page); reflexivity.
Qed.

End SnapshotFacts.

(* ================================================================== *)
(** * Further facts about extractVideoId                               *)
(* ================================================================== *)

Module TrailerFacts.
Import Regex RegexFacts Controller ExtractFacts.

Lemma stripPrefix_app w : forall s r, stripPrefix w s = Some r -> s = w ++ r.
Proof.
  induction w as [|c w IH]; intros s r H; simpl in *; [now injection H as ->|].
  destruct s as [|x s]; [discriminate|].
  destruct (x =? c)%N eqn:E; [|discriminate]. apply N.eqb_eq in E. subst x.
  f_equal. now apply IH.
Qed.

Lemma hasVEquals_cons c d r :
  hasVEquals (c :: d :: r) = ((c =? 118)%N && (d =? 61)%N) || hasVEquals (d :: r).
Proof. reflexivity. Qed.

Lemma hasVEquals_Suffix s' s : Suffix s' s -> hasVEquals s = false -> hasVEquals s' = false.
Proof.
  intros [p ->]. induction p as [|c p IH]; [auto|].
  intros H. apply IH. cbn [app] in H.
  destruct (p ++ s') as [|d r]; [reflexivity|]. rewrite hasVEquals_cons in H.
  apply orb_false_iff in H. tauto.
Qed.

Lemma hasVEquals_app a b :
  avoids [61%N] a -> hasVEquals b = false ->
  match b with [] => True | c :: _ => c <> 61%N end ->
  hasVEquals (a ++ b) = false.
Proof.
  intros Ha Hb Hh. induction a as [|c a IH]; [exact Hb|].
  assert (Ha' : avoids [61%N] a).
  { intros x Hx Hin. apply (Ha x Hx). now right. }
  specialize (IH Ha'). cbn [app].
  destruct (a ++ b) as [|d r] eqn:E; [reflexivity|]. rewrite hasVEquals_cons.
  rewrite IH, orb_false_r. apply andb_false_iff. right. apply N.eqb_neq.
  destruct a as [|y a]; cbn [app] in E.
  - subst b. exact Hh.
  - injection E as -> _. intros ->. apply (Ha' 61%N); simpl; auto.
Qed.

Lemma m_Alt r1 r2 s caps k :
  m (Alt r1 r2) s caps k =
  match m r1 s caps k with
  | Some c => Some c
  | None => m r2 s caps k
  end.
Proof. reflexivity. Qed.

(** No marker starts in a text without solidus and without [v=]. *)
Lemma afterPrefix_needs_solidus_or_v s caps k :
  avoids [47%N] s -> hasVEquals s = false -> m afterPrefix s caps k = None.
Proof.
  intros Ha Hv. unfold afterPrefix.
  change (m (Seq (Group 1 marker) ?r) s caps k)
    with (m marker s caps
            (fun s' caps' =>
               (fun s0 caps0 => m r s0 caps0 k) s'
                 ((1%nat, firstn (length s - length s') s) :: caps'))).
  set (K := fun s' caps' => _). unfold marker.
  do 4 (rewrite m_Alt;
        match goal with
        | |- context [match m ?r s caps K with _ => _ end] =>
            rewrite (requires_sound [47%N] r eq_refl s caps K Ha)
        end).
  rewrite m_Alt. unfold chars. rewrite !m_lits.
  destruct (stripPrefix (str "watch?v=") s) as [r|] eqn:E1.
  { apply stripPrefix_app in E1. subst s. discriminate Hv. }
  destruct (stripPrefix (str "&v=") s) as [r|] eqn:E2.
  { apply stripPrefix_app in E2. subst s. discriminate Hv. }
  reflexivity.
Qed.

Lemma star_stop {R} cs a b (k : jsstring -> option R) r :
  Forall (fun c => mem cs c = true) a ->
  match b with [] => True | c :: _ => mem cs c = false end ->
  k b = Some r -> star cs (a ++ b) k = Some r.
Proof.
  intros Ha Hb Hk. induction Ha as [|c a Hc Ha IH]; cbn [app].
  - destruct b as [|c b]; [exact Hk|]. simpl. now rewrite Hb.
  - simpl. now rewrite Hc, IH.
Qed.

Lemma star_some {R} cs s (k : jsstring -> option R) r :
  (forall s', k s' = Some r) -> star cs s k = Some r.
Proof.
  intros Hk. induction s as [|c s IH]; simpl; [apply Hk|].
  destruct (mem cs c); [now rewrite IH | apply Hk].
Qed.

Lemma trailer_stops rest : trailer rest ->
  match rest with [] => True | c :: _ => mem (NoneOf (str "#&?")) c = false end.
Proof.
  destruct rest as [|c r]; [auto|]. intros ([-> | [-> | ->]] & _); reflexivity.
Qed.

(** No marker starts inside an identifier followed by a trailer. *)
Lemma no_marker_after id rest s' caps k :
  Forall (fun c => idChar c = true) id -> trailer rest ->
  Suffix s' (id ++ rest) -> m afterPrefix s' caps k = None.
Proof.
  intros Hid Ht Hs. apply afterPrefix_needs_solidus_or_v.
  - eapply avoids_Suffix; [exact Hs|].
    intros c Hc Hin. apply in_app_or in Hin. destruct Hin as [Hin|Hin].
    + apply (idChars_avoid id Hid c); [|exact Hin]. simpl in *. tauto.
    + destruct rest as [|x r]; [contradiction|]. destruct Ht as (_ & Ha & _).
      now apply (Ha c).
  - eapply hasVEquals_Suffix; [exact Hs|]. apply hasVEquals_app.
    + intros c Hc. apply (idChars_avoid id Hid c). simpl in *. tauto.
    + destruct rest as [|x r]; [reflexivity|]. now destruct Ht as (_ & _ & Hv).
    + destruct rest as [|x r]; [exact I|]. destruct Ht as ([-> | [-> | ->]] & _); discriminate.
Qed.

Lemma firstn_identifier (id rest : jsstring) :
  firstn (length (id ++ rest) - length rest) (id ++ rest) = id.
Proof.
  rewrite length_app, Nat.add_sub, firstn_app, Nat.sub_diag, firstn_all, firstn_O.
  apply app_nil_r.
Qed.

Ltac resolve_with_trailer prefix vid rest Hlen Hid Ht :=
  unfold extractVideoId, exec, regExp; cbn [m];
  let p := fresh "p" in
  set (p := str prefix); vm_compute in p; subst p;
  match goal with
  | |- context [star Any (?a ++ ?b) ?k] =>
      rewrite (star_backtrack Any a b k) by (repeat constructor)
  end;
  rewrite star_none by (intros s' Hs; now apply (no_marker_after vid rest));
  cbn;
  match goal with
  | |- context [star ?cs (vid ++ rest) ?k] =>
      erewrite (star_stop cs vid rest k);
        [ | now apply idChars_tail | now apply trailer_stops
          | cbv beta; apply star_some; intros; reflexivity ]
  end;
  cbn; rewrite firstn_identifier, Hlen; reflexivity.

Lemma extract_short_trailer id rest :
  length id = 11%nat -> Forall (fun c => idChar c = true) id -> trailer rest ->
  extractVideoId (str "https://youtu.be/" ++ id ++ rest) = Some id.
Proof. intros Hlen Hid Ht. resolve_with_trailer "https://youtu.be/"%string id rest Hlen Hid Ht. Qed.

Lemma extract_long_trailer id rest :
  length id = 11%nat -> Forall (fun c => idChar c = true) id -> trailer rest ->
  extractVideoId (str "https://www.youtube.com/watch?v=" ++ id ++ rest) = Some id.
Proof.
  intros Hlen Hid Ht.
  resolve_with_trailer "https://www.youtube.com/watch?v="%string id rest Hlen Hid Ht.
Qed.

Lemma extract_embed_trailer id rest :
  length id = 11%nat -> Forall (fun c => idChar c = true) id -> trailer rest ->
  extractVideoId (str "https://www.youtube.com/embed/" ++ id ++ rest) = Some id.
Proof.
  intros Hlen Hid Ht.
  resolve_with_trailer "https://www.youtube.com/embed/"%string id rest Hlen Hid Ht.
Qed.

End TrailerFacts.

(* ================================================================== *)
(** * Further facts about the controller                               *)
(* ================================================================== *)

Module NavigationFacts.
Import Controller ControllerFacts NumberFacts RestoreFacts EffFacts LinkFacts.

Lemma sameStore_refl st : sameStore st st.
Proof. split; reflexivity. Qed.

Lemma sameStore_trans a b c : sameStore a b -> sameStore b c -> sameStore a c.
Proof. unfold sameStore. intros [H1 H2] [H3 H4]. split; congruence. Qed.

Lemma renderItems_sameStore items : preserves sameStore (renderItems items).
Proof. intros st. rewrite renderItems_spec. split; reflexivity. Qed.

Lemma loadVideo_sameStore index : preserves sameStore (loadVideo index).
Proof.
  unfold loadVideo, updatePlaylistUI, call.
  repeat (rule sameStore_refl sameStore_trans);
    try (split; reflexivity); apply renderItems_sameStore.
Qed.

Lemma playNextVideo_sameStore : preserves sameStore playNextVideo.
Proof.
  unfold playNextVideo.
  repeat (rule sameStore_refl sameStore_trans);
    try (split; reflexivity); apply loadVideo_sameStore.
Qed.

Lemma playPreviousVideo_sameStore : preserves sameStore playPreviousVideo.
Proof.
  unfold playPreviousVideo.
  repeat (rule sameStore_refl sameStore_trans);
    try (split; reflexivity); apply loadVideo_sameStore.
Qed.

Lemma handle_sameStore a : writesStore a = false -> preserves sameStore (handle a).
Proof.
  destruct a as [ | | | | |i|text|v|data|data|now]; cbn [writesStore handle];
    try discriminate; intros H.
  - unfold onPlayClick, call. repeat (rule sameStore_refl sameStore_trans); split; reflexivity.
  - unfold onPauseClick, call. repeat (rule sameStore_refl sameStore_trans); split; reflexivity.
  - apply playPreviousVideo_sameStore.
  - apply playNextVideo_sameStore.
  - apply loadVideo_sameStore.
  - repeat (rule sameStore_refl sameStore_trans); split; reflexivity.
  - repeat (rule sameStore_refl sameStore_trans); split; reflexivity.
  - destruct data; try discriminate H; unfold onPlayerStateChange; cbn [playerState_eqb when];
      repeat (rule sameStore_refl sameStore_trans);
      try (split; reflexivity); apply playNextVideo_sameStore.
  - destruct now; try discriminate H; unfold intervalTick; cbn [playerState_eqb];
      repeat (rule sameStore_refl sameStore_trans); split; reflexivity.
Qed.

End NavigationFacts.

(** What [updateMarquee] does to the entry at the cursor. *)
Module MarqueeFacts.
Import Controller ControllerFacts NumberFacts RestoreFacts AddFacts ReconnectFacts.
Import RoundTripFacts.

Lemma lookup_replace_same k v props x :
  lookup k props = Some x -> lookup k (replace k v props) = Some v.
Proof.
  induction props as [|[k' v'] l IH]; [discriminate|]. simpl.
  destruct (str_eqb k k') eqn:E; simpl; rewrite E; [reflexivity | exact IH].
Qed.

Lemma lookup_replace_other k k' v props :
  str_eqb k' k = false -> lookup k' (replace k v props) = lookup k' props.
Proof.
  intros H. induction props as [|[k0 v0] l IH]; [reflexivity|]. simpl.
  destruct (str_eqb k k0) eqn:E; simpl.
  - apply str_eqb_eq in E. subst k0. now rewrite H.
  - destruct (str_eqb k' k0); [reflexivity | exact IH].
Qed.

Lemma lookup_app k a b :
  lookup k (a ++ b) = match lookup k a with Some x => Some x | None => lookup k b end.
Proof.
  induction a as [|[k' v'] l IH]; [reflexivity|]. simpl.
  destruct (str_eqb k k'); [reflexivity | exact IH].
Qed.

(** Reading a plain property that has just been set. *)
Lemma lookup_define_same k v props :
  plainKey k = true -> lookup k (define props k v) = Some v.
Proof.
  intros Hk. unfold define, hasOwn.
  destruct (lookup k props) as [x|] eqn:E.
  - now apply (lookup_replace_same k v props x).
  - unfold plainKey in Hk. destruct (arrayIndex k); [discriminate|].
    rewrite lookup_app, E. simpl. now rewrite str_eqb_refl.
Qed.

(** Reading another property than the plain one that has just been set. *)
Lemma lookup_define_other k k' v props :
  plainKey k = true -> str_eqb k' k = false ->
  lookup k' (define props k v) = lookup k' props.
Proof.
  intros Hk Hne. unfold define, hasOwn.
  destruct (lookup k props) as [x|] eqn:E.
  - now apply lookup_replace_other.
  - unfold plainKey in Hk. destruct (arrayIndex k); [discriminate|].
    rewrite lookup_app. destruct (lookup k' props); [reflexivity|].
    simpl. now rewrite Hne.
Qed.

(** The entry after [updateMarquee] has written a title and an author
    into it. *)
Lemma named_entry props T A :
  get (assign (assign (VObj props) "title" T) "author" A) "title" = inr T
  /\ get (assign (assign (VObj props) "title" T) "author" A) "author" = inr A
  /\ get (assign (assign (VObj props) "title" T) "author" A) "id" = get (VObj props) "id".
Proof.
  unfold assign, get.
  rewrite (lookup_define_other (str "author") (str "title")) by reflexivity.
  rewrite (lookup_define_same (str "title")) by reflexivity.
  rewrite (lookup_define_same (str "author")) by reflexivity.
  rewrite (lookup_define_other (str "author") (str "id")) by reflexivity.
  rewrite (lookup_define_other (str "title") (str "id")) by reflexivity.
  auto.
Qed.

Lemma renders_cons v l : renders (v :: l) <-> (exists label, entryLabel v = inr label) /\ renders l.
Proof.
  unfold renders. simpl. destruct (entryLabel v) as [e|label].
  - split; [discriminate | intros [[x Hx] _]; discriminate].
  - simpl. split; [intros H; split; [now exists label | exact H] | tauto].
Qed.

Lemma renders_replaceAt e label l : forall i,
  renders l -> entryLabel e = inr label -> renders (replaceAt i e l).
Proof.
  induction l as [|v l IH]; intros i Hr He; [destruct i; exact Hr|].
  apply renders_cons in Hr. destruct Hr as [Hv Hl].
  destruct i as [|i]; simpl; apply renders_cons; split; eauto.
Qed.

Lemma replaceAt_length {A} (x : A) l : forall i, length (replaceAt i x l) = length l.
Proof. induction l as [|y l IH]; intros [|i]; simpl; auto. Qed.

Lemma replaceAt_nth {A} (x d : A) l : forall i j,
  (i < length l)%nat ->
  nth j (replaceAt i x l) d = if (j =? i)%nat then x else nth j l d.
Proof.
  induction l as [|y l IH]; intros i j Hi; [simpl in Hi; lia|].
  destruct i as [|i], j as [|j]; simpl; try reflexivity.
  apply IH. simpl in Hi. lia.
Qed.

Lemma isObject_replaceAt props l : forall i,
  forallb isObject l = true -> forallb isObject (replaceAt i (VObj props) l) = true.
Proof.
  induction l as [|y l IH]; intros i H; [destruct i; exact H|].
  simpl in H. apply andb_true_iff in H. destruct H as [H1 H2].
  destruct i as [|i]; simpl; [exact H2|]. rewrite H1. now apply IH.
Qed.

Lemma isObject_nth l : forall i, forallb isObject l = true -> (i < length l)%nat ->
  exists props, nth i l VUndefined = VObj props.
Proof.
  induction l as [|y l IH]; intros i H Hi; [simpl in Hi; lia|].
  simpl in H. apply andb_true_iff in H. destruct H as [H1 H2].
  destruct i as [|i]; simpl.
  - destruct y; try discriminate. eauto.
  - apply IH; [exact H2 | simpl in Hi; lia].
Qed.

(** [updateMarquee] when the player has data and the cursor is on an
    entry that is an object. *)
Lemma updateMarquee_names st data tv av t a c props :
  videoData (player st) = inr data ->
  get data "title" = inr tv -> get data "author" = inr av ->
  toString (or_else tv (VStr (str "Unknown Title"))) = inr t ->
  toString (or_else av (VStr (str "Unknown Artist"))) = inr a ->
  currentIndex st = Int c -> (0 <= c < Z.of_nat (length (playlist st)))%Z ->
  nth (Z.to_nat c) (playlist st) VUndefined = VObj props ->
  renders (playlist st) ->
  let entry := assign (assign (VObj props) "title" (or_else tv (VStr (str "Unknown Title"))))
                 "author" (or_else av (VStr (str "Unknown Artist"))) in
  let items := replaceAt (Z.to_nat c) entry (playlist st) in
  renders items /\
  exec updateMarquee st =
  set_storage
    (mkStorage (Some (JSON_stringify (VArr items))) (Some (numberToString (Int c)))
       (youtubePlayerVolume (storage st)))
    (set_playlistItems (snd (labelsOf items))
       (set_playlist items
          (set_songInfo (str "Now Playing: " ++ t ++ str " by " ++ a) st))).
Proof.
  intros Hd Ht Ha Hts Has Hc Hr Hn Hren. cbv zeta.
  set (T := or_else tv (VStr (str "Unknown Title"))) in *.
  set (A := or_else av (VStr (str "Unknown Artist"))) in *.
  set (entry := assign (assign (VObj props) "title" T) "author" A).
  assert (Hlabel : entryLabel entry = inr (t ++ str " - " ++ a)).
  { destruct (named_entry props T A) as (H1 & H2 & _). fold entry in H1, H2.
    unfold entryLabel, and_then. now rewrite H1, Hts, H2, Has. }
  assert (Hitems : renders (replaceAt (Z.to_nat c) entry (playlist st)))
    by (eapply renders_replaceAt; eassumption).
  split; [exact Hitems|].
  unfold exec, updateMarquee, try_catch. cbn [snd].
  unfold bind at 1, gets at 1. cbn [fst snd]. rewrite Hd.
  unfold bind at 1, lift at 1. cbn [fst snd].
  unfold bind at 1, lift at 1. rewrite Ht. cbn [fst snd].
  unfold bind at 1, lift at 1. rewrite Ha. cbn [fst snd]. fold T A.
  unfold bind at 1, lift at 1. rewrite Hts. cbn [fst snd].
  unfold bind at 1, lift at 1. rewrite Has. cbn [fst snd].
  unfold bind at 1, modify at 1. cbn [fst snd].
  unfold bind at 1, gets at 1. cbn [fst snd playlist set_songInfo].
  unfold bind at 1, gets at 1. cbn [fst snd currentIndex set_songInfo]. rewrite Hc.
  unfold elementAt. replace (c <? 0)%Z with false by (symmetry; apply Z.ltb_ge; lia).
  rewrite Hn. cbn [truthy when]. fold entry.
  unfold bind at 1, modify at 1. cbn [fst snd].
  unfold bind. rewrite updatePlaylistUI_spec. cbn [playlist set_playlist].
  unfold renders in Hitems. rewrite Hitems. rewrite savePlaylistToStorage_spec.
  destruct st as [pl ci cv p sto vu vs vv si pi al po].
  cbn [currentIndex] in Hc. subst ci. reflexivity.
Qed.

(** [updateMarquee] when the player gives no data: the call inside the
    try block raises and nothing has changed. *)
Lemma updateMarquee_no_data st e :
  videoData (player st) = inl e -> exec updateMarquee st = st.
Proof.
  intros H. unfold exec, updateMarquee, try_catch. cbn [snd].
  unfold bind at 1, gets at 1. cbn [fst snd]. rewrite H. reflexivity.
Qed.

End MarqueeFacts.

(** The controller keeps its page well formed. *)
Module InvariantFacts.
Import Controller ControllerFacts NumberFacts RestoreFacts AddFacts CursorFacts.
Import VolumeFacts MarqueeFacts NavigationFacts.

(** A state with the same playlist, drawn list and cursor is well formed
    when the first one is. *)
Lemma wf_same st st' :
  playlist st' = playlist st -> playlistItems st' = playlistItems st ->
  currentIndex st' = currentIndex st -> wellFormed st -> wellFormed st'.
Proof.
  unfold wellFormed, validCursor. intros -> -> ->. exact (fun H => H).
Qed.

Lemma drawn_loadVideo i st :
  playlistItems st = snd (labelsOf (playlist st)) ->
  playlistItems (exec (loadVideo (Int i)) st) = snd (labelsOf (playlist st)).
Proof.
  intros H. unfold exec. rewrite loadVideo_Int.
  destruct ((0 <=? i)%Z && (i <? Z.of_nat (length (playlist st)))%Z); [|exact H].
  destruct (get (nth (Z.to_nat i) (playlist st) VUndefined) "id"); [exact H | reflexivity].
Qed.

Lemma wf_loadVideo i st : wellFormed st -> wellFormed (exec (loadVideo (Int i)) st).
Proof.
  intros (Ho & Hr & Hd & Hv). unfold wellFormed.
  rewrite loadVideo_playlist, drawn_loadVideo by assumption.
  repeat split; try assumption. now apply valid_loadVideo.
Qed.

Lemma wf_cursor c st :
  (0 <= c < Z.of_nat (length (playlist st)))%Z ->
  wellFormed st -> wellFormed (set_currentIndex (Int c) st).
Proof.
  intros Hc (Ho & Hr & Hd & Hv). repeat split; try assumption.
  intros _. exists c. split; [reflexivity | exact Hc].
Qed.

Lemma wf_playNextVideo st : wellFormed st -> wellFormed (exec playNextVideo st).
Proof.
  intros H. destruct (playlist st) as [|v rest] eqn:Hp.
  - unfold exec, playNextVideo, bind, gets. cbn [fst snd]. rewrite Hp. exact H.
  - assert (Hne : playlist st <> []) by (rewrite Hp; discriminate).
    destruct H as (Ho & Hr & Hd & Hv). destruct (Hv Hne) as [c [Hc Hin]].
    unfold exec. rewrite (playNextVideo_step st Hne). cbv zeta.
    rewrite Hc, next_index by assumption.
    apply wf_loadVideo, wf_cursor; [apply Z.mod_pos_bound; lia|].
    repeat split; assumption.
Qed.

Lemma wf_playPreviousVideo st : wellFormed st -> wellFormed (exec playPreviousVideo st).
Proof.
  intros H. destruct (playlist st) as [|v rest] eqn:Hp.
  - unfold exec, playPreviousVideo, bind, gets. cbn [fst snd]. rewrite Hp. exact H.
  - assert (Hne : playlist st <> []) by (rewrite Hp; discriminate).
    destruct H as (Ho & Hr & Hd & Hv). destruct (Hv Hne) as [c [Hc Hin]].
    unfold exec. rewrite (playPreviousVideo_step st Hne). cbv zeta.
    rewrite Hc, previous_index by assumption.
    apply wf_loadVideo, wf_cursor; [apply Z.mod_pos_bound; lia|].
    repeat split; assumption.
Qed.

(** The add button when its input resolves to [id]. *)
Lemma addVideoToPlaylist_state st id :
  extractVideoId (trim (videoUrl st)) = Some id -> renders (playlist st) ->
  let tr := track (VStr id) (VStr (str "Loading...")) (VStr (str "Loading...")) in
  let st2 := set_videoUrl []
               (set_storage
                  (mkStorage (Some (JSON_stringify (VArr (playlist st ++ [tr]))))
                     (Some (numberToString (currentIndex st)))
                     (youtubePlayerVolume (storage st)))
                  (set_playlistItems (snd (labelsOf (playlist st ++ [tr])))
                     (set_playlist (playlist st ++ [tr]) st))) in
  exec addVideoToPlaylist st =
  if (length (playlist st ++ [tr]) =? 1)%nat then exec (loadVideo (Int 0)) st2 else st2.
Proof.
  intros E Hr. cbv zeta.
  set (tr := track (VStr id) (VStr (str "Loading...")) (VStr (str "Loading..."))).
  assert (Hr' : renders (playlist st ++ [tr])) by now apply renders_app_track.
  unfold exec. rewrite (addVideoToPlaylist_resolved st id E).
  unfold bind at 1. rewrite addToPlaylist_spec. cbv zeta. fold tr.
  unfold renders in Hr'. rewrite Hr'.
  unfold bind at 1, modify at 1. cbn [fst snd].
  unfold bind at 1, gets at 1. cbn [fst snd playlist set_videoUrl set_storage
    set_playlistItems set_playlist].
  destruct (length (playlist st ++ [tr]) =? 1)%nat; reflexivity.
Qed.

Lemma wf_addVideoToPlaylist st : wellFormed st -> wellFormed (exec addVideoToPlaylist st).
Proof.
  intros H. pose proof (valid_addVideoToPlaylist st (proj2 (proj2 (proj2 H)))) as Hvalid.
  destruct (extractVideoId (trim (videoUrl st))) as [id|] eqn:E.
  2:{ rewrite (addVideoToPlaylist_unresolved st E).
      destruct (trim (videoUrl st)); [exact H|]. revert H. now apply wf_same. }
  destruct H as (Ho & Hr & Hd & Hv).
  set (tr := track (VStr id) (VStr (str "Loading...")) (VStr (str "Loading..."))).
  assert (Hr' : renders (playlist st ++ [tr])) by now apply renders_app_track.
  pose proof (addVideoToPlaylist_state st id E Hr) as Ex. cbv zeta in Ex. fold tr in Ex.
  rewrite Ex in *.
  set (st2 := set_videoUrl [] _) in *.
  assert (W2 : forallb isObject (playlist st2) = true /\ renders (playlist st2)
               /\ playlistItems st2 = snd (labelsOf (playlist st2))).
  { cbn [st2 playlist playlistItems set_videoUrl set_storage set_playlistItems set_playlist].
    split; [|split; [exact Hr' | reflexivity]].
    rewrite forallb_app, Ho. reflexivity. }
  destruct W2 as (Ho2 & Hr2 & Hd2).
  destruct (length (playlist st ++ [tr]) =? 1)%nat.
  - unfold wellFormed. rewrite loadVideo_playlist, drawn_loadVideo by assumption.
    repeat split; assumption.
  - repeat split; assumption.
Qed.

(** [updateMarquee], case by case. *)
Lemma wf_updateMarquee st : wellFormed st -> wellFormed (exec updateMarquee st).
Proof.
  intros H.
  destruct (videoData (player st)) as [e|data] eqn:Hd.
  { now rewrite (updateMarquee_no_data st e Hd). }
  assert (Early : forall st', exec updateMarquee st = st' ->
            (st' = st \/ exists s, st' = set_songInfo s st) -> wellFormed st').
  { intros st' _ [->|[s ->]]; [exact H|]. revert H. now apply wf_same. }
  destruct (get data "title") as [e|tv] eqn:Ht.
  { apply (Early _ eq_refl). left. unfold exec, updateMarquee, try_catch. cbn [snd].
    unfold bind at 1, gets at 1. cbn [fst snd]. rewrite Hd.
    unfold bind at 1, lift at 1. cbn [fst snd].
    unfold bind at 1, lift at 1. rewrite Ht. reflexivity. }
  destruct (get data "author") as [e|av] eqn:Ha.
  { apply (Early _ eq_refl). left. unfold exec, updateMarquee, try_catch. cbn [snd].
    unfold bind at 1, gets at 1. cbn [fst snd]. rewrite Hd.
    unfold bind at 1, lift at 1. cbn [fst snd].
    unfold bind at 1, lift at 1. rewrite Ht. cbn [fst snd].
    unfold bind at 1, lift at 1. rewrite Ha. reflexivity. }
  destruct (toString (or_else tv (VStr (str "Unknown Title")))) as [e|t] eqn:Hts.
  { apply (Early _ eq_refl). left. unfold exec, updateMarquee, try_catch. cbn [snd].
    unfold bind at 1, gets at 1. cbn [fst snd]. rewrite Hd.
    unfold bind at 1, lift at 1. cbn [fst snd].
    unfold bind at 1, lift at 1. rewrite Ht. cbn [fst snd].
    unfold bind at 1, lift at 1. rewrite Ha. cbn [fst snd].
    unfold bind at 1, lift at 1. rewrite Hts. reflexivity. }
  destruct (toString (or_else av (VStr (str "Unknown Artist")))) as [e|a] eqn:Has.
  { apply (Early _ eq_refl). left. unfold exec, updateMarquee, try_catch. cbn [snd].
    unfold bind at 1, gets at 1. cbn [fst snd]. rewrite Hd.
    unfold bind at 1, lift at 1. cbn [fst snd].
    unfold bind at 1, lift at 1. rewrite Ht. cbn [fst snd].
    unfold bind at 1, lift at 1. rewrite Ha. cbn [fst snd].
    unfold bind at 1, lift at 1. rewrite Hts. cbn [fst snd].
    unfold bind at 1, lift at 1. rewrite Has. reflexivity. }
  destruct (playlist st) as [|v rest] eqn:Hp.
  { apply (Early _ eq_refl). right. eexists.
    unfold exec, updateMarquee, try_catch. cbn [snd].
    unfold bind at 1, gets at 1. cbn [fst snd]. rewrite Hd.
    unfold bind at 1, lift at 1. cbn [fst snd].
    unfold bind at 1, lift at 1. rewrite Ht. cbn [fst snd].
    unfold bind at 1, lift at 1. rewrite Ha. cbn [fst snd].
    unfold bind at 1, lift at 1. rewrite Hts. cbn [fst snd].
    unfold bind at 1, lift at 1. rewrite Has. cbn [fst snd].
    unfold bind at 1, modify at 1. cbn [fst snd].
    unfold bind at 1, gets at 1. cbn [fst snd playlist set_songInfo]. rewrite Hp.
    unfold bind at 1, gets at 1. cbn [fst snd].
    assert (F : forall i, truthy (elementAt [] i) = false).
    { intros [|z [|d]]; try reflexivity. simpl.
      destruct (z <? 0)%Z; [reflexivity|]. now destruct (Z.to_nat z). }
    rewrite F. reflexivity. }
  destruct H as (Ho & Hr & Hdr & Hv).
  assert (Hne : playlist st <> []) by (rewrite Hp; discriminate).
  destruct (Hv Hne) as [c [Hc Hin]].
  destruct (isObject_nth (playlist st) (Z.to_nat c) Ho ltac:(lia)) as [props Hn].
  destruct (updateMarquee_names st data tv av t a c props Hd Ht Ha Hts Has Hc Hin Hn Hr)
    as [Hitems ->].
  unfold wellFormed.
  cbn [playlist playlistItems set_storage set_playlistItems set_playlist set_songInfo].
  split; [apply isObject_replaceAt; exact Ho|].
  split; [exact Hitems|]. split; [reflexivity|].
  intros _. exists c. split; [exact Hc|].
  cbn [playlist set_storage set_playlistItems set_playlist set_songInfo].
  now rewrite replaceAt_length.
Qed.

(** Every action keeps the page well formed. *)
Lemma wf_handle a st : wellFormed st -> wellFormed (exec (handle a) st).
Proof.
  intros H. destruct a as [ | | | | |i|text|v|data|data|now]; cbn [handle].
  - revert H. apply wf_same; unfold exec, onPlayClick, call, bind, gets, when, modify;
      cbn [fst snd]; destruct (0 <? length (playlist st))%nat; reflexivity.
  - revert H. now apply wf_same.
  - now apply wf_playPreviousVideo.
  - now apply wf_playNextVideo.
  - now apply wf_addVideoToPlaylist.
  - now apply wf_loadVideo.
  - revert H. now apply wf_same.
  - revert H. rewrite slideVolume_spec. now apply wf_same.
  - revert H. now apply wf_same.
  - destruct data; unfold exec, onPlayerStateChange; cbn [playerState_eqb when];
      try exact H.
    + unfold bind at 1. cbn [fst snd ret]. now apply wf_playNextVideo.
    + unfold bind at 1 2. destruct (updateMarquee st) as [[e|[]] st1] eqn:E.
      * assert (st1 = exec updateMarquee st) by (unfold exec; now rewrite E).
        subst st1. cbn [fst snd]. now apply wf_updateMarquee.
      * assert (st1 = exec updateMarquee st) by (unfold exec; now rewrite E).
        subst st1. unfold modify. cbn [fst snd ret].
        generalize (wf_updateMarquee st H). now apply wf_same.
  - unfold intervalTick. destruct now; cbn [playerState_eqb];
      try (revert H; now apply wf_same).
    now apply wf_updateMarquee.
Qed.

End InvariantFacts.

(** What [onPlayerReady] does to the volume. *)
Module ReadyFacts.
Import Controller ControllerFacts NumberFacts RestoreFacts EffFacts LinkFacts.

Lemma sameVolume_refl st : sameVolume st st.
Proof. repeat split. Qed.

Lemma sameVolume_trans a b c : sameVolume a b -> sameVolume b c -> sameVolume a c.
Proof.
  unfold sameVolume. intros (H1 & H2 & H3 & H4) (H5 & H6 & H7 & H8).
  repeat split; congruence.
Qed.

Lemma renderItems_sameVolume items : preserves sameVolume (renderItems items).
Proof. intros st. rewrite renderItems_spec. repeat split. Qed.

Lemma loadVideo_sameVolume index : preserves sameVolume (loadVideo index).
Proof.
  unfold loadVideo, updatePlaylistUI, call.
  repeat (rule sameVolume_refl sameVolume_trans);
    try (repeat split; reflexivity); apply renderItems_sameVolume.
Qed.

Lemma addVideoToPlaylistById_sameVolume id : preserves sameVolume (addVideoToPlaylistById id).
Proof.
  unfold addVideoToPlaylistById, addToPlaylist, updatePlaylistUI, savePlaylistToStorage,
    setItem_youtubePlaylist, setItem_currentIndex.
  repeat (rule sameVolume_refl sameVolume_trans);
    try (repeat split; reflexivity);
    first [apply renderItems_sameVolume | apply loadVideo_sameVolume].
Qed.

Lemma uncaught_exec c st st' : uncaught c st = inr st' -> st' = exec c st.
Proof.
  unfold uncaught, exec. destruct (c st) as [[e|[]] s]; [discriminate|].
  now intros [= <-].
Qed.

(** A restore that returns has left the volume as [restoreVolume] set
    it. *)
Lemma restore_sameVolume st st' :
  loadPlaylistFromStorage st = inr st' -> sameVolume (exec restoreVolume st) st'.
Proof.
  unfold loadPlaylistFromStorage.
  destruct (youtubePlaylist (storage st)) as [text|]; [|intros [= <-]; apply sameVolume_refl].
  destruct (nonEmpty text); [|intros [= <-]; apply sameVolume_refl].
  destruct (JSON_parse text) as [e|v]; [discriminate|].
  destruct v; try discriminate. intros H. apply uncaught_exec in H. subst st'.
  match goal with |- sameVolume ?s (exec ?c ?s) => assert (P : preserves sameVolume c) end;
    [|apply P].
  unfold updatePlaylistUI.
  repeat (rule sameVolume_refl sameVolume_trans);
    try (repeat split; reflexivity);
    first [apply renderItems_sameVolume | apply loadVideo_sameVolume].
Qed.

(** What [restoreVolume] leaves of the volume. *)
Lemma restoreVolume_volume st :
  youtubePlayerVolume (storage (exec restoreVolume st)) = youtubePlayerVolume (storage st)
  /\ match youtubePlayerVolume (storage st) with
     | Some v => muted (player (exec restoreVolume st)) = num_eqb (parseInt v) (Int 0)
     | None => muted (player (exec restoreVolume st)) = muted (player st)
     end.
Proof.
  unfold exec, restoreVolume, bind, gets, modify, call. cbn [fst snd].
  destruct (youtubePlayerVolume (storage st)) as [v|] eqn:E; cbn [fst snd].
  - destruct (num_eqb (parseInt v) (Int 0)); cbn; auto.
  - auto.
Qed.

End ReadyFacts.

(* ================================================================== *)
(** * Further facts about the messages the display receives            *)
(* ================================================================== *)

Module MessageFacts.
Import Display DisplayFacts.


(** A message that is no snapshot and no volume update changes nothing. *)
Lemma other_messages page data st command value params title author :
  get data "command" = inr command -> get data "value" = inr value ->
  get data "params" = inr params ->
  get data "title" = inr title -> get data "author" = inr author ->
  isString command "volumeUpdate" && defined value = false ->
  truthy command && truthy params = false ->
  truthy title && truthy author = false ->
  updateSongInfo page data st = (inr tt, st).
Proof.
  intros Hc Hv Hp Ht Ha Hvol Hw Hd. rewrite updateSongInfo_cases, Hc, Hv, Hvol.
  destruct (isString command "pong"); [reflexivity|].
  unfold wrapped, direct, bind, lift, when, ret. rewrite Hp. cbn [fst snd].
  rewrite Hw. cbn [fst snd]. rewrite Ht, Ha. cbn [fst snd]. now rewrite Hd.
Qed.

(** A volume update only moves the volume controls, when the page has
    them. *)
Lemma volume_update page data st value :
  get data "command" = inr (VStr (str "volumeUpdate")) ->
  get data "value" = inr value -> defined value = true ->
  updateSongInfo page data st =
  if hasVolumeControls page then
    match domString value with
    | inl e => (inl e, st)
    | inr text => (inr tt, set_volumeValue text (set_volumeSlider text st))
    end
  else (inr tt, st).
Proof.
  intros Hc Hv Hd. rewrite updateSongInfo_cases, Hc, Hv, Hd. reflexivity.
Qed.

End MessageFacts.

(* ================================================================== *)
(** * Facts about the controls of the display                          *)
(* ================================================================== *)

Module PanelFacts.
Import Display DisplayFacts LinkFacts EffFacts.

Lemma sendCommand_spec page frame d :
  sendCommand page frame d =
  if isOpen d then (inr tt, set_sent (sent d ++ [frame]) d)
  else connectWebSocket page d.
Proof.
  destruct d as [pl ci so ra si pi vs vv sto se ti di].
  unfold sendCommand, send, isOpen, bind, gets, modify, throw, ret. cbn [fst snd socket].
  destruct so as [[| | |]|]; reflexivity.
Qed.

Lemma connectWebSocket_sent page d : sent (exec (connectWebSocket page) d) = sent d.
Proof.
  unfold exec, connectWebSocket, setTimeout, bind, modify.
  destruct (socketCreated page); reflexivity.
Qed.

Lemma connectWebSocket_socket page d :
  socketCreated page = true -> socket (exec (connectWebSocket page) d) = Some CONNECTING.
Proof. intros H. unfold exec, connectWebSocket. rewrite H. reflexivity. Qed.

(** A command while the socket is not open: nothing is sent, a new
    connection is tried. *)
Lemma sendCommand_closed page frame d :
  isOpen d = false -> exec (sendCommand page frame) d = exec (connectWebSocket page) d.
Proof. intros H. unfold exec. now rewrite sendCommand_spec, H. Qed.

Lemma sendCommand_open page frame d :
  isOpen d = true -> exec (sendCommand page frame) d = set_sent (sent d ++ [frame]) d.
Proof. intros H. unfold exec. now rewrite sendCommand_spec, H. Qed.

Lemma connectWebSocket_ok page d : fst (connectWebSocket page d) = inr tt.
Proof.
  unfold connectWebSocket, setTimeout, bind, modify.
  destruct (socketCreated page); reflexivity.
Qed.

(** [sendCommand] does not raise. *)
Lemma sendCommand_run page frame d :
  sendCommand page frame d = (inr tt, exec (sendCommand page frame) d).
Proof.
  unfold exec. rewrite sendCommand_spec. destruct (isOpen d); [reflexivity|].
  pose proof (connectWebSocket_ok page d) as H.
  destruct (connectWebSocket page d) as [r d']. cbn [fst snd] in *. now subst r.
Qed.

Lemma onDisplay_sendCommand page frame st :
  Panel.onDisplay (sendCommand page frame) st =
  (inr tt, Panel.set_display (exec (sendCommand page frame) (Panel.display st)) st).
Proof. unfold Panel.onDisplay. now rewrite sendCommand_run. Qed.

(** The add button, clicked with a text in the input. *)
Lemma onAddClick_spec page st c r :
  Panel.videoUrl st = Some (c :: r) ->
  exec (Panel.onAddClick page) st =
  Panel.set_resets (Panel.resets st ++ [(2000%Q, Panel.AddButton, Panel.addCaption st)])
    (Panel.set_addCaption (str "Adding...")
       (Panel.set_videoUrl (Some [])
          (Panel.set_display
             (exec (sendCommand page
                      (Panel.commandWith "addVideo" "url" (VStr (c :: r))))
                (Panel.display st)) st))).
Proof.
  intros H. unfold exec, Panel.onAddClick. unfold bind at 1, gets at 1. cbn [fst snd].
  rewrite H. unfold bind at 1. rewrite onDisplay_sendCommand. reflexivity.
Qed.

Lemma onAddClick_empty page st :
  Panel.videoUrl st = None \/ Panel.videoUrl st = Some [] ->
  exec (Panel.onAddClick page) st = st.
Proof.
  intros [H|H]; unfold exec, Panel.onAddClick, bind, gets; cbn [fst snd]; now rewrite H.
Qed.

Lemma slider_sends_volume page st v :
  exec (Panel.slideVolume page v) st =
  Panel.set_display
    (exec (sendCommand page (Panel.commandWith "volume" "value" (VNum (parseInt v))))
       (set_volumeValue v (set_volumeSlider v (Panel.display st)))) st.
Proof.
  unfold exec, Panel.slideVolume, Panel.onVolumeInput.
  unfold bind at 1. unfold Panel.onDisplay at 1, modify at 1. cbn [fst snd].
  unfold bind at 1, gets at 1. cbn [fst snd Panel.display Panel.set_display volumeSlider
    set_volumeSlider].
  unfold bind at 1. unfold Panel.onDisplay at 1, modify at 1.
  cbn [fst snd Panel.display Panel.set_display].
  rewrite onDisplay_sendCommand. destruct st. reflexivity.
Qed.

Lemma onRefreshClick_spec page st :
  exec (Panel.onRefreshClick page) st =
  if isOpen (Panel.display st) then
    Panel.set_resets
      (Panel.resets st ++ [(1000%Q, Panel.RefreshButton, str "Refresh Song Info")])
      (Panel.set_refreshCaption (str "Requesting...")
         (Panel.set_display
            (set_sent (sent (Panel.display st) ++ [commandFrame "requestCurrentSongInfo"])
               (Panel.display st)) st))
  else
    Panel.set_display (exec (connectWebSocket page) (Panel.display st))
      (Panel.set_resets
         (Panel.resets st ++ [(1000%Q, Panel.RefreshButton, str "Refresh Song Info")])
         (Panel.set_refreshCaption (str "Not Connected!") st)).
Proof.
  unfold exec, Panel.onRefreshClick. unfold bind at 1, gets at 1. cbn [fst snd].
  destruct (isOpen (Panel.display st)) eqn:E.
  - destruct st as [d u ac rc rs cv sc]. cbn [Panel.display] in *.
    destruct d as [pl ci so ra si pi vs vv sto se ti di].
    unfold isOpen in E. cbn [socket] in E. destruct so as [[| | |]|]; try discriminate.
    reflexivity.
  - unfold bind, Panel.set_caption, Panel.resetLater, modify, Panel.onDisplay. cbn [fst snd].
    pose proof (connectWebSocket_ok page (Panel.display st)) as H.
    cbn [Panel.display Panel.set_resets Panel.set_refreshCaption].
    unfold exec. destruct (connectWebSocket page (Panel.display st)) as [r d'].
    cbn [fst snd] in *. subst r. destruct st. reflexivity.
Qed.

End PanelFacts.

(* ================================================================== *)
(** * Facts about the attempt counter                                  *)
(* ================================================================== *)

Module BackoffFacts.
Import Display DisplayFacts LinkFacts EffFacts ReconnectFacts.

Lemma sameCounter_refl st : sameCounter st st.
Proof. reflexivity. Qed.

Lemma sameCounter_trans a b c : sameCounter a b -> sameCounter b c -> sameCounter a c.
Proof. unfold sameCounter. congruence. Qed.

Lemma send_sameCounter frame : preserves sameCounter (send frame).
Proof.
  unfold send. repeat (rule sameCounter_refl sameCounter_trans); reflexivity.
Qed.

Lemma connectWebSocket_sameCounter page : preserves sameCounter (connectWebSocket page).
Proof.
  unfold connectWebSocket, setTimeout.
  repeat (rule sameCounter_refl sameCounter_trans); reflexivity.
Qed.

Lemma sendCommand_sameCounter page frame : preserves sameCounter (sendCommand page frame).
Proof.
  unfold sendCommand.
  repeat (rule sameCounter_refl sameCounter_trans);
    [apply send_sameCounter | apply connectWebSocket_sameCounter].
Qed.

Lemma runTimer_sameCounter page t : preserves sameCounter (runTimer page t).
Proof.
  destruct t; cbn [runTimer].
  - unfold requestAgain.
    repeat (rule sameCounter_refl sameCounter_trans); apply send_sameCounter.
  - apply connectWebSocket_sameCounter.
  - apply (preserves_ret _ sameCounter_refl).
Qed.

Lemma heartbeatTick_sameCounter page : preserves sameCounter (heartbeatTick page).
Proof.
  unfold heartbeatTick.
  repeat (rule sameCounter_refl sameCounter_trans);
    [apply send_sameCounter | apply connectWebSocket_sameCounter].
Qed.

(** Whatever arrives, the counter stays 0, 1 or 2. *)
Lemma deliver_counter page e st : counterInRange st -> counterInRange (deliver page e st).
Proof.
  unfold counterInRange. intros H. destruct e as [|frame|[|]|i|].
  - rewrite deliver_open. cbn. lia.
  - cbn [deliver].
    pose proof (onmessage_link page frame st) as E.
    apply (f_equal (fun l => snd (fst l))) in E. cbn [link fst snd] in E.
    rewrite E. exact H.
  - rewrite deliver_clean_close. exact H.
  - rewrite deliver_unclean_close. cbv zeta.
    destruct (3 <=? reconnectAttempts st + 1)%Z eqn:E3.
    + cbn. lia.
    + apply Z.leb_gt in E3. cbn. lia.
  - cbn [deliver]. destruct (nth_error (timers st) i) as [[q t]|]; [|exact H].
    pose proof (runTimer_sameCounter page t (set_timers (removeNth i (timers st)) st)) as E.
    unfold sameCounter in E. unfold exec. rewrite E. exact H.
  - cbn [deliver]. pose proof (heartbeatTick_sameCounter page st) as E.
    unfold sameCounter in E. unfold exec. rewrite E. exact H.
Qed.

(** With the counter in its range, the delay of the next reconnection is
    one of the first three. *)
Lemma delay_in_range st :
  counterInRange st ->
  In (reconnectDelay (reconnectAttempts st)) firstDelays
  /\ (reconnectDelay (reconnectAttempts st) < 30000)%Q.
Proof.
  unfold counterInRange. intros H.
  assert (E : (reconnectAttempts st = 0 \/ reconnectAttempts st = 1
               \/ reconnectAttempts st = 2)%Z) by lia.
  destruct E as [E | [E | E]]; rewrite E; (split; [cbn; auto | reflexivity]).
Qed.

Lemma panel_sameCounter_refl st : Panel.sameCounter st st.
Proof. reflexivity. Qed.

Lemma panel_sameCounter_trans a b c :
  Panel.sameCounter a b -> Panel.sameCounter b c -> Panel.sameCounter a c.
Proof. unfold Panel.sameCounter, sameCounter. congruence. Qed.

Lemma onDisplay_sameCounter {A} (c : M State A) :
  preserves sameCounter c -> preserves Panel.sameCounter (Panel.onDisplay c).
Proof.
  intros H st. unfold Panel.onDisplay. specialize (H (Panel.display st)).
  destruct (c (Panel.display st)) as [r d]. exact H.
Qed.

Lemma set_caption_sameCounter b text : preserves Panel.sameCounter (Panel.set_caption b text).
Proof. destruct b; intros st; reflexivity. Qed.

Lemma onAddClick_sameCounter page : preserves Panel.sameCounter (Panel.onAddClick page).
Proof.
  unfold Panel.onAddClick, Panel.resetLater.
  repeat (rule panel_sameCounter_refl panel_sameCounter_trans);
    try reflexivity; try apply set_caption_sameCounter;
    apply onDisplay_sameCounter, sendCommand_sameCounter.
Qed.

(** What the user does leaves the counter alone. *)
Lemma handle_sameCounter page a :
  Panel.byUser a = true -> preserves Panel.sameCounter (Panel.handle page a).
Proof.
  intros Hu. destruct a; try discriminate Hu; cbn [Panel.handle].
  - apply onDisplay_sameCounter, sendCommand_sameCounter.
  - apply onAddClick_sameCounter.
  - apply preserves_modify. intros st. destruct (Panel.videoUrl st); reflexivity.
  - unfold Panel.slideVolume, Panel.onVolumeInput.
    repeat (rule panel_sameCounter_refl panel_sameCounter_trans);
      apply onDisplay_sameCounter;
      try apply sendCommand_sameCounter;
      apply preserves_modify; intros ?; reflexivity.
  - unfold Panel.onItemClick.
    repeat (rule panel_sameCounter_refl panel_sameCounter_trans).
    apply onDisplay_sameCounter, sendCommand_sameCounter.
  - unfold Panel.onRefreshClick, Panel.resetLater.
    repeat (rule panel_sameCounter_refl panel_sameCounter_trans);
      try reflexivity; try apply set_caption_sameCounter;
      apply onDisplay_sameCounter;
      [apply send_sameCounter | apply connectWebSocket_sameCounter].
  - unfold Panel.toggleControls.
    repeat (rule panel_sameCounter_refl panel_sameCounter_trans); reflexivity.
  - unfold Panel.onKeyDown, Panel.toggleControls.
    repeat (rule panel_sameCounter_refl panel_sameCounter_trans); reflexivity.
  - unfold Panel.onKeyPress.
    repeat (rule panel_sameCounter_refl panel_sameCounter_trans).
    apply onAddClick_sameCounter.
  - unfold Panel.fireReset.
    repeat (rule panel_sameCounter_refl panel_sameCounter_trans);
      try reflexivity; apply set_caption_sameCounter.
Qed.

Lemma handle_counter page a st :
  counterInRange (Panel.display st) ->
  counterInRange (Panel.display (exec (Panel.handle page a) st)).
Proof.
  intros H. destruct (Panel.byUser a) eqn:Hu.
  - pose proof (handle_sameCounter page a Hu st) as E.
    unfold Panel.sameCounter, sameCounter in E.
    unfold counterInRange, exec in *. rewrite E. exact H.
  - destruct a; try discriminate Hu. cbn [Panel.handle].
    now apply deliver_counter.
Qed.

Lemma perform_counter page actions : forall st,
  counterInRange (Panel.display st) ->
  counterInRange (Panel.display (Panel.perform page actions st)).
Proof.
  induction actions as [|a actions IH]; intros st H; [exact H|].
  cbn [Panel.perform fold_left]. apply IH. now apply handle_counter.
Qed.

End BackoffFacts.

(* ================================================================== *)
(** * Facts about the range input                                      *)
(* ================================================================== *)

Module RangeFacts.
Import DigitFacts NumberTextFacts.

Lemma roundHalfUp_integer n : roundHalfUp n 1 = n.
Proof.
  unfold roundHalfUp. replace (2 * n + 1)%Z with (1 + n * (2 * 1))%Z by lia.
  rewrite Z.div_add by lia. change (1 / (2 * 1))%Z with 0%Z. lia.
Qed.

(** Between the bounds a value stays between them when it is rounded. *)
Lemma roundHalfUp_between lo hi n d :
  (0 < d)%Z -> (lo * d <= n <= hi * d)%Z -> (lo <= roundHalfUp n d <= hi)%Z.
Proof.
  intros Hd [Hl Hh]. unfold roundHalfUp. split.
  - apply Z.div_le_lower_bound; nia.
  - assert (H : ((2 * n + d) / (2 * d) < hi + 1)%Z); [|lia].
    apply Z.div_lt_upper_bound; nia.
Qed.

Lemma parse_digits_count s : forall acc count,
  (count <= snd (fst (parse_digits s acc count)))%N.
Proof.
  induction s as [|c s IH]; intros acc count; cbn [parse_digits fst snd]; [lia|].
  destruct (isDigit c); cbn [fst snd]; [|lia].
  specialize (IH (acc * 10 + (Z.of_N c - 48))%Z (count + 1)%N). lia.
Qed.

(** The denominator of a number that has been read is positive. *)
Lemma floatingPoint_denominator s n d : floatingPoint s = Some (n, d) -> (0 < d)%Z.
Proof.
  unfold floatingPoint. destruct (parse_minus s) as [negative s1].
  destruct (parse_digits s1 0 0) as [[ip ni] s2].
  destruct (fraction s2) as [[[fp nf] s3]|]; [|discriminate].
  destruct ((ni =? 0) && (nf =? 0))%N; [discriminate|].
  destruct (exponent s3) as [[e [|c r]]|]; try discriminate.
  destruct (0 <=? e - Z.of_N nf)%Z eqn:E; intros [= <- <-]; [lia|].
  apply Z.leb_gt in E. apply Z.pow_pos_nonneg; lia.
Qed.

(** The text of an integer is read as that integer. *)
Lemma floatingPoint_Int z : (Z.abs z < 10 ^ 21)%Z ->
  floatingPoint (numberToString (Int z)) = Some (z, 1%Z).
Proof.
  intros Hb. destruct (Z.eq_dec z 0) as [->|Hz]; [reflexivity|].
  rewrite numberToString_Int by assumption.
  assert (Hp : (0 < Z.abs z)%Z) by lia.
  destruct (digits_head (Z.abs z) Hp) as (c & r & E & Hc & Hd).
  assert (Hrun : parse_digits (digits (Z.abs z)) 0 0
                 = (Z.abs z, N.of_nat (length (digits (Z.abs z))), [])).
  { rewrite <- (app_nil_r (digits (Z.abs z))) at 1.
    apply parse_digits_digits; [lia | exact I]. }
  assert (Hlen : (N.of_nat (length (digits (Z.abs z))) =? 0)%N = false).
  { rewrite E. reflexivity. }
  unfold floatingPoint.
  destruct (z <? 0)%Z eqn:Es.
  - apply Z.ltb_lt in Es. cbn [str map list_ascii_of_string app parse_minus].
    change (N_of_ascii "-" =? 45)%N with true. cbv iota.
    rewrite Hrun. cbn [fraction exponent]. rewrite Hlen. cbn [andb].
    change (0 <=? 0 - Z.of_N 0)%Z with true. cbv iota.
    f_equal. f_equal. change (Z.of_N 0) with 0%Z. lia.
  - apply Z.ltb_ge in Es. cbn [app]. rewrite E. cbn [parse_minus].
    assert (H45 : (c =? 45)%N = false).
    { unfold isDigit in Hd. apply andb_true_iff in Hd. destruct Hd as [H1 _].
      apply N.leb_le in H1. apply N.eqb_neq. lia. }
    rewrite H45, <- E, Hrun. cbn [fraction exponent]. rewrite Hlen. cbn [andb].
    change (0 <=? 0 - Z.of_N 0)%Z with true. cbv iota.
    f_equal. f_equal. change (Z.of_N 0) with 0%Z. lia.
Qed.

(** Asked for an integer, a range input takes the nearest one within its
    bounds. *)
Lemma rangeValue_Int lo hi z : (Z.abs z < 10 ^ 21)%Z -> (lo <= hi)%Z ->
  rangeValue lo hi (numberToString (Int z)) = numberToString (Int (clamp z lo hi)).
Proof.
  intros Hb Hle. unfold rangeValue. rewrite floatingPoint_Int by assumption.
  rewrite roundHalfUp_integer. unfold clamp. do 2 f_equal.
  destruct (z <? lo * 1)%Z eqn:E1.
  - apply Z.ltb_lt in E1. lia.
  - apply Z.ltb_ge in E1. destruct (lo <=? hi)%Z eqn:E2; [|apply Z.leb_gt in E2; lia].
    cbn [andb]. destruct (hi * 1 <? z)%Z eqn:E3.
    + apply Z.ltb_lt in E3. lia.
    + apply Z.ltb_ge in E3. lia.
Qed.

(** Whatever it is asked for, a range input holds the text of an integer
    within its bounds. *)
Lemma rangeValue_between lo hi text : (lo <= hi)%Z ->
  exists z, (lo <= z <= hi)%Z /\ rangeValue lo hi text = numberToString (Int z).
Proof.
  intros Hle. unfold rangeValue. eexists. split; [|reflexivity].
  destruct (floatingPoint text) as [[n d]|] eqn:E.
  - pose proof (floatingPoint_denominator _ _ _ E) as Hd.
    destruct (n <? lo * d)%Z eqn:E1; [lia|]. apply Z.ltb_ge in E1.
    replace (lo <=? hi)%Z with true by (symmetry; now apply Z.leb_le). cbn [andb].
    destruct (hi * d <? n)%Z eqn:E2; [lia|]. apply Z.ltb_ge in E2.
    now apply roundHalfUp_between.
  - unfold rangeDefault. replace (hi <? lo)%Z with false by (symmetry; apply Z.ltb_ge; lia).
    apply roundHalfUp_between; lia.
Qed.

(** The slider of the controller holds the text of an integer from 0 to
    100, which [parseInt] reads back. *)
Lemma slider_value text :
  exists n, (0 <= n <= 100)%Z
            /\ rangeValue Controller.sliderMin Controller.sliderMax text
               = numberToString (Int n)
            /\ parseInt (rangeValue Controller.sliderMin Controller.sliderMax text) = Int n.
Proof.
  destruct (rangeValue_between Controller.sliderMin Controller.sliderMax text) as (n & Hn & E).
  { unfold Controller.sliderMin, Controller.sliderMax. lia. }
  unfold Controller.sliderMin, Controller.sliderMax in Hn.
  exists n. split; [exact Hn|]. split; [exact E|].
  rewrite E. now apply VolumeFacts.parseInt_numberToString.
Qed.

(** A text the slider can hold is held as it is. *)
Lemma slider_holds n : (0 <= n <= 100)%Z ->
  rangeValue Controller.sliderMin Controller.sliderMax (numberToString (Int n))
  = numberToString (Int n).
Proof.
  intros H. rewrite rangeValue_Int.
  - unfold clamp, Controller.sliderMin, Controller.sliderMax. do 2 f_equal. lia.
  - assert ((100 < 10 ^ 21)%Z) by reflexivity. lia.
  - unfold Controller.sliderMin, Controller.sliderMax. lia.
Qed.

End RangeFacts.

(* ================================================================== *)
(** * The claims                                                       *)
(* ================================================================== *)

Import Controller ControllerFacts NumberFacts RestoreFacts PlayFacts.
Import AddFacts ExtractFacts VolumeFacts CursorFacts ReplicaFacts.
Import DisplayFacts LinkFacts ReconnectFacts.


(** C1.  Restoring from the store.  With no stored playlist (or an empty
    text) [loadPlaylistFromStorage] returns, and the page that has just
    started keeps its empty playlist and cursor 0.  A stored text that
    [JSON.parse] rejects is not treated as absent: the SyntaxError leaves
    the function; a text that parses to something else than an array
    raises a TypeError. *)
Theorem restore_missing_or_malformed (sto : Storage) (p : Player) :
  let st := initial sto p in
  ((youtubePlaylist sto = None \/ youtubePlaylist sto = Some []) ->
   exists st', loadPlaylistFromStorage st = inr st'
               /\ playlist st' = [] /\ currentIndex st' = Int 0)
  /\ (forall text e,
        youtubePlaylist sto = Some text -> text <> [] ->
        JSON_parse text = inl e ->
        e = SyntaxError /\ loadPlaylistFromStorage st = inl SyntaxError)
  /\ (forall text v,
        youtubePlaylist sto = Some text -> text <> [] ->
        JSON_parse text = inr v -> (forall items, v <> VArr items) ->
        loadPlaylistFromStorage st = inl TypeError).
Proof.
  cbv zeta. split; [|split].
  - intros H. exists (exec restoreVolume (initial sto p)). split.
    + apply restore_missing. exact H.
    + destruct (restoreVolume_playlist (initial sto p)) as (H1 & H2 & _).
      rewrite H1, H2. auto.
  - intros text e H Hne Hp.
    assert (He : e = SyntaxError) by (apply JSONFacts.JSON_parse_error in Hp; tauto).
    split; [exact He|]. subst e.
    now apply (restore_parse_error (initial sto p) text).
  - intros text v H Hne Hp Hv.
    now apply (restore_not_array (initial sto p) text v).
Qed.

Lemma restore_missing_or_malformed_witness :
  (exists st', loadPlaylistFromStorage (initial emptyStore idlePlayer) = inr st'
               /\ playlist st' = [] /\ currentIndex st' = Int 0)
  /\ loadPlaylistFromStorage (initial truncatedStore idlePlayer) = inl SyntaxError
  /\ loadPlaylistFromStorage (initial objectStore idlePlayer) = inl TypeError.
Proof.
  split; [|split].
  - apply (proj1 (restore_missing_or_malformed emptyStore idlePlayer)).
    left. reflexivity.
  - apply (proj1 (proj2 (restore_missing_or_malformed truncatedStore idlePlayer))
             (str "[{") SyntaxError).
    + reflexivity.
    + discriminate.
    + reflexivity.
  - apply (proj2 (proj2 (restore_missing_or_malformed objectStore idlePlayer))
             (str "{}") (VObj [])).
    + reflexivity.
    + discriminate.
    + reflexivity.
    + discriminate.
Defined.

(** C1, as stated, fails on a truncated record: the stored text is the
    two characters of an array that opens an object; restoring raises the
    SyntaxError of [JSON.parse], so no state with an empty playlist comes
    back. *)
Lemma restore_truncated_record_raises :
  loadPlaylistFromStorage (initial truncatedStore idlePlayer) = inl SyntaxError
  /\ ~ (exists st', loadPlaylistFromStorage (initial truncatedStore idlePlayer) = inr st'
                    /\ playlist st' = [] /\ currentIndex st' = Int 0).
Proof.
  assert (E : loadPlaylistFromStorage (initial truncatedStore idlePlayer) = inl SyntaxError)
    by reflexivity.
  split; [exact E|]. intros [st' [H _]]. rewrite E in H. discriminate.
Qed.


(** C7.  Wraparound closure.  On a playlist that is not empty and a cursor
    that is one of its indices, [playNextVideo] run as many times as the
    playlist is long brings the cursor back to where it was.  With three
    tracks, [playNextVideo] from cursor 2 gives cursor 0 and
    [playPreviousVideo] from cursor 0 gives cursor 2. *)
Theorem next_wraps_around (st : State) (c : Z) :
  playlist st <> [] ->
  currentIndex st = Int c ->
  (0 <= c < Z.of_nat (length (playlist st)))%Z ->
  currentIndex (Nat.iter (length (playlist st)) (exec playNextVideo) st) = Int c
  /\ (length (playlist st) = 3%nat -> c = 2%Z ->
      currentIndex (exec playNextVideo st) = Int 0)
  /\ (length (playlist st) = 3%nat -> c = 0%Z ->
      currentIndex (exec playPreviousVideo st) = Int 2).
Proof.
  intros Hne Hc Hr. repeat split.
  - destruct (playNextVideo_iter (length (playlist st)) st c Hne Hc Hr) as [_ H].
    rewrite H. f_equal.
    replace (c + Z.of_nat (length (playlist st)))%Z
      with (c + 1 * Z.of_nat (length (playlist st)))%Z by lia.
    rewrite Z.mod_add by lia. apply Z.mod_small, Hr.
  - intros H3 ->. destruct (playNextVideo_valid st 2 Hne Hc Hr) as [_ H].
    rewrite H, H3. reflexivity.
  - intros H3 ->. destruct (playPreviousVideo_valid st 0 Hne Hc Hr) as [_ H].
    rewrite H, H3. reflexivity.
Qed.

Lemma next_wraps_around_witness :
  currentIndex (Nat.iter 3 (exec playNextVideo) threeTracks) = Int 2
  /\ currentIndex (exec playNextVideo threeTracks) = Int 0.
Proof.
  destruct (next_wraps_around threeTracks 2) as (H1 & H2 & _).
  - discriminate.
  - reflexivity.
  - simpl. lia.
  - split; [exact H1 | apply H2; reflexivity].
Defined.

(** C8.  When the player reports ENDED, [onPlayerStateChange] does what
    [playNextVideo] does: nothing on an empty playlist; otherwise the
    cursor moves to the next index modulo the length and that entry is
    loaded into the player; with a single entry that entry is loaded
    again, whatever integer the cursor was. *)
Theorem ended_loads_next (st : State) :
  (playlist st = [] -> exec (onPlayerStateChange ENDED) st = st)
  /\ (forall c entry vid,
        currentIndex st = Int c ->
        (0 <= c < Z.of_nat (length (playlist st)))%Z ->
        nth_error (playlist st)
          (Z.to_nat ((c + 1) mod Z.of_nat (length (playlist st)))) = Some entry ->
        get entry "id" = inr vid ->
        let st' := exec (onPlayerStateChange ENDED) st in
        currentIndex st' = Int ((c + 1) mod Z.of_nat (length (playlist st)))
        /\ currentVideoId st' = vid
        /\ calls (player st') = calls (player st) ++ [LoadVideoById vid]
        /\ playlist st' = playlist st)
  /\ (forall c entry vid,
        playlist st = [entry] ->
        currentIndex st = Int c ->
        get entry "id" = inr vid ->
        let st' := exec (onPlayerStateChange ENDED) st in
        currentIndex st' = Int 0
        /\ currentVideoId st' = vid
        /\ calls (player st') = calls (player st) ++ [LoadVideoById vid]
        /\ playlist st' = [entry]).
Proof.
  split; [|split].
  - intros H. unfold exec. rewrite onPlayerStateChange_ENDED.
    unfold playNextVideo, bind, gets. cbn [fst snd]. rewrite H. reflexivity.
  - intros c entry vid Hc Hr Hnth Hid. cbv zeta. unfold exec.
    rewrite onPlayerStateChange_ENDED.
    assert (Hne : playlist st <> []) by (destruct (playlist st); simpl in *; [lia|congruence]).
    apply (playNextVideo_loads st _ entry vid); try assumption.
    + rewrite Hc. now apply next_index.
    + apply Z.mod_pos_bound. lia.
  - intros c entry vid Hp Hc Hid. cbv zeta. unfold exec.
    rewrite onPlayerStateChange_ENDED.
    assert (Hne : playlist st <> []) by (rewrite Hp; discriminate).
    destruct (playNextVideo_loads st 0 entry vid) as (H1 & H2 & H3 & H4);
      try assumption.
    + rewrite Hc, Hp. cbn [length]. rewrite num_add_Int, num_rem_Int by discriminate.
      now rewrite Z.rem_1_r.
    + lia.
    + now rewrite Hp.
    + unfold exec in *. rewrite Hp in H4. auto.
Qed.

Lemma ended_loads_next_witness :
  calls (player (exec (onPlayerStateChange ENDED) oneTrack)) =
    [LoadVideoById (VStr (str "aaaaaaaaaaa"))]
  /\ calls (player (exec (onPlayerStateChange ENDED) threeTracks)) =
    [LoadVideoById (VStr (str "aaaaaaaaaaa"))].
Proof.
  destruct (ended_loads_next oneTrack) as (_ & _ & H1).
  destruct (ended_loads_next threeTracks) as (_ & H3 & _).
  split.
  - apply (H1 0%Z _ (VStr (str "aaaaaaaaaaa")) eq_refl eq_refl eq_refl).
  - refine (proj1 (proj2 (proj2 (H3 2%Z _ (VStr (str "aaaaaaaaaaa")) eq_refl _ eq_refl eq_refl)))).
    simpl. lia.
Defined.


(** C10.  Adding starts playback.  When the add button resolves the input
    to an identifier and the playlist was empty, the new track is at index
    0, the cursor is 0 and the player has been asked to load that
    identifier, with no other command.  [addVideoToPlaylistById], on a
    playlist that renders, appends the track, sets the cursor to 0 and
    asks the player to load the entry at index 0. *)
Theorem adding_first_video_loads_it (st : State) (id : jsstring) :
  (playlist st = [] ->
   extractVideoId (trim (videoUrl st)) = Some id ->
   let st' := exec addVideoToPlaylist st in
   playlist st' = [track (VStr id) (VStr (str "Loading...")) (VStr (str "Loading..."))]
   /\ currentIndex st' = Int 0
   /\ currentVideoId st' = VStr id
   /\ calls (player st') = calls (player st) ++ [LoadVideoById (VStr id)])
  /\ (renders (playlist st) ->
      let st' := exec (addVideoToPlaylistById id) st in
      playlist st' =
        playlist st ++ [track (VStr id) (VStr (str "Loading...")) (VStr (str "Loading..."))]
      /\ currentIndex st' = Int 0
      /\ exists vid,
           get (nth 0 (playlist st') VUndefined) "id" = inr vid
           /\ currentVideoId st' = vid
           /\ calls (player st') = calls (player st) ++ [LoadVideoById vid]).
Proof.
  split.
  - intros Hp He. cbv zeta.
    eassert (E : exec addVideoToPlaylist st = _).
    { unfold exec. rewrite (addVideoToPlaylist_resolved st id He).
      unfold bind at 1. rewrite addToPlaylist_spec. cbv zeta. rewrite Hp.
      cbn [app labelsOf fst snd]. rewrite entryLabel_track. cbn [fst snd].
      unfold bind at 1, modify at 1. cbn [fst snd].
      unfold bind at 1, gets at 1. cbn [fst snd playlist set_videoUrl set_storage
        set_playlistItems set_playlist length Nat.eqb when].
      rewrite loadVideo_Int. cbn. reflexivity. }
    rewrite E. cbn. auto.
  - intros Hr. cbv zeta.
    pose proof (renders_app_track (playlist st) (VStr id) (str "Loading...")
                  (str "Loading...") Hr) as Hr'.
    unfold renders in Hr'.
    set (items := playlist st ++ _) in *.
    assert (Hlen : (0 < length items)%nat).
    { subst items. rewrite length_app. simpl. lia. }
    assert (Hid : exists vid, get (nth 0 items VUndefined) "id" = inr vid).
    { destruct items as [|v rest]; [simpl in Hlen; lia|].
      destruct (renders_head v rest Hr') as [label Hl].
      eapply entryLabel_get. exact Hl. }
    destruct Hid as [vid Hid].
    eassert (E : exec (addVideoToPlaylistById id) st = _).
    { unfold exec, addVideoToPlaylistById.
      unfold bind at 1. rewrite addToPlaylist_spec. cbv zeta.
      fold items. rewrite Hr'.
      rewrite loadVideo_Int.
      cbn [playlist set_storage set_playlistItems set_playlist].
      replace ((0 <=? 0)%Z && (0 <? Z.of_nat (length items))%Z) with true
        by (symmetry; apply andb_true_iff; split; [reflexivity | apply Z.ltb_lt; lia]).
      change (Z.to_nat 0) with 0%nat. rewrite Hid.
      cbn. reflexivity. }
    rewrite E. cbn. split; [reflexivity|]. split; [reflexivity|].
    exists vid. auto.
Qed.

(** The page just started, its input holding a short-form URL. *)
Lemma adding_first_video_loads_it_witness :
  calls (player (exec addVideoToPlaylist
                   (set_videoUrl (str " https://youtu.be/dQw4w9WgXcQ ")
                      (initial emptyStore idlePlayer)))) =
    [LoadVideoById (VStr (str "dQw4w9WgXcQ"))]
  /\ currentIndex (exec (addVideoToPlaylistById (str "dQw4w9WgXcQ")) threeTracks) = Int 0.
Proof.
  split.
  - refine (proj2 (proj2 (proj2 (proj1 (adding_first_video_loads_it
      (set_videoUrl (str " https://youtu.be/dQw4w9WgXcQ ") (initial emptyStore idlePlayer))
      (str "dQw4w9WgXcQ")) eq_refl _)))).
    vm_compute. reflexivity.
  - refine (proj1 (proj2 (proj2 (adding_first_video_loads_it threeTracks
      (str "dQw4w9WgXcQ")) _))).
    vm_compute. reflexivity.
Defined.

(** C2.  Resolution of the input.  [extractVideoId] only ever returns 11
    characters.  An input with no solidus and no equals sign (so with none
    of the markers) resolves exactly when it is 11 characters long, to
    itself, whatever the characters: the bare identifier dQw4w9WgXcQ does,
    and so does the text not-a-video.  Every input of 11 characters
    resolves, with or without a marker in it.  The short form, the long form and
    the embed form of a URL resolve to their identifier, for every
    identifier of 11 letters, digits, underscores and hyphens.  When the
    input does not resolve, the add button changes neither the playlist,
    the cursor, the store nor the player: it shows a notice. *)
Theorem resolution_by_marker_or_length :
  (forall url id, extractVideoId url = Some id -> length id = 11%nat)
  /\ (forall url, Regex.avoids [47; 61]%N url ->
        extractVideoId url = if (length url =? 11)%nat then Some url else None)
  /\ (forall url, length url = 11%nat ->
        exists id, extractVideoId url = Some id /\ length id = 11%nat)
  /\ (forall id, length id = 11%nat -> Forall (fun c => idChar c = true) id ->
        extractVideoId (str "https://youtu.be/" ++ id) = Some id
        /\ extractVideoId (str "https://www.youtube.com/watch?v=" ++ id) = Some id
        /\ extractVideoId (str "https://www.youtube.com/embed/" ++ id) = Some id)
  /\ extractVideoId (str "https://youtu.be/dQw4w9WgXcQ") = Some (str "dQw4w9WgXcQ")
  /\ extractVideoId (str "dQw4w9WgXcQ") = Some (str "dQw4w9WgXcQ")
  /\ extractVideoId (str "not-a-video") = Some (str "not-a-video")
  /\ (forall st, extractVideoId (trim (videoUrl st)) = None ->
        let st' := exec addVideoToPlaylist st in
        playlist st' = playlist st
        /\ currentIndex st' = currentIndex st
        /\ storage st' = storage st
        /\ player st' = player st
        /\ (trim (videoUrl st) <> [] ->
            alerts st' = alerts st ++ [str "Invalid YouTube URL or ID"])).
Proof.
  split; [exact extract_length|].
  split; [exact extract_no_marker|].
  split.
  { intros url H. destruct (extract_eleven url H) as [id E].
    exists id. split; [exact E | exact (extract_length url id E)]. }
  split.
  { intros id Hlen Hid. split; [|split].
    - now apply extract_short_form.
    - now apply extract_long_form.
    - now apply extract_embed_form. }
  split; [reflexivity|]. split; [reflexivity|]. split; [reflexivity|].
  intros st H. cbv zeta. rewrite (addVideoToPlaylist_unresolved st H).
  destruct (trim (videoUrl st)); cbn; repeat split; try reflexivity.
  intros Hne. contradiction.
Qed.

Lemma resolution_by_marker_or_length_witness :
  extractVideoId (str "https://www.youtube.com/watch?v=dQw4w9WgXcQ") = Some (str "dQw4w9WgXcQ")
  /\ extractVideoId (str "not-a-video!") = None
  /\ playlist (exec addVideoToPlaylist
                 (set_videoUrl (str "not-a-video!") threeTracks)) = playlist threeTracks
  /\ (exists id, extractVideoId (str "v/123456789") = Some id /\ length id = 11%nat).
Proof.
  destruct resolution_by_marker_or_length as (_ & H2 & H11 & H3 & _ & _ & _ & H7).
  split; [|split; [|split]].
  - apply (H3 (str "dQw4w9WgXcQ")); [reflexivity|].
    repeat constructor.
  - apply (H2 (str "not-a-video!")).
    intros c Hc Hin. simpl in Hc. destruct Hc as [<-|[<-|[]]];
      vm_compute in Hin; intuition discriminate.
  - apply (H7 (set_videoUrl (str "not-a-video!") threeTracks)). reflexivity.
  - apply (H11 (str "v/123456789")). reflexivity.
Defined.

(** C2, as stated, fails on the text not-a-video: it is 11 characters
    long, so it resolves to itself, and the add button appends it to the
    empty playlist and has it loaded. *)
Lemma not_a_video_resolves :
  extractVideoId (str "not-a-video") <> None
  /\ playlist (exec addVideoToPlaylist
                 (set_videoUrl (str "not-a-video") (initial emptyStore idlePlayer)))
     <> playlist (initial emptyStore idlePlayer).
Proof. split; discriminate. Qed.


(** C4.  The volume slider.  The script has no clamp of its own: the
    slider is a range input, and the handler stores and shows the value
    the slider holds and gives the player [parseInt] of it.  Asked for the
    integer v (one written with all its digits, so below 10^21), the slider
    holds clamp(v, 0, 100): that is what is stored, what the label shows
    and what the player is given.  At 0 or below the player is muted;
    above 0 it is unmuted afterwards, in particular when it was muted
    before.  Whatever the slider is asked for, what is stored and shown is
    the text of an integer from 0 to 100, and the player is muted exactly
    when that integer is 0. *)
Theorem volume_is_clamped_by_the_slider (st : State) :
  (forall v, (Z.abs v < 10 ^ 21)%Z ->
     let st' := exec (slideVolume (numberToString (Int v))) st in
     let c := clamp v 0 100 in
     youtubePlayerVolume (storage st') = Some (numberToString (Int c))
     /\ volumeValue st' = numberToString (Int c)
     /\ volumeSlider st' = numberToString (Int c)
     /\ (exists after, calls (player st') =
                       calls (player st) ++ SetVolume (Int c) :: after)
     /\ ((v <= 0)%Z -> muted (player st') = true)
     /\ ((0 < v)%Z -> muted (player st') = false))
  /\ (forall text,
        let st' := exec (slideVolume text) st in
        exists n, (0 <= n <= 100)%Z
          /\ youtubePlayerVolume (storage st') = Some (numberToString (Int n))
          /\ volumeValue st' = numberToString (Int n)
          /\ volumeSlider st' = numberToString (Int n)
          /\ (exists after, calls (player st') =
                            calls (player st) ++ SetVolume (Int n) :: after)
          /\ muted (player st') = (n =? 0)%Z).
Proof.
  assert (General : forall text,
    exists n, (0 <= n <= 100)%Z
      /\ rangeValue sliderMin sliderMax text = numberToString (Int n)
      /\ youtubePlayerVolume (storage (exec (slideVolume text) st))
         = Some (numberToString (Int n))
      /\ volumeValue (exec (slideVolume text) st) = numberToString (Int n)
      /\ volumeSlider (exec (slideVolume text) st) = numberToString (Int n)
      /\ (exists after, calls (player (exec (slideVolume text) st)) =
                        calls (player st) ++ SetVolume (Int n) :: after)
      /\ muted (player (exec (slideVolume text) st)) = (n =? 0)%Z).
  { intros text. destruct (RangeFacts.slider_value text) as (n & Hn & E & Hp).
    exists n. split; [exact Hn|]. split; [exact E|].
    rewrite slideVolume_spec. cbv zeta. rewrite Hp, <- E.
    cbn [storage youtubePlayerVolume volumeValue volumeSlider player calls muted
         set_player set_storage set_volumeValue set_volumeSlider].
    split; [reflexivity|]. split; [reflexivity|]. split; [reflexivity|].
    split; [eauto|]. apply NumberFacts.num_eqb_Int. }
  split.
  - intros v Hb. cbv zeta.
    destruct (General (numberToString (Int v))) as (n & Hn & E & H1 & H2 & H3 & H4 & H5).
    rewrite RangeFacts.rangeValue_Int in E
      by (assumption || (unfold sliderMin, sliderMax; lia)).
    assert (En : clamp v 0 100 = n).
    { assert (A : parseInt (numberToString (Int (clamp v sliderMin sliderMax)))
                  = parseInt (numberToString (Int n))) by now rewrite E.
      rewrite !parseInt_numberToString in A
        by (assumption || (unfold clamp, sliderMin, sliderMax; lia)).
      injection A as A. exact A. }
    rewrite En. split; [exact H1|]. split; [exact H2|]. split; [exact H3|].
    split; [exact H4|]. rewrite H5. unfold clamp in En.
    split; intros Hv; [apply Z.eqb_eq | apply Z.eqb_neq]; lia.
  - intros text. cbv zeta.
    destruct (General text) as (n & Hn & _ & H). exists n. split; assumption.
Qed.

(** The slider asked for 0 on a fresh page, then for 40 on a muted
    player, and for 150. *)
Lemma volume_is_clamped_by_the_slider_witness :
  muted (player (exec (slideVolume (numberToString (Int 0)))
                   (initial emptyStore idlePlayer))) = true
  /\ muted (player (exec (slideVolume (numberToString (Int 40)))
                      (exec (slideVolume (numberToString (Int 0)))
                         (initial emptyStore idlePlayer)))) = false
  /\ youtubePlayerVolume
       (storage (exec (slideVolume (numberToString (Int 150)))
                   (initial emptyStore idlePlayer)))
     = Some (numberToString (Int (clamp 150 0 100))).
Proof.
  split; [|split].
  - apply (proj1 (proj2 (proj2 (proj2 (proj2
      (proj1 (volume_is_clamped_by_the_slider (initial emptyStore idlePlayer))
         0%Z eq_refl)))))).
    lia.
  - apply (proj2 (proj2 (proj2 (proj2 (proj2
      (proj1 (volume_is_clamped_by_the_slider
                (exec (slideVolume (numberToString (Int 0)))
                   (initial emptyStore idlePlayer)))
         40%Z eq_refl)))))).
    lia.
  - apply (proj1
      (proj1 (volume_is_clamped_by_the_slider (initial emptyStore idlePlayer))
         150%Z eq_refl)).
Defined.


(** C3.  The cursor stays an index of the playlist under the operations
    of the controller: if it was one (or the playlist was empty) before
    the add button, [addVideoToPlaylistById], [loadVideo] at any integer,
    [playNextVideo] or [playPreviousVideo], it is one afterwards.
    Restoring and applying a snapshot do not check the cursor: after a
    restore it is whatever the stored index reads as, and after a
    snapshot (direct or wrapped) it is the cursor the message carried,
    next to the playlist the message carried; after a nowPlaying command
    that carries a playlist and no cursor it is the cursor there was. *)
Theorem cursor_valid_after_controller_operations :
  (forall st, validCursor st ->
     validCursor (exec addVideoToPlaylist st)
     /\ (forall id, validCursor (exec (addVideoToPlaylistById id) st))
     /\ (forall i, validCursor (exec (loadVideo (Int i)) st))
     /\ validCursor (exec playNextVideo st)
     /\ validCursor (exec playPreviousVideo st))
  /\ (forall st st' text items,
        youtubePlaylist (storage st) = Some text -> text <> [] ->
        JSON_parse text = inr (VArr items) ->
        loadPlaylistFromStorage st = inr st' ->
        playlist st' = items
        /\ currentIndex st' = storedCursor (currentIndexItem (storage st)))
  /\ (forall page st title author pl ci t a,
        truthy title = true -> truthy author = true ->
        toString title = inr t -> toString author = inr a ->
        truthy pl = true -> Display.defined ci = true ->
        (let st' := exec (Display.updateSongInfo page (snapshot title author pl ci)) st in
         Display.playlist st' = pl /\ Display.currentIndex st' = ci)
        /\ (let st' := exec (Display.updateSongInfo page
                               (nowPlaying (snapshot title author pl ci))) st in
            Display.playlist st' = pl /\ Display.currentIndex st' = ci))
  /\ (forall page st title author pl t a,
        truthy title = true -> truthy author = true ->
        toString title = inr t -> toString author = inr a ->
        truthy pl = true ->
        let st' := exec (Display.updateSongInfo page
                           (nowPlaying (VObj [(str "title", title); (str "author", author);
                                              (str "playlist", pl)]))) st in
        Display.playlist st' = pl
        /\ Display.currentIndex st' = Display.currentIndex st).
Proof.
  split; [|split; [|split]].
  - intros st H. split; [now apply valid_addVideoToPlaylist|].
    split; [intros id; now apply valid_addVideoToPlaylistById|].
    split; [intros i; now apply valid_loadVideo|].
    split; [now apply valid_playNextVideo | now apply valid_playPreviousVideo].
  - intros st st' text items. apply restore_array.
  - intros page st title author pl ci t a Ht Ha Hts Has Hpl Hci. split.
    + now apply (direct_snapshot_stored page st title author pl ci t a).
    + now apply (wrapped_snapshot_stored page st title author pl ci t a).
  - intros page st title author pl t a Ht Ha Hts Has Hpl.
    now apply (wrapped_playlist_without_cursor page st title author pl t a).
Qed.

(** Three tracks with the cursor on the last one; the store with one
    track and the index 7; a direct snapshot with one track and cursor
    5. *)
Lemma cursor_valid_after_controller_operations_witness :
  validCursor (exec playNextVideo threeTracks)
  /\ validCursor (exec (addVideoToPlaylistById (str "dQw4w9WgXcQ")) threeTracks)
  /\ (exists st', loadPlaylistFromStorage (initial staleStore idlePlayer) = inr st'
                  /\ playlist st' = [trackA] /\ currentIndex st' = Int 7)
  /\ (let st' := exec (Display.updateSongInfo fullPage
                         (snapshot (VStr (str "T")) (VStr (str "A"))
                            (VArr [trackA]) (VNum (Int 5)))) freshDisplay in
      Display.playlist st' = VArr [trackA] /\ Display.currentIndex st' = VNum (Int 5)).
Proof.
  destruct cursor_valid_after_controller_operations as (Hc & Hr & Hs & _).
  destruct (Hc threeTracks threeTracks_valid) as (_ & H2 & _ & H4 & _).
  split; [exact H4|]. split; [apply H2|]. split.
  - assert (E : exists st', loadPlaylistFromStorage (initial staleStore idlePlayer) = inr st')
      by (eexists; lazy; reflexivity).
    destruct E as [st' E].
    exists st'. split; [exact E|].
    apply (Hr (initial staleStore idlePlayer) st' (JSON_stringify (VArr [trackA])) [trackA]);
      [reflexivity | lazy; discriminate | lazy; reflexivity | exact E].
  - exact (proj1 (Hs fullPage freshDisplay (VStr (str "T")) (VStr (str "A")) (VArr [trackA])
             (VNum (Int 5)) (str "T") (str "A") eq_refl eq_refl eq_refl eq_refl eq_refl eq_refl)).
Defined.

(** C3, as stated, fails for restore and for a snapshot.  A stored
    one-track playlist next to the stored index 7 is restored with cursor
    7.  A snapshot with one track and cursor 5 leaves the display with
    cursor 5.  A display that shows three tracks with cursor 2 and then
    receives a nowPlaying message with a one-track playlist and no cursor
    keeps cursor 2. *)
Lemma cursor_out_of_range_after_restore_and_snapshot :
  (exists st', loadPlaylistFromStorage (initial staleStore idlePlayer) = inr st'
               /\ playlist st' = [trackA] /\ currentIndex st' = Int 7
               /\ ~ validCursor st')
  /\ (let st' := exec (Display.updateSongInfo fullPage
                         (snapshot (VStr (str "T")) (VStr (str "A"))
                            (VArr [trackA]) (VNum (Int 5)))) freshDisplay in
      Display.playlist st' = VArr [trackA]
      /\ Display.currentIndex st' = VNum (Int 5)
      /\ ~ validReplicaCursor st')
  /\ (let st1 := exec (Display.updateSongInfo fullPage firstSnapshot) freshDisplay in
      let st2 := exec (Display.updateSongInfo fullPage shorterPlaylist) st1 in
      validReplicaCursor st1
      /\ Display.playlist st2 = VArr [trackA]
      /\ Display.currentIndex st2 = VNum (Int 2)
      /\ ~ validReplicaCursor st2).
Proof.
  split; [|split].
  - eexists. split; [vm_compute; reflexivity|].
    split; [reflexivity|]. split; [reflexivity|].
    intros H. destruct (H ltac:(discriminate)) as [c [Hc Hr]].
    injection Hc as <-. simpl in Hr. lia.
  - cbv zeta. split; [reflexivity|]. split; [reflexivity|].
    intros H. destruct (H [trackA] eq_refl ltac:(discriminate)) as [c [Hc Hr]].
    injection Hc as <-. simpl in Hr. lia.
  - cbv zeta. split; [|split; [reflexivity|split; [reflexivity|]]].
    + intros items Hi _. exists 2%Z. split; [reflexivity|].
      injection Hi as <-. simpl. lia.
    + intros H. destruct (H [trackA] eq_refl ltac:(discriminate)) as [c [Hc Hr]].
      injection Hc as <-. simpl in Hr. lia.
Qed.


(** C5.  Reconnection after unclean closes.  Each unclean close schedules
    [connectWebSocket] after min(1000 * 1.5^attempts, 30000) milliseconds,
    which never exceeds 30000, and then counts the attempt.  Starting from
    a counter of 0, consecutive unclean closes are scheduled after 1000,
    1500 and 2250 milliseconds; the third one calls the port
    auto-detection (when the page has it) and puts the counter back to 0,
    so the delays start again at 1000. *)
Theorem reconnect_backoff (page : Display.Page) (st : Display.State) (k : nat) :
  Display.reconnectAttempts st = 0%Z ->
  let st' := Display.run page (repeat (Display.SocketClose false) k) st in
  Display.timers st' =
    Display.timers st ++
    map (fun i => (nth (i mod 3) firstDelays 0%Q, Display.Reconnect)) (seq 0 k)
  /\ Display.reconnectAttempts st' = Z.of_nat (k mod 3)
  /\ Display.discoveries st' =
       (Display.discoveries st + if Display.hasAutoReconnect page then k / 3 else 0)%nat
  /\ (forall s,
        Display.timers (Display.deliver page (Display.SocketClose false) s) =
          Display.timers s ++
          [(Display.reconnectDelay (Display.reconnectAttempts s), Display.Reconnect)])
  /\ (forall a,
        (Display.reconnectDelay a == Qmin (1000 * Qpower (3 # 2) a) 30000)%Q
        /\ (Display.reconnectDelay a <= 30000)%Q).
Proof.
  intros H0. cbv zeta.
  assert (Hstep : forall s,
    Display.timers (Display.deliver page (Display.SocketClose false) s) =
    Display.timers s ++
    [(Display.reconnectDelay (Display.reconnectAttempts s), Display.Reconnect)]).
  { intros s. rewrite deliver_unclean_close. cbv zeta.
    destruct (3 <=? _)%Z; [destruct (Display.hasAutoReconnect page)|]; reflexivity. }
  assert (Hmain :
    Display.timers (Display.run page (repeat (Display.SocketClose false) k) st) =
      Display.timers st ++
      map (fun i => (nth (i mod 3) firstDelays 0%Q, Display.Reconnect)) (seq 0 k)
    /\ Display.reconnectAttempts
         (Display.run page (repeat (Display.SocketClose false) k) st) = Z.of_nat (k mod 3)
    /\ Display.discoveries
         (Display.run page (repeat (Display.SocketClose false) k) st) =
       (Display.discoveries st + if Display.hasAutoReconnect page then k / 3 else 0)%nat).
  { induction k as [|k IH].
    - split; [cbn; now rewrite app_nil_r|]. split; [exact H0|].
      cbn [repeat Display.run fold_left]. change (0 / 3)%nat with 0%nat.
      destruct (Display.hasAutoReconnect page); cbv iota; lia.
    - destruct IH as (IH1 & IH2 & IH3).
      replace (repeat (Display.SocketClose false) (S k))
        with (repeat (Display.SocketClose false) k ++ [Display.SocketClose false])
        by (symmetry; apply (repeat_cons k (Display.SocketClose false))).
      rewrite run_app.
      set (s := Display.run page (repeat (Display.SocketClose false) k) st) in *.
      change (Display.run page [Display.SocketClose false] s)
        with (Display.deliver page (Display.SocketClose false) s).
      rewrite seq_S, map_app, app_assoc, <- IH1. cbn [map Nat.add].
      destruct (succ_mod3 k) as [M2 M01].
      pose proof (Nat.mod_upper_bound k 3 ltac:(discriminate)) as Hlt.
      split; [|split].
      + rewrite Hstep, IH2. f_equal. f_equal. f_equal.
        destruct (k mod 3)%nat as [|[|[|r]]]; try reflexivity. lia.
      + rewrite deliver_unclean_close. cbv zeta. rewrite IH2.
        destruct (Nat.eq_dec (k mod 3) 2) as [E|E].
        * destruct (M2 E) as [-> _]. rewrite E. cbn.
          destruct (Display.hasAutoReconnect page); reflexivity.
        * destruct (M01 ltac:(lia)) as [-> _].
          replace (3 <=? Z.of_nat (k mod 3) + 1)%Z with false
            by (symmetry; apply Z.leb_gt; lia).
          cbn. lia.
      + rewrite deliver_unclean_close. cbv zeta. rewrite IH2.
        destruct (Nat.eq_dec (k mod 3) 2) as [E|E].
        * destruct (M2 E) as [_ ->]. rewrite E.
          change (3 <=? Z.of_nat 2 + 1)%Z with true. cbv iota.
          destruct (Display.hasAutoReconnect page); cbn [Display.discoveries
            Display.set_songInfo Display.set_reconnectAttempts Display.set_discoveries
            Display.set_timers Display.set_socket]; lia.
        * destruct (M01 ltac:(lia)) as [_ ->].
          replace (3 <=? Z.of_nat (k mod 3) + 1)%Z with false
            by (symmetry; apply Z.leb_gt; lia).
          cbv iota. exact IH3. }
  destruct Hmain as (H1 & H2 & H3).
  split; [exact H1|]. split; [exact H2|]. split; [exact H3|].
  split; [exact Hstep|].
  intros a. split; [apply reconnectDelay_value | apply reconnectDelay_capped].
Qed.

(** Four unclean closes in a row on a fresh display. *)
Lemma reconnect_backoff_witness :
  let st' := Display.run fullPage (repeat (Display.SocketClose false) 4) freshDisplay in
  map fst (Display.timers st') = [1000; 1500; 2250; 1000]%Q
  /\ Display.reconnectAttempts st' = 1%Z
  /\ Display.discoveries st' = 1%nat.
Proof.
  destruct (reconnect_backoff fullPage freshDisplay 4 eq_refl) as (H1 & H2 & H3 & _).
  cbv zeta. rewrite H1, H2, H3. repeat split.
Defined.

(** C6.  Applying a snapshot twice.  For every message, whatever its
    form (wrapped as nowPlaying, direct, or anything else JSON.parse can
    return), [updateSongInfo] applied a second time leaves the marquee,
    the playlist, the cursor, the drawn list, the store and the volume
    display as the first application left them; the same holds for the
    frame as it arrives on the socket. *)
Theorem snapshot_replay_changes_nothing (page : Display.Page) (st : Display.State) :
  (forall data,
     replica (exec (Display.updateSongInfo page data)
                (exec (Display.updateSongInfo page data) st)) =
     replica (exec (Display.updateSongInfo page data) st))
  /\ (forall frame,
        replica (Display.deliver page (Display.SocketMessage frame)
                   (Display.deliver page (Display.SocketMessage frame) st)) =
        replica (Display.deliver page (Display.SocketMessage frame) st)).
Proof.
  split.
  - intros data. apply updateSongInfo_idempotent.
  - intros frame. apply onmessage_idempotent.
Qed.

(** C9.  The request on open and its single repetition.  When the channel
    opens the display sends one request for the current song and arms one
    2-second timeout.  Messages that arrive meanwhile send nothing.  When
    that timeout fires it is removed, and: if the marquee still shows the
    connection text (no snapshot was rendered) and the socket is still
    open, exactly one more request is sent; if a snapshot was rendered,
    nothing is sent.  One of the two is always the case. *)
Theorem request_repeated_once (page : Display.Page) (st : Display.State)
    (msgs : list jsstring) :
  let st1 := Display.deliver page Display.SocketOpen st in
  let st2 := Display.run page (map Display.SocketMessage msgs) st1 in
  Display.sent st1 = Display.sent st ++ [requestFrame]
  /\ Display.timers st1 = Display.timers st ++ [(2000%Q, Display.RequestAgain)]
  /\ Display.sent st2 = Display.sent st1
  /\ Display.socket st2 = Some Display.OPEN
  /\ (Display.songInfo st2 = Display.connectedText \/ rendered st2)
  /\ (forall i delay,
        nth_error (Display.timers st2) i = Some (delay, Display.RequestAgain) ->
        let st3 := Display.deliver page (Display.TimerFires i) st2 in
        Display.timers st3 = Display.removeNth i (Display.timers st2)
        /\ (Display.songInfo st2 = Display.connectedText ->
            Display.sent st3 = Display.sent st2 ++ [requestFrame])
        /\ (rendered st2 -> Display.sent st3 = Display.sent st2)).
Proof.
  cbv zeta.
  set (st1 := Display.deliver page Display.SocketOpen st).
  set (st2 := Display.run page (map Display.SocketMessage msgs) st1).
  assert (L : link st2 = link st1) by apply run_messages_link.
  unfold link in L. injection L as Lsock Lsent _ _.
  assert (Hopen : Display.socket st2 = Some Display.OPEN) by (rewrite Lsock; reflexivity).
  split; [reflexivity|]. split; [reflexivity|]. split; [exact Lsent|].
  split; [exact Hopen|].
  split.
  { destruct (run_messages_songInfo page msgs st1) as [H|H]; [left | right; exact H].
    fold st2 in H. rewrite H. reflexivity. }
  intros i delay Hi. rewrite (fire_requestAgain page st2 i delay Hi). cbv zeta.
  unfold Display.isOpen. rewrite Hopen.
  split; [|split].
  - destruct (str_eqb _ _); reflexivity.
  - intros ->. rewrite str_eqb_refl. reflexivity.
  - intros Hr. apply rendered_not_connected in Hr.
    destruct (str_eqb (Display.songInfo st2) Display.connectedText) eqn:E; [|reflexivity].
    apply str_eqb_eq in E. contradiction.
Qed.

(** The channel opens, a pong arrives, the timeout fires: two requests
    in all.  The channel opens, a snapshot arrives, the timeout fires: the
    one request of the opening. *)
Lemma request_repeated_once_witness :
  (let st2 := Display.run fullPage
                (map Display.SocketMessage [Display.commandFrame "pong"])
                (Display.deliver fullPage Display.SocketOpen freshDisplay) in
   Display.sent (Display.deliver fullPage (Display.TimerFires 0) st2) =
   [requestFrame; requestFrame])
  /\ (let st2 := Display.run fullPage
                   (map Display.SocketMessage [firstSnapshotFrame])
                   (Display.deliver fullPage Display.SocketOpen freshDisplay) in
      Display.sent (Display.deliver fullPage (Display.TimerFires 0) st2) =
      [requestFrame]).
Proof.
  split; cbv zeta.
  - destruct (request_repeated_once fullPage freshDisplay [Display.commandFrame "pong"])
      as (_ & _ & _ & _ & _ & H).
    destruct (H 0%nat 2000%Q ltac:(lazy; reflexivity)) as (_ & Hs & _).
    etransitivity; [exact (Hs ltac:(lazy; reflexivity))|].
    lazy. reflexivity.
  - destruct (request_repeated_once fullPage freshDisplay [firstSnapshotFrame])
      as (_ & _ & _ & _ & _ & H).
    destruct (H 0%nat 2000%Q ltac:(lazy; reflexivity)) as (_ & _ & Hs).
    etransitivity; [apply Hs; exists (str "C"), (str "c"); lazy; reflexivity|].
    lazy. reflexivity.
Defined.


(* ================================================================== *)
(** * Further properties                                               *)
(* ================================================================== *)

Import DigitFacts NumberTextFacts NumberRoundTrip QuoteFacts RoundTripFacts StoreFacts.
Import SnapshotFacts TrailerFacts NavigationFacts MarqueeFacts InvariantFacts ReadyFacts.
Import MessageFacts PanelFacts BackoffFacts.

(** X1.  What the controller saves, it restores.  After
    [savePlaylistToStorage], a page that starts with that store restores
    the same playlist and the same cursor and draws the same list, when
    the entries are storable and render and the cursor is a safe integer.
    When the cursor is an index of the playlist, the entry it points at is
    loaded into the player. *)
Theorem saved_playlist_is_restored (st : State) (p : Player) (c : Z) :
  forallb storable (playlist st) = true ->
  renders (playlist st) ->
  currentIndex st = Int c ->
  safeInteger c = true ->
  let page := initial (storage (exec savePlaylistToStorage st)) p in
  exists st',
    loadPlaylistFromStorage page = inr st'
    /\ playlist st' = playlist st
    /\ currentIndex st' = Int c
    /\ playlistItems st' = snd (labelsOf (playlist st))
    /\ ((0 <= c < Z.of_nat (length (playlist st)))%Z ->
        exists vid before,
          get (nth (Z.to_nat c) (playlist st) VUndefined) "id" = inr vid
          /\ currentVideoId st' = vid
          /\ calls (player st') = before ++ [LoadVideoById vid]).
Proof.
  intros Hs Hr Hc Hsafe. cbv zeta.
  set (page := initial (storage (exec savePlaylistToStorage st)) p).
  assert (Hsto : storage page =
                 mkStorage (Some (JSON_stringify (VArr (playlist st))))
                   (Some (numberToString (Int c))) (youtubePlayerVolume (storage st))).
  { unfold page, exec. rewrite savePlaylistToStorage_spec, Hc. reflexivity. }
  rewrite (restore_rendering page (playlist st) c); try assumption;
    try (rewrite Hsto; reflexivity).
  eexists. split; [reflexivity|].
  set (st1 := set_currentIndex (Int c) (set_playlist (playlist st) (exec restoreVolume page))).
  assert (E : playlist st1 = playlist st) by reflexivity.
  unfold exec at 1 2 3 4 5, bind. rewrite updatePlaylistUI_spec, E.
  unfold renders in Hr. rewrite Hr.
  destruct (0 <? length (playlist st))%nat eqn:El; cbn [when].
  - rewrite loadVideo_Int. cbn [playlist set_playlistItems]. rewrite E.
    destruct ((0 <=? c)%Z && (c <? Z.of_nat (length (playlist st)))%Z) eqn:Er.
    + apply andb_true_iff in Er. destruct Er as [E1 E2].
      apply Z.leb_le in E1. apply Z.ltb_lt in E2.
      destruct (renders_nth (playlist st) (Z.to_nat c) Hr ltac:(lia)) as [vid Hv].
      rewrite Hv. cbv zeta. rewrite Hr. cbn.
      repeat split; try reflexivity. intros _. exists vid. eexists. repeat split; reflexivity.
    + cbn. repeat split; try reflexivity. intros [H1 H2].
      apply andb_false_iff in Er. destruct Er as [Er|Er];
        [apply Z.leb_gt in Er | apply Z.ltb_ge in Er]; lia.
  - cbn. repeat split; try reflexivity. intros [H1 H2].
    apply Nat.ltb_ge in El. lia.
Qed.

Lemma saved_playlist_is_restored_witness :
  exists st',
    loadPlaylistFromStorage
      (initial (storage (exec savePlaylistToStorage mixTape)) idlePlayer) = inr st'
    /\ playlist st' = [trackA; quotedTrack]
    /\ currentIndex st' = Int 1
    /\ currentVideoId st' = VStr (str "dQw4w9WgXcQ").
Proof.
  destruct (saved_playlist_is_restored mixTape idlePlayer 1 eq_refl eq_refl eq_refl eq_refl)
    as (st' & H1 & H2 & H3 & _ & H5).
  destruct H5 as (vid & before & Hv & Hc & _); [simpl; lia|].
  exists st'. repeat split; try assumption.
  rewrite Hc. injection Hv as <-. reflexivity.
Defined.

(** X2.  What the display stores after a snapshot, it restores.  A
    snapshot (direct or wrapped as nowPlaying) with an array of storable
    entries and a safe integer as cursor is written to the store; a display
    page that starts with that store has the same playlist and the same
    cursor, and draws the same list. *)
Theorem replica_is_restored (page : Display.Page) (st : Display.State)
    (title author : value) (items : list value) (c : Z) (t a : jsstring) :
  truthy title = true -> truthy author = true ->
  toString title = inr t -> toString author = inr a ->
  forallb storable items = true -> safeInteger c = true ->
  (Display.hasPlaylistElement page = false \/ renders items) ->
  forall data,
    data = snapshot title author (VArr items) (VNum (Int c))
    \/ data = nowPlaying (snapshot title author (VArr items) (VNum (Int c))) ->
    let st1 := exec (Display.updateSongInfo page data) st in
    let st2 := exec (Display.loadPlaylistFromStorage page)
                 (Display.initial (Display.storage st1)) in
    Display.playlist st1 = VArr items
    /\ Display.currentIndex st1 = VNum (Int c)
    /\ Display.playlist st2 = VArr items
    /\ Display.currentIndex st2 = VNum (Int c)
    /\ (Display.hasPlaylistElement page = true ->
        Display.playlistItems st2 = Display.playlistItems st1).
Proof.
  intros Ht Ha Hts Has Hs Hc Hr data Hd. cbv zeta.
  assert (E : exec (Display.updateSongInfo page data) st =
              afterSnapshot page t a items (VNum (Int c)) (numberToString (Int c)) st).
  { destruct Hd as [->| ->].
    - now apply (direct_snapshot_applied page st title author).
    - now apply (wrapped_snapshot_applied page st title author). }
  rewrite E. unfold afterSnapshot at 3 4 5.
  cbn [Display.storage Display.set_storage].
  rewrite display_restore by assumption.
  unfold afterSnapshot.
  destruct (Display.hasPlaylistElement page); cbn; repeat split;
    try reflexivity; discriminate.
Qed.

Lemma replica_is_restored_witness :
  let st1 := exec (Display.updateSongInfo fullPage
                     (nowPlaying (snapshot (VStr (str "C")) (VStr (str "c"))
                                    (VArr [trackA; quotedTrack]) (VNum (Int 1)))))
               freshDisplay in
  let st2 := exec (Display.loadPlaylistFromStorage fullPage)
               (Display.initial (Display.storage st1)) in
  Display.playlist st2 = VArr [trackA; quotedTrack]
  /\ Display.currentIndex st2 = VNum (Int 1).
Proof.
  destruct (replica_is_restored fullPage freshDisplay (VStr (str "C")) (VStr (str "c"))
              [trackA; quotedTrack] 1 (str "C") (str "c")
              eq_refl eq_refl eq_refl eq_refl eq_refl eq_refl (or_intror eq_refl)
              _ (or_intror eq_refl)) as (_ & _ & H3 & H4 & _).
  split; assumption.
Defined.

(** X3.  The record the controller writes is one the display script
    reads: the two scripts use the same two keys.  After
    [savePlaylistToStorage] on the controller, [loadPlaylistFromStorage] of
    the display, run on those two items, gives the display the playlist
    and the cursor of the controller. *)
Theorem display_reads_controller_record (page : Display.Page) (st : State) (c : Z) :
  forallb storable (playlist st) = true ->
  currentIndex st = Int c -> safeInteger c = true ->
  let sto := storage (exec savePlaylistToStorage st) in
  let d := exec (Display.loadPlaylistFromStorage page)
             (Display.initial
                (Display.mkStorage (youtubePlaylist sto) (currentIndexItem sto))) in
  Display.playlist d = VArr (playlist st)
  /\ Display.currentIndex d = VNum (currentIndex st)
  /\ (Display.hasPlaylistElement page = true ->
      Display.playlistItems d = snd (labelsOf (playlist st))).
Proof.
  intros Hs Hc Hsafe. cbv zeta.
  assert (Hsto : storage (exec savePlaylistToStorage st) =
                 mkStorage (Some (JSON_stringify (VArr (playlist st))))
                   (Some (numberToString (Int c))) (youtubePlayerVolume (storage st))).
  { unfold exec. rewrite savePlaylistToStorage_spec, Hc. reflexivity. }
  rewrite Hsto, Hc. cbn [youtubePlaylist currentIndexItem].
  rewrite display_restore by assumption.
  destruct (Display.hasPlaylistElement page); repeat split; try reflexivity; discriminate.
Qed.

Lemma display_reads_controller_record_witness :
  let sto := storage (exec savePlaylistToStorage mixTape) in
  let d := exec (Display.loadPlaylistFromStorage fullPage)
             (Display.initial
                (Display.mkStorage (youtubePlaylist sto) (currentIndexItem sto))) in
  Display.playlist d = VArr [trackA; quotedTrack]
  /\ Display.currentIndex d = VNum (Int 1).
Proof.
  destruct (display_reads_controller_record fullPage mixTape 1 eq_refl eq_refl eq_refl)
    as (H1 & H2 & _).
  split; assumption.
Defined.

(** X4.  A URL with more after the identifier.  For an identifier of 11
    letters, digits, underscores and hyphens, followed by nothing or by a
    number sign, an ampersand or a question mark and more text without a
    solidus and without [v=], the short form, the long form and the embed
    form resolve to the identifier: parameters and fragments after it are
    ignored. *)
Theorem resolution_ignores_what_follows (id rest : jsstring) :
  length id = 11%nat -> Forall (fun c => idChar c = true) id -> trailer rest ->
  extractVideoId (str "https://youtu.be/" ++ id ++ rest) = Some id
  /\ extractVideoId (str "https://www.youtube.com/watch?v=" ++ id ++ rest) = Some id
  /\ extractVideoId (str "https://www.youtube.com/embed/" ++ id ++ rest) = Some id.
Proof.
  intros Hlen Hid Ht. split; [|split].
  - now apply TrailerFacts.extract_short_trailer.
  - now apply TrailerFacts.extract_long_trailer.
  - now apply TrailerFacts.extract_embed_trailer.
Qed.

Lemma resolution_ignores_what_follows_witness :
  extractVideoId (str "https://youtu.be/" ++ str "dQw4w9WgXcQ" ++ str "?t=42&list=PL1")
  = Some (str "dQw4w9WgXcQ")
  /\ extractVideoId (str "https://www.youtube.com/watch?v=" ++ str "dQw4w9WgXcQ"
                       ++ str "&t=42#top")
     = Some (str "dQw4w9WgXcQ").
Proof.
  split.
  - apply (resolution_ignores_what_follows (str "dQw4w9WgXcQ") (str "?t=42&list=PL1")).
    + reflexivity.
    + repeat constructor.
    + split; [right; right; reflexivity | split; [|reflexivity]].
      intros c [<- | []] H. simpl in H. intuition discriminate.
  - apply (resolution_ignores_what_follows (str "dQw4w9WgXcQ") (str "&t=42#top")).
    + reflexivity.
    + repeat constructor.
    + split; [right; left; reflexivity | split; [|reflexivity]].
      intros c [<- | []] H. simpl in H. intuition discriminate.
Defined.

(** X5.  Only three things write to the store: adding a video, moving
    the volume slider, and the marquee update of a playing player.  Every
    other action (play, pause, previous, next, a click on an item, typing,
    any other report of the player) leaves the store and the playlist as
    they are, so the position reached by skipping is not saved by the skip
    itself. *)
Theorem only_three_actions_write_the_store (a : action) (st : State) :
  writesStore a = false ->
  storage (exec (handle a) st) = storage st
  /\ playlist (exec (handle a) st) = playlist st.
Proof. intros H. apply (NavigationFacts.handle_sameStore a H st). Qed.

Lemma only_three_actions_write_the_store_witness :
  storage (exec (handle ClickNext) threeTracks) = emptyStore
  /\ playlist (exec (handle (ClickItem 1)) threeTracks) = [trackA; trackB; trackC].
Proof.
  split.
  - apply (only_three_actions_write_the_store ClickNext threeTracks eq_refl).
  - apply (only_three_actions_write_the_store (ClickItem 1) threeTracks eq_refl).
Defined.

(** X6.  Previous undoes next and next undoes previous.  On a playlist
    that is not empty, with the cursor on one of its indices,
    [playPreviousVideo] after [playNextVideo] and [playNextVideo] after
    [playPreviousVideo] bring the cursor back, and the playlist is as
    before. *)
Theorem previous_undoes_next (st : State) (c : Z) :
  playlist st <> [] ->
  currentIndex st = Int c ->
  (0 <= c < Z.of_nat (length (playlist st)))%Z ->
  currentIndex (exec playPreviousVideo (exec playNextVideo st)) = Int c
  /\ currentIndex (exec playNextVideo (exec playPreviousVideo st)) = Int c
  /\ playlist (exec playPreviousVideo (exec playNextVideo st)) = playlist st
  /\ playlist (exec playNextVideo (exec playPreviousVideo st)) = playlist st.
Proof.
  intros Hne Hc Hr. set (n := Z.of_nat (length (playlist st))) in *.
  destruct (playNextVideo_valid st c Hne Hc Hr) as [Pn Cn].
  destruct (playPreviousVideo_valid st c Hne Hc Hr) as [Pp Cp].
  fold n in Cn, Cp.
  assert (Hn : (0 <= (c + 1) mod n < n)%Z) by (apply Z.mod_pos_bound; lia).
  assert (Hp : (0 <= (c - 1) mod n < n)%Z) by (apply Z.mod_pos_bound; lia).
  destruct (playPreviousVideo_valid (exec playNextVideo st) ((c + 1) mod n))
    as [Ppn Cpn]; rewrite ?Pn; try assumption.
  destruct (playNextVideo_valid (exec playPreviousVideo st) ((c - 1) mod n))
    as [Pnp Cnp]; rewrite ?Pp; try assumption.
  rewrite Pn in Cpn. rewrite Pp in Cnp. fold n in Cpn, Cnp.
  repeat split.
  - rewrite Cpn. f_equal. rewrite Zminus_mod_idemp_l.
    replace (c + 1 - 1)%Z with c by lia. apply Z.mod_small. lia.
  - rewrite Cnp. f_equal. rewrite Zplus_mod_idemp_l.
    replace (c - 1 + 1)%Z with c by lia. apply Z.mod_small. lia.
  - congruence.
  - congruence.
Qed.

Lemma previous_undoes_next_witness :
  currentIndex (exec playPreviousVideo (exec playNextVideo threeTracks)) = Int 2
  /\ currentIndex (exec playNextVideo (exec playPreviousVideo threeTracks)) = Int 2.
Proof.
  destruct (previous_undoes_next threeTracks 2) as (H1 & H2 & _).
  - discriminate.
  - reflexivity.
  - simpl. lia.
  - split; assumption.
Defined.

(** X7.  The page stays well formed.  If the entries of the playlist are
    objects that render, the drawn list shows exactly them and the cursor
    is an index of the playlist, then the same holds after any sequence of
    actions: clicks on play, pause, previous, next, add and on an item,
    typing, moving the slider, and anything the player reports.  In
    particular the drawn list has one item per entry. *)
Theorem actions_keep_the_page_well_formed (actions : list action) (st : State) :
  wellFormed st ->
  wellFormed (perform actions st)
  /\ length (playlistItems (perform actions st)) = length (playlist (perform actions st)).
Proof.
  intros H.
  assert (W : wellFormed (perform actions st)).
  { revert st H. induction actions as [|a l IH]; intros st H; [exact H|].
    apply IH. now apply InvariantFacts.wf_handle. }
  split; [exact W|]. destruct W as (_ & Hr & Hd & _). rewrite Hd.
  clear - Hr. induction (playlist (perform actions st)) as [|v l IH]; [reflexivity|].
  apply MarqueeFacts.renders_cons in Hr. destruct Hr as [[label Hl] Hr].
  simpl. rewrite Hl. simpl. now rewrite IH.
Qed.

Lemma actions_keep_the_page_well_formed_witness :
  let page := perform [ClickNext; TypeUrl (str "https://youtu.be/dQw4w9WgXcQ"); ClickAdd;
                       PlayerData (videoData namingPlayer); StateChange PLAYING;
                       ClickItem 9; SlideVolume (str "30"); StateChange ENDED]
                drawnTape in
  wellFormed page /\ length (playlistItems page) = length (playlist page).
Proof.
  apply actions_keep_the_page_well_formed.
  split; [reflexivity | split; [reflexivity | split; [reflexivity|]]].
  intros _. exists 2%Z. split; [reflexivity | simpl; lia].
Defined.

(** X8.  A playing player names the entry.  When the player reports
    PLAYING and gives its video data, with the cursor on an entry that is
    an object, the marquee shows title and author, the entry at the cursor
    gets that title and that author (or Unknown Title and Unknown Artist
    for a missing or empty one) and keeps its id, the other entries, the
    length and the cursor are as before, and the playlist and the cursor
    are written to the store. *)
Theorem playing_names_the_entry (st : State) (data tv av : value) (t a : jsstring)
    (c : Z) (props : list (jsstring * value)) :
  videoData (player st) = inr data ->
  get data "title" = inr tv -> get data "author" = inr av ->
  let T := if truthy tv then tv else VStr (str "Unknown Title") in
  let A := if truthy av then av else VStr (str "Unknown Artist") in
  toString T = inr t -> toString A = inr a ->
  currentIndex st = Int c -> (0 <= c < Z.of_nat (length (playlist st)))%Z ->
  nth (Z.to_nat c) (playlist st) VUndefined = VObj props ->
  renders (playlist st) ->
  let st' := exec (onPlayerStateChange PLAYING) st in
  songInfo st' = str "Now Playing: " ++ t ++ str " by " ++ a
  /\ length (playlist st') = length (playlist st)
  /\ get (nth (Z.to_nat c) (playlist st') VUndefined) "title" = inr T
  /\ get (nth (Z.to_nat c) (playlist st') VUndefined) "author" = inr A
  /\ get (nth (Z.to_nat c) (playlist st') VUndefined) "id" = get (VObj props) "id"
  /\ (forall j, j <> Z.to_nat c ->
        nth j (playlist st') VUndefined = nth j (playlist st) VUndefined)
  /\ currentIndex st' = Int c
  /\ youtubePlaylist (storage st') = Some (JSON_stringify (VArr (playlist st')))
  /\ currentIndexItem (storage st') = Some (numberToString (Int c))
  /\ playlistItems st' = snd (labelsOf (playlist st')).
Proof.
  intros Hd Ht Ha T A Hts Has Hc Hin Hn Hr. cbv zeta.
  destruct (MarqueeFacts.updateMarquee_names st data tv av t a c props
              Hd Ht Ha Hts Has Hc Hin Hn Hr) as [Hitems E].
  fold (or_else tv (VStr (str "Unknown Title"))) in T.
  fold (or_else av (VStr (str "Unknown Artist"))) in A.
  fold T A in E, Hitems.
  assert (E' : exec (onPlayerStateChange PLAYING) st =
               set_polling (S (polling (exec updateMarquee st))) (exec updateMarquee st))
    by reflexivity.
  rewrite E', E.
  cbn [songInfo playlist currentIndex storage playlistItems set_polling set_storage
       set_playlistItems set_playlist set_songInfo youtubePlaylist currentIndexItem].
  destruct (MarqueeFacts.named_entry props T A) as (H1 & H2 & H3).
  rewrite MarqueeFacts.replaceAt_length.
  rewrite !(MarqueeFacts.replaceAt_nth _ VUndefined) by lia.
  rewrite Nat.eqb_refl.
  repeat split; try assumption; try reflexivity.
  intros j Hj. rewrite (MarqueeFacts.replaceAt_nth _ VUndefined) by lia.
  now replace (j =? Z.to_nat c)%nat with false by (symmetry; now apply Nat.eqb_neq).
Qed.

Lemma playing_names_the_entry_witness :
  let st' := exec (onPlayerStateChange PLAYING) playingTape in
  songInfo st' = str "Now Playing: Song by Unknown Artist"
  /\ get (nth 2 (playlist st') VUndefined) "author" = inr (VStr (str "Unknown Artist"))
  /\ get (nth 2 (playlist st') VUndefined) "id" = inr (VStr (str "ccccccccccc")).
Proof.
  destruct (playing_names_the_entry playingTape
              (VObj [(str "title", VStr (str "Song")); (str "author", VStr [])])
              (VStr (str "Song")) (VStr []) (str "Song") (str "Unknown Artist") 2
              [(str "id", VStr (str "ccccccccccc")); (str "title", VStr (str "C"));
               (str "author", VStr (str "c"))]
              eq_refl eq_refl eq_refl eq_refl eq_refl eq_refl
              ltac:(simpl; lia) eq_refl eq_refl)
    as (H1 & _ & _ & H4 & H5 & _).
  repeat split; assumption.
Defined.

(** X9.  A player without data.  When [getVideoData] raises, the error
    does not leave [updateMarquee]: after a PLAYING report the page is as
    it was, but for the interval that has been started. *)
Theorem playing_without_data_changes_nothing (st : State) (e : error) :
  videoData (player st) = inl e ->
  exec updateMarquee st = st
  /\ exec (onPlayerStateChange PLAYING) st = set_polling (S (polling st)) st
  /\ exec (intervalTick PLAYING) st = st.
Proof.
  intros H. pose proof (MarqueeFacts.updateMarquee_no_data st e H) as E.
  split; [exact E|]. split; [|exact E].
  assert (E' : exec (onPlayerStateChange PLAYING) st =
               set_polling (S (polling (exec updateMarquee st))) (exec updateMarquee st))
    by reflexivity.
  now rewrite E', E.
Qed.

Lemma playing_without_data_changes_nothing_witness :
  exec updateMarquee threeTracks = threeTracks
  /\ exec (intervalTick PLAYING) threeTracks = threeTracks.
Proof.
  destruct (playing_without_data_changes_nothing threeTracks TypeError eq_refl)
    as (H1 & _ & H3).
  split; assumption.
Defined.

(** X10.  The volume survives a reload.  When [onPlayerReady] returns on
    a page that starts with a stored volume, the label shows the stored
    text, the slider holds what a range input makes of it (the text
    itself when it is an integer from 0 to 100, as the slider handler
    stores it) and the player is muted exactly when the text reads as 0;
    with no stored volume the slider and the label show 50 and the mute
    flag of the player is left alone.  The stored volume is not
    changed. *)
Theorem volume_survives_reload (sto : Storage) (p : Player)
    (autostart video : option jsstring) (st' : State) :
  onPlayerReady autostart video (initial sto p) = inr st' ->
  match youtubePlayerVolume sto with
  | Some v =>
      volumeSlider st' = rangeValue sliderMin sliderMax v
      /\ volumeValue st' = v
      /\ muted (player st') = num_eqb (parseInt v) (Int 0)
      /\ (forall n, (0 <= n <= 100)%Z -> v = numberToString (Int n) ->
          volumeSlider st' = v)
  | None =>
      volumeSlider st' = str "50" /\ volumeValue st' = str "50"
      /\ muted (player st') = muted p
  end
  /\ youtubePlayerVolume (storage st') = youtubePlayerVolume sto.
Proof.
  intros H. unfold onPlayerReady, and_then in H.
  destruct (loadPlaylistFromStorage (initial sto p)) as [e|st1] eqn:L; [discriminate|].
  apply ReadyFacts.restore_sameVolume in L. destruct L as (V1 & V2 & V3 & V4).
  destruct (ReadyFacts.restoreVolume_volume (initial sto p)) as [R1 R2].
  rewrite R1 in V1. cbn [storage initial] in V1, R2.
  set (st2 := match youtubePlayerVolume (storage st1) with Some v => _ | None => _ end) in H.
  assert (S2 : sameVolume st2 st' \/ st' = st2).
  { destruct autostart as [a|]; [|right; now injection H].
    destruct video as [[|c v]|]; try (right; now injection H).
    destruct (str_eqb a (str "true")); [|right; now injection H].
    left. apply ReadyFacts.uncaught_exec in H. subst st'.
    apply ReadyFacts.addVideoToPlaylistById_sameVolume. }
  assert (S2' : youtubePlayerVolume (storage st') = youtubePlayerVolume (storage st2)
                /\ volumeSlider st' = volumeSlider st2
                /\ volumeValue st' = volumeValue st2
                /\ muted (player st') = muted (player st2)).
  { destruct S2 as [S2| ->]; [exact S2 | repeat split]. }
  destruct S2' as (T1 & T2 & T3 & T4).
  rewrite T1, T2, T3, T4. subst st2. rewrite V1.
  assert (Assigned : forall x v n,
    let st2 := exec (assignSlider x ;; modify (set_volumeValue v) ;;
                     call (SetVolume n))%eff st1 in
    volumeSlider st2 = rangeValue sliderMin sliderMax x
    /\ volumeValue st2 = v
    /\ muted (player st2) = muted (player st1)
    /\ youtubePlayerVolume (storage st2) = youtubePlayerVolume (storage st1)).
  { intros x v n. unfold assignSlider.
    generalize (rangeValue sliderMin sliderMax x) as y. intros y.
    cbv zeta. repeat split. }
  destruct (youtubePlayerVolume sto) as [v|].
  - destruct (Assigned v v (parseInt v)) as (A1 & A2 & A3 & A4).
    rewrite A1, A2, A3, A4, V4. split; [|exact V1].
    split; [reflexivity|]. split; [reflexivity|]. split; [exact R2|].
    intros n Hn ->. now apply RangeFacts.slider_holds.
  - destruct (Assigned (str "50") (str "50") (Int 50)) as (A1 & A2 & A3 & A4).
    rewrite A1, A2, A3, A4, V4. split; [|exact V1].
    split; [exact (RangeFacts.slider_holds 50 ltac:(lia))|].
    split; [reflexivity | exact R2].
Qed.

Lemma volume_survives_reload_witness :
  exists st',
    onPlayerReady None None (initial quietStore idlePlayer) = inr st'
    /\ volumeSlider st' = str "0" /\ volumeValue st' = str "0"
    /\ muted (player st') = true.
Proof.
  assert (E : exists st', onPlayerReady None None (initial quietStore idlePlayer) = inr st').
  { eexists. lazy. reflexivity. }
  destruct E as [st' E]. exists st'. split; [exact E|].
  destruct (volume_survives_reload quietStore idlePlayer None None st' E)
    as ((_ & H2 & H3 & H4) & _).
  split; [apply (H4 0%Z); [lia | reflexivity]|]. split; assumption.
Defined.

(** X11.  Autostart needs both parameters, and does not check the video.
    With autostart=true and a video parameter that is not empty, on a page
    with no stored playlist, [onPlayerReady] makes that text the only entry
    of the playlist, whatever it is, puts the cursor on it and asks the
    player to load it.  Without autostart=true, or without a video
    parameter that is not empty, the playlist, the cursor and the store are
    what the restore left. *)
Theorem autostart_needs_both_parameters :
  (forall sto p id,
     youtubePlaylist sto = None -> id <> [] ->
     exists st' before,
       onPlayerReady (Some (str "true")) (Some id) (initial sto p) = inr st'
       /\ playlist st' = [track (VStr id) (VStr (str "Loading...")) (VStr (str "Loading..."))]
       /\ currentIndex st' = Int 0
       /\ currentVideoId st' = VStr id
       /\ calls (player st') = before ++ [LoadVideoById (VStr id)])
  /\ (forall st autostart video st',
        onPlayerReady autostart video st = inr st' ->
        autostart <> Some (str "true") \/ video = None \/ video = Some [] ->
        exists st1,
          loadPlaylistFromStorage st = inr st1
          /\ playlist st' = playlist st1
          /\ currentIndex st' = currentIndex st1
          /\ storage st' = storage st1).
Proof.
  split.
  - intros sto p id Hs Hid.
    destruct id as [|c v]; [contradiction|].
    unfold onPlayerReady.
    rewrite (restore_missing (initial sto p)) by (left; exact Hs).
    cbn [and_then]. change (str_eqb (str "true") (str "true")) with true. cbv iota.
    set (st2 := match youtubePlayerVolume _ with Some v0 => _ | None => _ end).
    assert (P2 : playlist st2 = [] /\ currentIndex st2 = Int 0).
    { subst st2. destruct (restoreVolume_playlist (initial sto p)) as (H1 & H2 & H3).
      destruct (youtubePlayerVolume _); cbn; rewrite H1, H2; split; reflexivity. }
    destruct P2 as [P2 C2].
    assert (E : addVideoToPlaylistById (c :: v) st2
                = (inr tt, exec (addVideoToPlaylistById (c :: v)) st2)
                /\ playlist (exec (addVideoToPlaylistById (c :: v)) st2) =
                   [track (VStr (c :: v)) (VStr (str "Loading...")) (VStr (str "Loading..."))]
                /\ currentIndex (exec (addVideoToPlaylistById (c :: v)) st2) = Int 0
                /\ currentVideoId (exec (addVideoToPlaylistById (c :: v)) st2) = VStr (c :: v)
                /\ calls (player (exec (addVideoToPlaylistById (c :: v)) st2)) =
                   calls (player st2) ++ [LoadVideoById (VStr (c :: v))]).
    { unfold exec, addVideoToPlaylistById. unfold bind. rewrite addToPlaylist_spec.
      cbv zeta. rewrite P2. cbn [app labelsOf]. rewrite entryLabel_track. cbn [fst snd].
      rewrite loadVideo_Int. cbn. repeat split; reflexivity. }
    destruct E as (E & E1 & E2 & E3 & E4).
    exists (exec (addVideoToPlaylistById (c :: v)) st2), (calls (player st2)).
    unfold uncaught. rewrite E. auto.
  - intros st autostart video st' H Hno. unfold onPlayerReady, and_then in H.
    destruct (loadPlaylistFromStorage st) as [e|st1] eqn:L; [discriminate|].
    exists st1. split; [reflexivity|].
    set (st2 := match youtubePlayerVolume (storage st1) with Some v => _ | None => _ end) in H.
    assert (E2 : playlist st2 = playlist st1 /\ currentIndex st2 = currentIndex st1
                 /\ storage st2 = storage st1).
    { subst st2. destruct (youtubePlayerVolume (storage st1)); cbn; auto. }
    assert (E : st' = st2).
    { destruct autostart as [a|]; [|now injection H].
      destruct video as [[|c v]|]; try (now injection H).
      destruct (str_eqb a (str "true")) eqn:Ea; [|now injection H].
      apply str_eqb_eq in Ea. subst a.
      destruct Hno as [Hno|[Hno|Hno]]; [now contradiction Hno | discriminate | discriminate]. }
    subst st'. exact E2.
Qed.

Lemma autostart_needs_both_parameters_witness :
  exists st' before,
    onPlayerReady (Some (str "true")) (Some (str "not a video"))
      (initial emptyStore idlePlayer) = inr st'
    /\ playlist st' = [track (VStr (str "not a video")) (VStr (str "Loading..."))
                         (VStr (str "Loading..."))]
    /\ currentIndex st' = Int 0
    /\ currentVideoId st' = VStr (str "not a video")
    /\ calls (player st') = before ++ [LoadVideoById (VStr (str "not a video"))].
Proof.
  apply (proj1 autostart_needs_both_parameters emptyStore idlePlayer (str "not a video")).
  - reflexivity.
  - discriminate.
Defined.



(** X13.  Only snapshots and volume updates change the display.  A
    frame that is not JSON, a pong, and any message without a title and an
    author of its own and without parameters leave the marquee, the
    replica, the drawn list, the volume controls, the store, the socket
    and the timers as they were (the log of the debug panel is not part of
    the state).  A volume update with a value only sets the slider and its label
    (nothing when the page has no volume controls), even if the message
    carries a title, an author and a playlist as well. *)
Theorem only_snapshots_and_volume_change_the_display
    (page : Display.Page) (st : Display.State) :
  (forall frame e, JSON_parse frame = inl e ->
     Display.deliver page (Display.SocketMessage frame) st = st)
  /\ (forall data, get data "command" = inr (VStr (str "pong")) ->
        exec (Display.updateSongInfo page data) st = st)
  /\ (forall data command value params title author,
        get data "command" = inr command -> get data "value" = inr value ->
        get data "params" = inr params ->
        get data "title" = inr title -> get data "author" = inr author ->
        Display.isString command "volumeUpdate" && Display.defined value = false ->
        truthy command && truthy params = false ->
        truthy title && truthy author = false ->
        exec (Display.updateSongInfo page data) st = st)
  /\ (forall data value text,
        get data "command" = inr (VStr (str "volumeUpdate")) ->
        get data "value" = inr value -> Display.defined value = true ->
        Display.domString value = inr text ->
        exec (Display.updateSongInfo page data) st =
        if Display.hasVolumeControls page
        then Display.set_volumeValue text (Display.set_volumeSlider text st)
        else st).
Proof.
  split; [|split; [|split]].
  - intros frame e H. unfold Display.deliver, exec, Display.onmessage, try_catch, bind, lift.
    rewrite H. reflexivity.
  - intros data H. unfold exec. rewrite updateSongInfo_cases, H. reflexivity.
  - intros data command value params title author Hc Hv Hp Ht Ha H1 H2 H3.
    unfold exec.
    now rewrite (MessageFacts.other_messages page data st command value params title author).
  - intros data value text Hc Hv Hd Ht. unfold exec.
    rewrite (MessageFacts.volume_update page data st value Hc Hv Hd), Ht.
    destruct (Display.hasVolumeControls page); reflexivity.
Qed.

Lemma only_snapshots_and_volume_change_the_display_witness :
  Display.deliver fullPage (Display.SocketMessage (str "hello")) freshDisplay = freshDisplay
  /\ exec (Display.updateSongInfo fullPage
             (VObj [(str "command", VStr (str "volumeUpdate")); (str "value", VNum (Int 30))]))
       freshDisplay
     = Display.set_volumeValue (str "30") (Display.set_volumeSlider (str "30") freshDisplay).
Proof.
  destruct (only_snapshots_and_volume_change_the_display fullPage freshDisplay)
    as (H1 & _ & _ & H4).
  split.
  - apply (H1 (str "hello") SyntaxError). reflexivity.
  - apply (H4 _ (VNum (Int 30)) (str "30")); reflexivity.
Defined.

(** X14.  A stored record that cannot be used stops the display before
    it connects.  [loadPlaylistFromStorage] runs in the DOMContentLoaded
    handler before the socket is created and nothing catches what it
    raises: with a
    stored text that is not JSON, or (on a page with the list element) one
    that is not an array, the handler ends there, no socket is created and
    nothing is scheduled or sent.  With no stored playlist the handler
    goes on and creates the socket. *)
Theorem unusable_record_stops_the_display (page : Display.Page) (sto : Display.Storage) :
  (forall text,
     Display.youtubePlaylist sto = Some text -> text <> [] ->
     (exists e, JSON_parse text = inl e)
     \/ (Display.hasPlaylistElement page = true
         /\ exists v, JSON_parse text = inr v /\ forall items, v <> VArr items) ->
     let r := Display.onDOMContentLoaded page (Display.initial sto) in
     (exists e, fst r = inl e)
     /\ Display.socket (snd r) = None
     /\ Display.timers (snd r) = []
     /\ Display.sent (snd r) = [])
  /\ (Display.youtubePlaylist sto = None ->
      Display.socketCreated page = true ->
      let r := Display.onDOMContentLoaded page (Display.initial sto) in
      fst r = inr tt
      /\ Display.socket (snd r) = Some Display.CONNECTING
      /\ Display.playlist (snd r) = VArr []).
Proof.
  split.
  - intros text Hs Hne Hbad. cbv zeta.
    assert (E : exists e st', Display.onDOMContentLoaded page (Display.initial sto) = (inl e, st')
                /\ Display.socket st' = None /\ Display.timers st' = []
                /\ Display.sent st' = []).
    { unfold Display.onDOMContentLoaded, Display.loadPlaylistFromStorage.
      unfold bind at 1 2, gets at 1. cbn [fst snd Display.storage Display.initial].
      rewrite Hs. destruct text as [|c t]; [contradiction|]. cbn [nonEmpty when].
      unfold bind at 1, lift at 1.
      destruct Hbad as [[e He]|[Hel [v [Hv Hnot]]]].
      + rewrite He. cbn. eexists _, _. repeat split.
      + rewrite Hv. cbn [fst snd]. unfold bind at 1, modify at 1. cbn [fst snd].
        unfold bind at 1, modify at 1. cbn [fst snd].
        rewrite display_updatePlaylistUI_spec, Hel. cbn [negb].
        cbn [Display.playlist Display.set_currentIndex Display.set_playlist].
        destruct v as [ | | | | |items| ];
          try (exfalso; now apply (Hnot items)); cbn; eexists _, _; repeat split. }
    destruct E as (e & st' & -> & H1 & H2 & H3). cbn [fst snd]. eauto.
  - intros Hs Hc. cbv zeta.
    assert (E : Display.onDOMContentLoaded page (Display.initial sto) =
                (inr tt, Display.set_socket (Some Display.CONNECTING) (Display.initial sto))).
    { unfold Display.onDOMContentLoaded, Display.loadPlaylistFromStorage,
        Display.connectWebSocket.
      unfold bind, gets. cbn [fst snd Display.storage Display.initial].
      rewrite Hs, Hc. reflexivity. }
    rewrite E. repeat split.
Qed.

Lemma unusable_record_stops_the_display_witness :
  let r := Display.onDOMContentLoaded fullPage (Display.initial cutOffRecord) in
  (exists e, fst r = inl e)
  /\ Display.socket (snd r) = None
  /\ Display.timers (snd r) = []
  /\ Display.sent (snd r) = [].
Proof.
  apply (proj1 (unusable_record_stops_the_display fullPage cutOffRecord) (str "[{")).
  - reflexivity.
  - discriminate.
  - left. exists SyntaxError. reflexivity.
Defined.

(** X15.  After a clean close only the heartbeat reconnects.  A clean
    close schedules no reconnection; the next tick of the heartbeat finds
    the socket closed and calls [connectWebSocket], while a tick on an open
    socket sends one ping and changes nothing else. *)
Theorem heartbeat_reconnects_after_clean_close (page : Display.Page) (st : Display.State) :
  let closed := Display.deliver page (Display.SocketClose true) st in
  Display.timers closed = Display.timers st
  /\ Display.sent closed = Display.sent st
  /\ Display.deliver page Display.Heartbeat closed =
     exec (Display.connectWebSocket page) closed
  /\ (Display.socketCreated page = true ->
      Display.socket (Display.deliver page Display.Heartbeat closed)
      = Some Display.CONNECTING)
  /\ (Display.isOpen st = true ->
      Display.deliver page Display.Heartbeat st =
      Display.set_sent (Display.sent st ++ [Display.commandFrame "ping"]) st).
Proof.
  cbv zeta. rewrite deliver_clean_close.
  split; [reflexivity|]. split; [reflexivity|].
  split; [reflexivity|]. split.
  - intros H. cbn [Display.deliver]. unfold exec, Display.heartbeatTick, bind, gets.
    cbn [fst snd Display.isOpen Display.socket Display.set_songInfo Display.set_socket].
    unfold Display.connectWebSocket. rewrite H. reflexivity.
  - intros H. cbn [Display.deliver]. unfold exec, Display.heartbeatTick, bind, gets.
    cbn [fst snd]. rewrite H.
    destruct st as [pl ci so ra si pi vs vv sto se ti di].
    unfold Display.isOpen in H. cbn [Display.socket] in H.
    destruct so as [[| | |]|]; try discriminate. reflexivity.
Qed.

Lemma heartbeat_reconnects_after_clean_close_witness :
  Display.socket
    (Display.deliver fullPage Display.Heartbeat
       (Display.deliver fullPage (Display.SocketClose true)
          (Display.deliver fullPage Display.SocketOpen freshDisplay)))
  = Some Display.CONNECTING
  /\ Display.deliver fullPage Display.Heartbeat
       (Display.deliver fullPage Display.SocketOpen freshDisplay)
     = Display.set_sent
         (Display.sent (Display.deliver fullPage Display.SocketOpen freshDisplay)
            ++ [Display.commandFrame "ping"])
         (Display.deliver fullPage Display.SocketOpen freshDisplay).
Proof.
  destruct (heartbeat_reconnects_after_clean_close fullPage
              (Display.deliver fullPage Display.SocketOpen freshDisplay))
    as (_ & _ & _ & H4 & H5).
  split; [apply H4 | apply H5]; reflexivity.
Defined.

(** X16.  Commands given while the socket is not open are lost.  Whatever
    the user does on the display page while the socket is not open (a
    click on play, pause, previous, next, add, refresh or an item, moving
    the slider, typing, a key, Enter in the input), no frame is sent.  A
    control button only starts a new connection and leaves the rest of the
    page as it was, so its command is not kept for later; the add button
    clears the input all the same. *)
Theorem commands_are_lost_while_disconnected (page : Display.Page)
    (a : Panel.action) (st : Panel.State) :
  Panel.byUser a = true ->
  Display.isOpen (Panel.display st) = false ->
  Display.sent (Panel.display (exec (Panel.handle page a) st))
  = Display.sent (Panel.display st)
  /\ (forall c, a = Panel.ClickControl c ->
        exec (Panel.handle page a) st =
        Panel.set_display (exec (Display.connectWebSocket page) (Panel.display st)) st)
  /\ (forall c r, a = Panel.ClickAdd -> Panel.videoUrl st = Some (c :: r) ->
        Panel.videoUrl (exec (Panel.handle page a) st) = Some []
        /\ Panel.display (exec (Panel.handle page a) st) =
           exec (Display.connectWebSocket page) (Panel.display st)).
Proof.
  intros Hu Hc.
  assert (Hadd : Display.sent (Panel.display (exec (Panel.onAddClick page) st))
                 = Display.sent (Panel.display st)).
  { destruct (Panel.videoUrl st) as [[|c r]|] eqn:E.
    - rewrite PanelFacts.onAddClick_empty by auto. reflexivity.
    - rewrite (PanelFacts.onAddClick_spec page st c r E).
      cbn [Panel.display Panel.set_resets Panel.set_addCaption Panel.set_videoUrl
           Panel.set_display].
      rewrite PanelFacts.sendCommand_closed by assumption.
      apply PanelFacts.connectWebSocket_sent.
    - rewrite PanelFacts.onAddClick_empty by auto. reflexivity. }
  split; [|split].
  - destruct a as [c| |text|v|i| | |key|key|i|e]; try discriminate Hu; cbn [Panel.handle].
    + unfold exec, Panel.onControlClick. rewrite PanelFacts.onDisplay_sendCommand.
      cbn [snd Panel.display Panel.set_display].
      rewrite PanelFacts.sendCommand_closed by assumption.
      apply PanelFacts.connectWebSocket_sent.
    + exact Hadd.
    + unfold exec, modify. cbn [snd]. destruct (Panel.videoUrl st); reflexivity.
    + destruct (Display.hasVolumeControls page); [|reflexivity].
      cbn [when]. rewrite PanelFacts.slider_sends_volume. cbn [Panel.display Panel.set_display].
      rewrite PanelFacts.sendCommand_closed.
      * rewrite PanelFacts.connectWebSocket_sent. reflexivity.
      * destruct (Panel.display st) as [pl ci so ra si pi vs vv sto se ti di].
        exact Hc.
    + unfold exec, bind, gets. cbn [fst snd].
      destruct (i <? length (Display.playlistItems (Panel.display st)))%nat;
        [|reflexivity].
      cbn [when]. unfold Panel.onItemClick. rewrite PanelFacts.onDisplay_sendCommand.
      cbn [snd Panel.display Panel.set_display].
      rewrite PanelFacts.sendCommand_closed by assumption.
      apply PanelFacts.connectWebSocket_sent.
    + rewrite PanelFacts.onRefreshClick_spec, Hc. cbn [Panel.display Panel.set_display].
      apply PanelFacts.connectWebSocket_sent.
    + reflexivity.
    + unfold Panel.onKeyDown.
      destruct (str_eqb key (str "c") || str_eqb key (str "C")); reflexivity.
    + unfold Panel.onKeyPress, exec at 1, bind at 1, gets at 1. cbn [fst snd].
      destruct (Panel.videoUrl st) eqn:E; [|reflexivity].
      destruct (str_eqb key (str "Enter")); [exact Hadd | reflexivity].
    + unfold exec, Panel.fireReset, bind, gets. cbn [fst snd].
      destruct (nth_error (Panel.resets st) i) as [[[q b] text]|]; [|reflexivity].
      destruct b; reflexivity.
  - intros c ->. cbn [Panel.handle]. unfold exec at 1, Panel.onControlClick.
    rewrite PanelFacts.onDisplay_sendCommand. cbn [snd].
    now rewrite PanelFacts.sendCommand_closed.
  - intros c r -> E. cbn [Panel.handle]. rewrite (PanelFacts.onAddClick_spec page st c r E).
    cbn [Panel.videoUrl Panel.display Panel.set_resets Panel.set_addCaption
         Panel.set_videoUrl Panel.set_display].
    split; [reflexivity|]. now apply PanelFacts.sendCommand_closed.
Qed.

Lemma commands_are_lost_while_disconnected_witness :
  Display.sent (Panel.display (exec (Panel.handle fullPage Panel.ClickAdd) closedPanel)) = []
  /\ Panel.videoUrl (exec (Panel.handle fullPage Panel.ClickAdd) closedPanel) = Some [].
Proof.
  destruct (commands_are_lost_while_disconnected fullPage Panel.ClickAdd closedPanel
              eq_refl eq_refl) as (H1 & _ & H3).
  split; [exact H1|].
  exact (proj1 (H3 _ _ eq_refl eq_refl)).
Defined.

(** X17.  What an open socket carries.  With the socket open, a click on
    a control button sends the one frame of its command; the add button
    sends one frame that reads back as the addVideo command with the text
    of the input, whatever characters it holds; the slider sends one frame
    that reads back as the volume command with the number the text starts
    with, or with null when it starts with none; an item sends the
    loadVideo command with its index. *)
Theorem open_socket_carries_the_commands (page : Display.Page) (st : Panel.State) :
  Display.isOpen (Panel.display st) = true ->
  let sentBy a := Display.sent (Panel.display (exec (Panel.handle page a) st)) in
  let before := Display.sent (Panel.display st) in
  (forall c,
     sentBy (Panel.ClickControl c) = before ++ [Display.commandFrame (Panel.controlName c)])
  /\ (forall url, Panel.videoUrl st = Some url -> url <> [] ->
        exists frame,
          sentBy Panel.ClickAdd = before ++ [frame]
          /\ JSON_parse frame =
             inr (VObj [(str "command", VStr (str "addVideo")); (str "url", VStr url)]))
  /\ (Display.hasVolumeControls page = true ->
      forall v, exists frame,
        sentBy (Panel.SlideVolume v) = before ++ [frame]
        /\ (parseInt v = NaN ->
            JSON_parse frame =
            inr (VObj [(str "command", VStr (str "volume")); (str "value", VNull)]))
        /\ (forall n, parseInt v = Int n -> safeInteger n = true ->
            JSON_parse frame =
            inr (VObj [(str "command", VStr (str "volume")); (str "value", VNum (Int n))])))
  /\ (forall i, (i < length (Display.playlistItems (Panel.display st)))%nat ->
        safeInteger (Z.of_nat i) = true ->
        exists frame,
          sentBy (Panel.ClickItem i) = before ++ [frame]
          /\ JSON_parse frame =
             inr (VObj [(str "command", VStr (str "loadVideo"));
                        (str "index", VNum (Int (Z.of_nat i)))])).
Proof.
  intros Ho. cbv zeta. split; [|split; [|split]].
  - intros c. cbn [Panel.handle]. unfold exec at 1, Panel.onControlClick.
    rewrite PanelFacts.onDisplay_sendCommand. cbn [snd Panel.display Panel.set_display].
    now rewrite PanelFacts.sendCommand_open.
  - intros [|c r] E Hne; [contradiction|]. cbn [Panel.handle].
    rewrite (PanelFacts.onAddClick_spec page st c r E).
    cbn [Panel.display Panel.set_resets Panel.set_addCaption Panel.set_videoUrl
         Panel.set_display].
    rewrite PanelFacts.sendCommand_open by assumption.
    eexists. split; [reflexivity|].
    unfold Panel.commandWith. now apply JSON_round_trip.
  - intros Hv v. cbn [Panel.handle]. rewrite Hv. cbn [when].
    rewrite PanelFacts.slider_sends_volume. cbn [Panel.display Panel.set_display].
    rewrite PanelFacts.sendCommand_open.
    2:{ destruct (Panel.display st) as [pl ci so ra si pi vs vv sto se ti di]. exact Ho. }
    eexists. split; [reflexivity|]. split.
    + intros ->. unfold Panel.commandWith.
      change (JSON_stringify (VObj [(str "command", VStr (str "volume"));
                                    (str "value", VNum NaN)]))
        with (JSON_stringify (VObj [(str "command", VStr (str "volume"));
                                    (str "value", VNull)])).
      now apply JSON_round_trip.
    + intros n -> Hn. unfold Panel.commandWith. apply JSON_round_trip.
      cbn [storable forallb fst snd map]. rewrite Hn. reflexivity.
  - intros i Hi Hn. cbn [Panel.handle]. unfold exec at 1, bind at 1, gets at 1.
    cbn [fst snd].
    replace (i <? length (Display.playlistItems (Panel.display st)))%nat with true
      by (symmetry; now apply Nat.ltb_lt).
    cbn [when]. unfold Panel.onItemClick. rewrite PanelFacts.onDisplay_sendCommand.
    cbn [snd Panel.display Panel.set_display].
    rewrite PanelFacts.sendCommand_open by assumption.
    eexists. split; [reflexivity|].
    unfold Panel.commandWith. apply JSON_round_trip.
    cbn [storable forallb fst snd map]. rewrite Hn. reflexivity.
Qed.

Lemma open_socket_carries_the_commands_witness :
  (exists frame,
     Display.sent (Panel.display (exec (Panel.handle fullPage Panel.ClickAdd) openPanel))
     = Display.sent (Panel.display openPanel) ++ [frame]
     /\ JSON_parse frame =
        inr (VObj [(str "command", VStr (str "addVideo"));
                   (str "url", VStr (str "https://youtu.be/dQw4w9WgXcQ"))]))
  /\ Display.sent (Panel.display
                     (exec (Panel.handle fullPage (Panel.ClickControl Panel.Next)) openPanel))
     = Display.sent (Panel.display openPanel) ++ [Display.commandFrame "next"].
Proof.
  destruct (open_socket_carries_the_commands fullPage openPanel eq_refl)
    as (H1 & H2 & _).
  split.
  - apply H2; [reflexivity | discriminate].
  - apply (H1 Panel.Next).
Defined.

(** X18.  The caption of the add button.  A click on the add button with
    a text in the input shows Adding... and, two seconds later, the
    caption there was before.  A second click before that timeout has
    fired remembers Adding... as the caption there was: once both timeouts
    have fired the button still shows Adding... . *)
Theorem add_caption_comes_back_once (page : Display.Page) (st : Panel.State)
    (url url' : jsstring) :
  Panel.videoUrl st = Some url -> url <> [] -> url' <> [] ->
  Panel.resets st = [] ->
  Panel.addCaption (Panel.perform page [Panel.ClickAdd] st) = str "Adding..."
  /\ Panel.addCaption (Panel.perform page [Panel.ClickAdd; Panel.ResetFires 0] st)
     = Panel.addCaption st
  /\ Panel.addCaption
       (Panel.perform page
          [Panel.ClickAdd; Panel.TypeUrl url'; Panel.ClickAdd;
           Panel.ResetFires 0; Panel.ResetFires 0] st)
     = str "Adding..."
  /\ Panel.resets
       (Panel.perform page
          [Panel.ClickAdd; Panel.TypeUrl url'; Panel.ClickAdd;
           Panel.ResetFires 0; Panel.ResetFires 0] st)
     = [].
Proof.
  intros E Hne Hne' Hr.
  destruct url as [|c r]; [contradiction|].
  destruct url' as [|c' r']; [contradiction|].
  unfold Panel.perform. cbn [fold_left].
  assert (E1 : exec (Panel.handle page Panel.ClickAdd) st =
               Panel.set_resets [(2000%Q, Panel.AddButton, Panel.addCaption st)]
                 (Panel.set_addCaption (str "Adding...")
                    (Panel.set_videoUrl (Some [])
                       (Panel.set_display
                          (exec (Display.sendCommand page
                                   (Panel.commandWith "addVideo" "url" (VStr (c :: r))))
                             (Panel.display st)) st)))).
  { cbn [Panel.handle]. now rewrite (PanelFacts.onAddClick_spec page st c r E), Hr. }
  rewrite E1. set (st1 := Panel.set_resets _ _).
  assert (E2 : exec (Panel.handle page (Panel.TypeUrl (c' :: r'))) st1 =
               Panel.set_videoUrl (Some (c' :: r')) st1) by reflexivity.
  rewrite E2. set (st2 := Panel.set_videoUrl (Some (c' :: r')) st1).
  assert (E3 : exec (Panel.handle page Panel.ClickAdd) st2 =
               Panel.set_resets
                 [(2000%Q, Panel.AddButton, Panel.addCaption st);
                  (2000%Q, Panel.AddButton, str "Adding...")]
                 (Panel.set_addCaption (str "Adding...")
                    (Panel.set_videoUrl (Some [])
                       (Panel.set_display
                          (exec (Display.sendCommand page
                                   (Panel.commandWith "addVideo" "url" (VStr (c' :: r'))))
                             (Panel.display st2)) st2)))).
  { cbn [Panel.handle]. now rewrite (PanelFacts.onAddClick_spec page st2 c' r' eq_refl). }
  rewrite E3. repeat split; reflexivity.
Qed.

Lemma add_caption_comes_back_once_witness :
  Panel.addCaption (Panel.perform fullPage [Panel.ClickAdd; Panel.ResetFires 0] closedPanel)
  = str "Add"
  /\ Panel.addCaption
       (Panel.perform fullPage
          [Panel.ClickAdd; Panel.TypeUrl (str "x"); Panel.ClickAdd;
           Panel.ResetFires 0; Panel.ResetFires 0] closedPanel)
     = str "Adding...".
Proof.
  destruct (add_caption_comes_back_once fullPage closedPanel
              (str "https://youtu.be/dQw4w9WgXcQ") (str "x") eq_refl)
    as (_ & H2 & H3 & _); try discriminate; [reflexivity|].
  split; assumption.
Defined.

(** X19.  A video that has been added is there after a reload.  When the
    add button resolves its input, the playlist with the new entry is
    written to the store at once: a page that starts with that store
    restores the old entries followed by the new one, with Loading... as
    its title and author, and the cursor the page had when the button was
    clicked. *)
Theorem added_video_is_restored (st : State) (p : Player) (id : jsstring) (c : Z) :
  extractVideoId (trim (videoUrl st)) = Some id ->
  forallb storable (playlist st) = true ->
  renders (playlist st) ->
  currentIndex st = Int c -> safeInteger c = true ->
  let added := track (VStr id) (VStr (str "Loading...")) (VStr (str "Loading...")) in
  playlist (exec addVideoToPlaylist st) = playlist st ++ [added]
  /\ exists st',
       loadPlaylistFromStorage (initial (storage (exec addVideoToPlaylist st)) p) = inr st'
       /\ playlist st' = playlist st ++ [added]
       /\ currentIndex st' = Int c.
Proof.
  intros E Hs Hr Hc Hsafe. cbv zeta.
  set (tr := track (VStr id) (VStr (str "Loading...")) (VStr (str "Loading..."))).
  pose proof (InvariantFacts.addVideoToPlaylist_state st id E Hr) as Ex.
  cbv zeta in Ex. fold tr in Ex.
  set (st2 := set_videoUrl [] _) in Ex.
  assert (Hsto : storage (exec addVideoToPlaylist st) = storage st2
                 /\ playlist (exec addVideoToPlaylist st) = playlist st ++ [tr]).
  { rewrite Ex. destruct (length (playlist st ++ [tr]) =? 1)%nat; [|split; reflexivity].
    destruct (NavigationFacts.loadVideo_sameStore (Int 0) st2) as [H1 H2].
    unfold exec. split; [exact H1 | exact H2]. }
  destruct Hsto as [Hsto Hpl]. split; [exact Hpl|].
  set (page := initial (storage (exec addVideoToPlaylist st)) p).
  assert (Hr' : renders (playlist st ++ [tr])) by now apply renders_app_track.
  assert (Hs' : forallb storable (playlist st ++ [tr]) = true).
  { rewrite forallb_app, Hs. reflexivity. }
  rewrite (StoreFacts.restore_rendering page (playlist st ++ [tr]) c); try assumption.
  - eexists. split; [reflexivity|].
    set (st1 := set_currentIndex (Int c) (set_playlist (playlist st ++ [tr])
                                            (exec restoreVolume page))).
    unfold exec at 1 2. unfold bind. rewrite updatePlaylistUI_spec.
    assert (E1 : playlist st1 = playlist st ++ [tr]) by reflexivity.
    rewrite E1. unfold renders in Hr'. rewrite Hr'.
    destruct (0 <? length (playlist st ++ [tr]))%nat; cbn [when].
    + fold (exec (loadVideo (Int c))
              (set_playlistItems (snd (labelsOf (playlist st ++ [tr]))) st1)).
      rewrite loadVideo_playlist, loadVideo_cursor.
      cbn [playlist currentIndex set_playlistItems]. rewrite E1.
      split; [reflexivity|].
      destruct ((0 <=? c)%Z && (c <? Z.of_nat (length (playlist st ++ [tr])))%Z); reflexivity.
    + split; reflexivity.
  - unfold page. cbn [storage initial]. rewrite Hsto. reflexivity.
  - unfold page. cbn [storage initial]. rewrite Hsto, <- Hc. reflexivity.
Qed.

Lemma added_video_is_restored_witness :
  exists st',
    loadPlaylistFromStorage
      (initial (storage (exec addVideoToPlaylist typedTape)) idlePlayer) = inr st'
    /\ playlist st' =
       [trackA; quotedTrack]
       ++ [track (VStr (str "dQw4w9WgXcQ")) (VStr (str "Loading..."))
             (VStr (str "Loading..."))]
    /\ currentIndex st' = Int 1.
Proof.
  apply (added_video_is_restored typedTape idlePlayer (str "dQw4w9WgXcQ") 1);
    reflexivity.
Defined.

(** X20.  The backoff never reaches its limit.  The attempt counter of
    the display starts at 0 and, whatever the user does and whatever
    arrives (opens, messages, clean and unclean closes, timeouts,
    heartbeats), stays 0, 1 or 2: an unclean close always schedules the
    reconnection after 1000, 1500 or 2250 milliseconds, and the limit of
    30000 milliseconds is never what the page waits. *)
Theorem backoff_never_reaches_its_limit (page : Display.Page)
    (actions : list Panel.action) (st : Panel.State) :
  counterInRange (Panel.display st) ->
  let d := Panel.display (Panel.perform page actions st) in
  counterInRange d
  /\ exists delay,
       In delay firstDelays /\ (delay < 30000)%Q
       /\ Display.timers (Display.deliver page (Display.SocketClose false) d)
          = Display.timers d ++ [(delay, Display.Reconnect)].
Proof.
  intros H. cbv zeta.
  pose proof (BackoffFacts.perform_counter page actions st H) as Hd.
  split; [exact Hd|].
  destruct (BackoffFacts.delay_in_range _ Hd) as [Hin Hlt].
  exists (Display.reconnectDelay
            (Display.reconnectAttempts (Panel.display (Panel.perform page actions st)))).
  split; [exact Hin | split; [exact Hlt|]].
  rewrite deliver_unclean_close. cbv zeta.
  destruct (3 <=? _)%Z; [destruct (Display.hasAutoReconnect page)|]; reflexivity.
Qed.

Lemma backoff_never_reaches_its_limit_witness :
  let d := Panel.display
             (Panel.perform fullPage
                [Panel.Arrives (Display.SocketClose false);
                 Panel.ClickControl Panel.Play;
                 Panel.Arrives (Display.SocketClose false);
                 Panel.Arrives Display.Heartbeat;
                 Panel.Arrives (Display.SocketClose false);
                 Panel.Arrives (Display.SocketClose false)] closedPanel) in
  counterInRange d
  /\ exists delay,
       In delay firstDelays /\ (delay < 30000)%Q
       /\ Display.timers (Display.deliver fullPage (Display.SocketClose false) d)
          = Display.timers d ++ [(delay, Display.Reconnect)].
Proof.
  apply backoff_never_reaches_its_limit. unfold counterInRange. simpl. lia.
Defined.
